(** * Klondike Solitaire: the rule engine of the two Tkinter programs

    The repository holds two independent implementations of the game:

    - [solitaire_tkinter (1).py]: classes [Card], [SolitaireGame] (the rule
      engine: stock, waste, four foundations, seven tableau columns, a move
      counter) and [SolitaireGUI].  Its engine is embedded at the top level
      of this file.
    - [text.py]: classes [Card], [Deck], [CardPile] and a [SolitaireGame] that
      mixes the rules with the canvas.  Its rule part is embedded in
      [Module Text].

    Python lists are Rocq lists whose last element is the top of the pile
    ([list.pop()] removes the last element, [list.append] adds one at the
    end).  Indices are Python integers ([Z]): a negative index counts from the
    end of the list and an index outside the list raises [IndexError]. *)

From Stdlib Require Import ZArith Lia.
From stdpp Require Import base option list.

Local Open Scope Z_scope.

(** ** Python list indexing *)

Section python_lists.
Context {A : Type}.

(** The position [l[i]] reads in a list of length [n]; [None] when Python
    raises [IndexError]. *)
Definition py_pos (n : nat) (i : Z) : option nat :=
  if decide (0 ≤ i < Z.of_nat n) then Some (Z.to_nat i)
  else if decide (- Z.of_nat n ≤ i < 0) then Some (Z.to_nat (Z.of_nat n + i))
  else None.

(** [l[i]] *)
Definition py_get (l : list A) (i : Z) : option A :=
  k ← py_pos (length l) i; l !! k.

(** [l[i] = x], for an index at which [l[i]] can be read *)
Definition py_set (l : list A) (i : Z) (x : A) : list A :=
  match py_pos (length l) i with
  | Some k => <[k:=x]> l
  | None => l
  end.

(** Where the slice [l[i:]] starts: slices clamp, they never raise. *)
Definition py_start (n : nat) (i : Z) : nat :=
  if decide (i < 0) then Z.to_nat (Z.max 0 (Z.of_nat n + i))
  else Z.to_nat (Z.min i (Z.of_nat n)).

(** [l[i:]] *)
Definition py_slice_from (l : list A) (i : Z) : list A :=
  drop (py_start (length l) i) l.

(** [del l[i:]] *)
Definition py_del_from (l : list A) (i : Z) : list A :=
  take (py_start (length l) i) l.

(** [l.pop()] leaves [l] without its last element. *)
Definition py_pop (l : list A) : list A := take (pred (length l)) l.
End python_lists.

(** What a call of an engine method ends in: it returns a boolean, or an
    [IndexError] escapes from a list access. *)
Inductive outcome : Type :=
  | Ret (b : bool)
  | IndexError.

Global Instance outcome_eq_dec : EqDecision outcome.
Proof. solve_decision. Defined.

(** ** The engine of [solitaire_tkinter (1).py] *)

(** [class Suit(Enum)] *)
Inductive Suit : Type := SPADE | HEART | DIAMOND | CLUB.

(** The strings of [RANKS = ['A', '2', ..., '10', 'J', 'Q', 'K']]. *)
Inductive Rank : Type :=
  | RA | R2 | R3 | R4 | R5 | R6 | R7 | R8 | R9 | R10 | RJ | RQ | RK.

Inductive Color : Type := red | black.

Global Instance Suit_eq_dec : EqDecision Suit.
Proof. solve_decision. Defined.
Global Instance Rank_eq_dec : EqDecision Rank.
Proof. solve_decision. Defined.
Global Instance Color_eq_dec : EqDecision Color.
Proof. solve_decision. Defined.

(** [for suit in Suit]: the members in definition order. *)
Definition Suits : list Suit := [SPADE; HEART; DIAMOND; CLUB].

Definition RANKS : list Rank :=
  [RA; R2; R3; R4; R5; R6; R7; R8; R9; R10; RJ; RQ; RK].

(** [RANK_VALUES = {rank: i+1 for i, rank in enumerate(RANKS)}] *)
Definition RANK_VALUES (r : Rank) : Z :=
  match r with
  | RA => 1 | R2 => 2 | R3 => 3 | R4 => 4 | R5 => 5 | R6 => 6 | R7 => 7
  | R8 => 8 | R9 => 9 | R10 => 10 | RJ => 11 | RQ => 12 | RK => 13
  end.

(** [class Card]: [suit] and [rank] never change after [__init__];
    [face_up] is the one field the engine assigns. *)
Record Card : Type := mkCard { suit : Suit; rank : Rank; face_up : bool }.

Global Instance Card_eq_dec : EqDecision Card.
Proof. solve_decision. Defined.

(** [Card(suit, rank)]: a new card lies face down. *)
Definition new_card (s : Suit) (r : Rank) : Card := mkCard s r false.

(** [Card.color] *)
Definition color (c : Card) : Color :=
  match suit c with
  | HEART | DIAMOND => red
  | _ => black
  end.

(** [card.face_up = b] *)
Definition set_face (b : bool) (c : Card) : Card := mkCard (suit c) (rank c) b.

(** What a card is, whichever way it faces. *)
Definition card_id (c : Card) : Suit * Rank := (suit c, rank c).

(** [class SolitaireGame].  A pile is a list of cards, and every position of
    every pile holds a card object of its own: the engine only ever moves a
    card from one list to another.  The attribute [selected] is set to [None]
    by [__init__] and never read or written again; it is left out. *)
Record SolitaireGame : Type := mkGame {
  stock : list Card;
  waste : list Card;
  foundations : list (list Card);
  tableau : list (list Card);
  moves : Z
}.

(** [if pile and not pile[-1].face_up: pile[-1].face_up = True], the statement
    that closes every move and that the board runs on a click. *)
Definition reveal_top (pile : list Card) : list Card :=
  match last pile with
  | Some top => if face_up top then pile else py_pop pile ++ [set_face true top]
  | None => pile
  end.

(** *** Dealing *)

(** The deck [initialize_deck] builds before it shuffles. *)
Definition fresh_deck : list Card :=
  s ← Suits; (new_card s) <$> RANKS.

(** [for j in range(i+1)], with [k] rounds still to run: the last round
    ([j == i]) turns its card face up.  [deck.pop()] on an empty list raises. *)
Fixpoint deal_column (k : nat) (deck pile : list Card) : option (list Card * list Card) :=
  match k with
  | O => Some (deck, pile)
  | S k' =>
      card ← last deck;
      deal_column k' (py_pop deck)
        (pile ++ [match k' with O => set_face true card | S _ => card end])
  end.

(** [for i in range(7)], over the columns [self.tableau[i]] still to fill. *)
Fixpoint deal_tableau (i : nat) (deck : list Card) (cols : list (list Card))
  : option (list Card * list (list Card)) :=
  match cols with
  | [] => Some (deck, [])
  | pile :: cols' =>
      '(deck1, pile1) ← deal_column (S i) deck pile;
      '(deck2, rest) ← deal_tableau (S i) deck1 cols';
      Some (deck2, pile1 :: rest)
  end.

(** [SolitaireGame.__init__] and [initialize_deck]; [deck] is the deck as
    [random.shuffle] left it. *)
Definition initialize_deck (deck : list Card) : option SolitaireGame :=
  '(rest, tab) ← deal_tableau 0 deck [[]; []; []; []; []; []; []];
  Some (mkGame rest [] [[]; []; []; []] tab 0).

(** *** Drawing *)

(** [while self.waste: card = self.waste.pop(); card.face_up = False;
    self.stock.append(card)], run for at most [fuel] rounds. *)
Fixpoint recycle_waste (fuel : nat) (waste stock : list Card) : list Card * list Card :=
  match fuel with
  | O => (waste, stock)
  | S fuel' =>
      match last waste with
      | None => (waste, stock)
      | Some card => recycle_waste fuel' (py_pop waste) (stock ++ [set_face false card])
      end
  end.

(** [SolitaireGame.draw_from_stock] *)
Definition draw_from_stock (self : SolitaireGame) : SolitaireGame :=
  match last (stock self) with
  | None =>
      let '(w, st) := recycle_waste (length (waste self)) (waste self) (stock self) in
      mkGame st w (foundations self) (tableau self) (moves self)
  | Some card =>
      mkGame (py_pop (stock self)) (waste self ++ [set_face true card])
        (foundations self) (tableau self) (moves self + 1)
  end.

(** *** Placement rules *)

(** [SolitaireGame.can_place_on_tableau] *)
Definition can_place_on_tableau (card : Card) (pile : list Card) : bool :=
  match last pile with
  | None => bool_decide (rank card = RK)
  | Some top =>
      bool_decide (RANK_VALUES (rank card) = RANK_VALUES (rank top) - 1)
      && negb (bool_decide (color card = color top))
  end.

(** The test [can_move_to_foundation] makes once it holds the foundation. *)
Definition foundation_accepts (card : Card) (foundation : list Card) : bool :=
  match last foundation with
  | None => bool_decide (rank card = RA)
  | Some top =>
      bool_decide (suit card = suit top)
      && bool_decide (RANK_VALUES (rank card) = RANK_VALUES (rank top) + 1)
  end.

(** [SolitaireGame.can_move_to_foundation]; [None] when
    [self.foundations[foundation_idx]] raises. *)
Definition can_move_to_foundation (self : SolitaireGame) (card : Card)
    (foundation_idx : Z) : option bool :=
  foundation ← py_get (foundations self) foundation_idx;
  Some (foundation_accepts card foundation).

(** *** Moves *)

(** The argument [from_pile]: the string ['waste'] or an integer.  Any other
    value fails both tests of the methods, as an integer outside [range(7)]
    does. *)
Inductive PileRef : Type :=
  | FromWaste
  | FromTableau (i : Z).

Global Instance PileRef_eq_dec : EqDecision PileRef.
Proof. solve_decision. Defined.

(** [from_pile in range(7)] *)
Definition in_range7 (i : Z) : bool := bool_decide (0 ≤ i < 7).

(** [SolitaireGame.move_to_tableau].  In the tableau branch [pile] is the list
    object [self.tableau[from_pile]]: [del pile[card_idx:]] runs on what the
    list holds after [extend], which matters when source and target are the
    same list. *)
Definition move_to_tableau (self : SolitaireGame) (from_pile : PileRef)
    (to_pile_idx card_idx : Z) : outcome * SolitaireGame :=
  match from_pile with
  | FromWaste =>
      match last (waste self) with
      | None => (Ret false, self)
      | Some card =>
          match py_get (tableau self) to_pile_idx with
          | None => (IndexError, self)
          | Some target =>
              if can_place_on_tableau card target then
                (Ret true,
                 mkGame (stock self) (reveal_top (py_pop (waste self)))
                   (foundations self)
                   (py_set (tableau self) to_pile_idx (target ++ [card]))
                   (moves self + 1))
              else (Ret false, self)
          end
      end
  | FromTableau from =>
      if in_range7 from then
        match tableau self !! Z.to_nat from with
        | None => (IndexError, self)
        | Some pile =>
            if bool_decide (card_idx < Z.of_nat (length pile)) then
              match py_get pile card_idx with
              | None => (IndexError, self)
              | Some c =>
                  if face_up c then
                    let cards_to_move := py_slice_from pile card_idx in
                    match head cards_to_move, py_get (tableau self) to_pile_idx with
                    | Some first, Some target =>
                        if can_place_on_tableau first target then
                          let extended :=
                            py_set (tableau self) to_pile_idx (target ++ cards_to_move) in
                          let pile1 := default [] (extended !! Z.to_nat from) in
                          let pile2 := py_del_from pile1 card_idx in
                          (Ret true,
                           mkGame (stock self) (waste self) (foundations self)
                             (<[Z.to_nat from := reveal_top pile2]> extended)
                             (moves self + 1))
                        else (Ret false, self)
                    | _, _ => (IndexError, self)
                    end
                  else (Ret false, self)
              end
            else (Ret false, self)
        end
      else (Ret false, self)
  end.

(** The first half of [SolitaireGame.move_to_foundation]: the card it takes
    and the state it leaves, [Some None] when no card is taken, [None] when a
    list access raises. *)
Definition take_for_foundation (self : SolitaireGame) (from_pile : PileRef)
    (foundation_idx : Z) : option (option (Card * SolitaireGame)) :=
  match from_pile with
  | FromWaste =>
      match last (waste self) with
      | None => Some None
      | Some top =>
          ok ← can_move_to_foundation self top foundation_idx;
          Some (if ok : bool then
                  Some (top, mkGame (stock self) (py_pop (waste self))
                               (foundations self) (tableau self) (moves self))
                else None)
      end
  | FromTableau from =>
      if in_range7 from then
        pile ← tableau self !! Z.to_nat from;
        match last pile with
        | None => Some None
        | Some top =>
            if face_up top then
              ok ← can_move_to_foundation self top foundation_idx;
              Some (if ok : bool then
                      Some (top, mkGame (stock self) (waste self) (foundations self)
                                   (<[Z.to_nat from := py_pop pile]> (tableau self))
                                   (moves self))
                    else None)
            else Some None
        end
      else Some None
  end.

(** [SolitaireGame.move_to_foundation] *)
Definition move_to_foundation (self : SolitaireGame) (from_pile : PileRef)
    (foundation_idx : Z) : outcome * SolitaireGame :=
  match take_for_foundation self from_pile foundation_idx with
  | None => (IndexError, self)
  | Some None => (Ret false, self)
  | Some (Some (card, s1)) =>
      match py_get (foundations s1) foundation_idx with
      | None => (IndexError, s1)
      | Some foundation =>
          let fs := py_set (foundations s1) foundation_idx (foundation ++ [card]) in
          let tab :=
            match from_pile with
            | FromTableau from =>
                if in_range7 from then
                  match tableau s1 !! Z.to_nat from with
                  | Some pile => <[Z.to_nat from := reveal_top pile]> (tableau s1)
                  | None => tableau s1
                  end
                else tableau s1
            | FromWaste => tableau s1
            end in
          (Ret true, mkGame (stock s1) (waste s1) fs tab (moves s1 + 1))
      end
  end.

(** [SolitaireGame.is_won] *)
Definition is_won (self : SolitaireGame) : bool :=
  forallb (λ f, bool_decide (length f = 13%nat)) (foundations self).

(** The flip of [SolitaireGUI.select_tableau_card]: a click on a column whose
    top card lies face down turns that card over and does nothing else.
    [None] when [self.game.tableau[tableau_idx]] raises. *)
Definition flip_exposed (self : SolitaireGame) (tableau_idx : Z)
  : option SolitaireGame :=
  pile ← py_get (tableau self) tableau_idx;
  Some (mkGame (stock self) (waste self) (foundations self)
          (py_set (tableau self) tableau_idx (reveal_top pile)) (moves self)).

(** *** Runs of the engine *)

(** One call from the board to the engine. *)
Inductive Op : Type :=
  | DrawFromStock
  | MoveToTableau (from_pile : PileRef) (to_pile_idx card_idx : Z)
  | MoveToFoundation (from_pile : PileRef) (foundation_idx : Z)
  | FlipExposed (tableau_idx : Z).

(** The state a call leaves behind, whatever it returns or raises. *)
Definition run_op (o : Op) (self : SolitaireGame) : SolitaireGame :=
  match o with
  | DrawFromStock => draw_from_stock self
  | MoveToTableau from_pile to_pile_idx card_idx =>
      (move_to_tableau self from_pile to_pile_idx card_idx).2
  | MoveToFoundation from_pile foundation_idx =>
      (move_to_foundation self from_pile foundation_idx).2
  | FlipExposed tableau_idx => default self (flip_exposed self tableau_idx)
  end.

(** [n] draws in a row. *)
Definition draw_times (n : nat) (s : SolitaireGame) : SolitaireGame :=
  Nat.iter n draw_from_stock s.

(** The states of one game: a deal of some shuffle of the deck, then any
    number of calls with any arguments.  ([new_game] starts another game,
    whose first state is again a deal.) *)
Inductive reachable : SolitaireGame → Prop :=
  | reachable_deal deck s :
      deck ≡ₚ fresh_deck → initialize_deck deck = Some s → reachable s
  | reachable_step o s :
      reachable s → reachable (run_op o s).

(** *** The invariants of the game state *)

(** Every card on the table, pile after pile. *)
Definition all_cards (self : SolitaireGame) : list Card :=
  stock self ++ waste self ++ mjoin (foundations self) ++ mjoin (tableau self).

(** The 52 cards of the standard deck. *)
Definition standard_deck : list (Suit * Rank) :=
  s ← Suits; (λ r, (s, r)) <$> RANKS.

(** The cards on the table are the standard deck, each card once. *)
Definition full_deck (self : SolitaireGame) : Prop :=
  card_id <$> all_cards self ≡ₚ standard_deck.

(** One card lying directly on another in a face-up run: a lower rank and
    the other colour. *)
Definition lies_on (above below : Card) : Prop :=
  RANK_VALUES (rank above) < RANK_VALUES (rank below) ∧ color above ≠ color below.

(** Strictly descending ranks and alternating colours, bottom to top. *)
Fixpoint descending_alternating (run : list Card) : Prop :=
  match run with
  | below :: ((above :: _) as rest) =>
      lies_on above below ∧ descending_alternating rest
  | _ => True
  end.

(** A tableau column: face-down cards, then a face-up run that descends in
    rank and alternates in colour up to the top. *)
Definition tableau_pile_inv (pile : list Card) : Prop :=
  ∃ down up,
    pile = down ++ up
    ∧ Forall (λ c, face_up c = false) down
    ∧ Forall (λ c, face_up c = true) up
    ∧ descending_alternating up.

Definition tableau_inv (self : SolitaireGame) : Prop :=
  Forall tableau_pile_inv (tableau self).

(** A foundation of length k: the ranks 1..k of one suit, in order. *)
Definition foundation_pile_inv (f : list Card) : Prop :=
  ∃ s, card_id <$> f = (λ r, (s, r)) <$> take (length f) RANKS.

(** What holds of every state of a game (lemma [reachable_game_inv]). *)
Record game_inv (self : SolitaireGame) : Prop := mkInv {
  inv_foundations : length (foundations self) = 4%nat;
  inv_tableau : length (tableau self) = 7%nat;
  inv_deck : full_deck self;
  inv_columns : tableau_inv self;
  inv_suits : Forall foundation_pile_inv (foundations self);
  inv_waste : Forall (λ c, face_up c = true) (waste self)
}.

(** ** The rule part of [text.py] *)

Module Text.

(** [class Suit(Enum)]: each member carries its symbol and its colour. *)
Inductive Suit : Type := HEARTS | DIAMONDS | CLUBS | SPADES.

(** [suit.value[1]] *)
Definition suit_color (s : Suit) : Color :=
  match s with
  | HEARTS | DIAMONDS => red
  | CLUBS | SPADES => black
  end.

(** [class Rank(Enum)]: each member carries its label and its value. *)
Inductive Rank : Type :=
  | ACE | TWO | THREE | FOUR | FIVE | SIX | SEVEN | EIGHT | NINE | TEN
  | JACK | QUEEN | KING.

(** [rank.value[1]] *)
Definition rank_value (r : Rank) : Z :=
  match r with
  | ACE => 1 | TWO => 2 | THREE => 3 | FOUR => 4 | FIVE => 5 | SIX => 6
  | SEVEN => 7 | EIGHT => 8 | NINE => 9 | TEN => 10 | JACK => 11
  | QUEEN => 12 | KING => 13
  end.

Global Instance Suit_eq_dec : EqDecision Suit.
Proof. solve_decision. Defined.
Global Instance Rank_eq_dec : EqDecision Rank.
Proof. solve_decision. Defined.

(** [@dataclass class Card]: no face flag in this program. *)
Record Card : Type := mkCard { suit : Suit; rank : Rank }.

Global Instance Card_eq_dec : EqDecision Card.
Proof. solve_decision. Defined.

Definition get_color (c : Card) : Color := suit_color (suit c).
Definition get_rank_value (c : Card) : Z := rank_value (rank c).

(** [class Deck] is the list [cards], shuffled by [Deck()].
    [Deck.draw]: the card drawn, if any, and the cards left. *)
Definition draw (cards : list Card) : option Card * list Card :=
  match last cards with
  | Some card => (Some card, py_pop cards)
  | None => (None, cards)
  end.

(** [class CardPile] *)
Record CardPile : Type := mkPile {
  pile_id : Z;
  cards : list Card;
  is_foundation : bool
}.

Definition add_card (self : CardPile) (card : Card) : CardPile :=
  mkPile (pile_id self) (cards self ++ [card]) (is_foundation self).

(** [CardPile.remove_card], as [move_card] uses it: the pile it leaves. *)
Definition remove_card (self : CardPile) : CardPile :=
  mkPile (pile_id self) (py_pop (cards self)) (is_foundation self).

Definition get_top_card (self : CardPile) : option Card := last (cards self).

Definition is_empty (self : CardPile) : bool :=
  bool_decide (length (cards self) = 0%nat).

(** [CardPile.can_accept_card] *)
Definition can_accept_card (self : CardPile) (card : Card) : bool :=
  if is_foundation self then
    if is_empty self then bool_decide (rank card = ACE)
    else
      match get_top_card self with
      | Some top_card =>
          bool_decide (suit card = suit top_card)
          && bool_decide (get_rank_value card = get_rank_value top_card + 1)
      | None => false
      end
  else
    if is_empty self then bool_decide (rank card = KING)
    else
      match get_top_card self with
      | Some top_card =>
          negb (bool_decide (get_color card = get_color top_card))
          && bool_decide (get_rank_value card = get_rank_value top_card - 1)
      | None => false
      end.

(** A pile object of the game: the board hands [move_card] two of the
    objects held in [foundation_piles] and [tableau_piles]. *)
Inductive PileRef : Type :=
  | FoundationPile (i : nat)
  | TableauPile (i : nat).

(** The entries of [move_history]. *)
Inductive HistoryEntry : Type :=
  | DeckDrawn
  | Reshuffled
  | Moved (from_pile to_pile : PileRef) (card : Card).

(** The attributes of [SolitaireGame] the rules read and write. *)
Record SolitaireGame : Type := mkGame {
  deck : list Card;
  waste_pile : list Card;
  foundation_piles : list CardPile;
  tableau_piles : list CardPile;
  selected_card : option Card;
  selected_pile : option PileRef;
  moves : Z;
  move_history : list HistoryEntry
}.

Definition get_pile (self : SolitaireGame) (p : PileRef) : option CardPile :=
  match p with
  | FoundationPile i => foundation_piles self !! i
  | TableauPile i => tableau_piles self !! i
  end.

(** A method of a pile object changed the object to [pile]. *)
Definition set_pile (self : SolitaireGame) (p : PileRef) (pile : CardPile)
  : SolitaireGame :=
  match p with
  | FoundationPile i =>
      mkGame (deck self) (waste_pile self) (<[i:=pile]> (foundation_piles self))
        (tableau_piles self) (selected_card self) (selected_pile self)
        (moves self) (move_history self)
  | TableauPile i =>
      mkGame (deck self) (waste_pile self) (foundation_piles self)
        (<[i:=pile]> (tableau_piles self)) (selected_card self) (selected_pile self)
        (moves self) (move_history self)
  end.

(** [SolitaireGame.draw_from_deck], up to the redraw of the canvas;
    [shuffle] is what [random.shuffle] makes of the list it is given. *)
Definition draw_from_deck (shuffle : list Card → list Card)
    (self : SolitaireGame) : SolitaireGame :=
  match draw (deck self) with
  | (Some card, rest) =>
      mkGame rest (waste_pile self ++ [card])
        (foundation_piles self) (tableau_piles self)
        (selected_card self) (selected_pile self)
        (moves self + 1) (move_history self ++ [DeckDrawn])
  | (None, rest) =>
      mkGame (shuffle (rest ++ waste_pile self)) []
        (foundation_piles self) (tableau_piles self)
        (selected_card self) (selected_pile self)
        (moves self + 1) (move_history self ++ [Reshuffled])
  end.

(** The inner loop of [initialize_game]: [k] times, draw a card and, if
    there was one, put it on the pile. *)
Fixpoint deal_pile (k : nat) (cards : list Card) (pile : CardPile)
  : list Card * CardPile :=
  match k with
  | O => (cards, pile)
  | S k' =>
      match draw cards with
      | (Some card, rest) => deal_pile k' rest (add_card pile card)
      | (None, rest) => deal_pile k' rest pile
      end
  end.

(** [for i, pile in enumerate(self.tableau_piles)], from pile [i] on. *)
Fixpoint deal_piles (i : nat) (cards : list Card) (piles : list CardPile)
  : list Card * list CardPile :=
  match piles with
  | [] => (cards, [])
  | pile :: piles' =>
      let '(cards1, pile1) := deal_pile (S i) cards pile in
      let '(cards2, rest) := deal_piles (S i) cards1 piles' in
      (cards2, pile1 :: rest)
  end.

(** [SolitaireGame.initialize_game], up to the redraw: it appends four
    foundation piles and seven tableau piles to the piles the game already
    has, then deals. *)
Definition initialize_game (self : SolitaireGame) : SolitaireGame :=
  let fs := foundation_piles self
            ++ ((λ i, mkPile (Z.of_nat i) [] true) <$> seq 0 4) in
  let ts := tableau_piles self
            ++ ((λ i, mkPile (Z.of_nat i) [] false) <$> seq 0 7) in
  let '(rest, dealt) := deal_piles 0 (deck self) ts in
  mkGame rest (waste_pile self) fs dealt
    (selected_card self) (selected_pile self) 0 [].

(** [SolitaireGame.restart_game]; [shuffled] is the deck [Deck()] makes. *)
Definition restart_game (shuffled : list Card) (self : SolitaireGame)
  : SolitaireGame :=
  let clear pile := mkPile (pile_id pile) [] (is_foundation pile) in
  initialize_game
    (mkGame shuffled [] (clear <$> foundation_piles self)
       (clear <$> tableau_piles self)
       (selected_card self) (selected_pile self)
       (moves self) (move_history self)).

(** [SolitaireGame.__init__], the window apart. *)
Definition init (shuffled : list Card) : SolitaireGame :=
  initialize_game (mkGame shuffled [] [] [] None None 0 []).

(** The test of [check_win]. *)
Definition foundations_full (self : SolitaireGame) : bool :=
  forallb (λ pile, bool_decide (length (cards pile) = 13%nat))
    (foundation_piles self).

(** [SolitaireGame.check_win], the message box apart. *)
Definition check_win (shuffled : list Card) (self : SolitaireGame)
  : SolitaireGame :=
  if foundations_full self then restart_game shuffled self else self.

(** [SolitaireGame.move_card], up to the redraw; [None] when [from_pile] or
    [to_pile] is no pile of the game.  [shuffled] is the deck of the restart,
    should the move win the game. *)
Definition move_card (shuffled : list Card) (self : SolitaireGame)
    (from_pile to_pile : PileRef) : option SolitaireGame :=
  source ← get_pile self from_pile;
  target ← get_pile self to_pile;
  match selected_card self, get_top_card source with
  | Some _, Some card =>
      let s3 :=
        if can_accept_card target card then
          let s1 := set_pile self from_pile (remove_card source) in
          target1 ← get_pile s1 to_pile;
          let s2 := set_pile s1 to_pile (add_card target1 card) in
          Some (check_win shuffled
                  (mkGame (deck s2) (waste_pile s2) (foundation_piles s2)
                     (tableau_piles s2) (selected_card s2) (selected_pile s2)
                     (moves s2 + 1)
                     (move_history s2 ++ [Moved from_pile to_pile card])))
        else Some self in
      s ← s3;
      Some (mkGame (deck s) (waste_pile s) (foundation_piles s) (tableau_piles s)
              None None (moves s) (move_history s))
  | _, _ => Some self
  end.

(** *** The handlers of the canvas *)

(** The deck [Deck.create_deck] builds before it shuffles. *)
Definition Suits : list Suit := [HEARTS; DIAMONDS; CLUBS; SPADES].

Definition Ranks : list Rank :=
  [ACE; TWO; THREE; FOUR; FIVE; SIX; SEVEN; EIGHT; NINE; TEN; JACK; QUEEN; KING].

Definition unshuffled_deck : list Card := s ← Suits; mkCard s <$> Ranks.

(** The tag [draw_game] gives a card on the canvas: ["waste"],
    [f"foundation_{i}"] or [f"tableau_{i}_{j}"]. *)
Inductive Tag : Type :=
  | WasteTag
  | FoundationTag (i : nat)
  | TableauTag (i j : nat).

Definition select (self : SolitaireGame) (card : option Card) (pile : option PileRef)
  : SolitaireGame :=
  mkGame (deck self) (waste_pile self) (foundation_piles self) (tableau_piles self)
    card pile (moves self) (move_history self).

(** [SolitaireGame.on_card_click]; [None] when the list access raises. *)
Definition on_card_click (self : SolitaireGame) (card : Card) (tag : Tag)
  : option SolitaireGame :=
  match tag with
  | WasteTag => Some (select self (Some card) None)
  | FoundationTag idx =>
      _ ← foundation_piles self !! idx;
      Some (select self (Some card) (Some (FoundationPile idx)))
  | TableauTag pile_idx _ =>
      _ ← tableau_piles self !! pile_idx;
      Some (select self (Some card) (Some (TableauPile pile_idx)))
  end.

Definition card_width : Z := 80.
Definition card_height : Z := 120.

(** [for i, pile in enumerate(piles)] of [on_canvas_release], from pile [i]
    on: the first pile with [x0 + i * 100 < x < x0 + i * 100 + card_width]
    and [y0 < y < y0 + h]. *)
Fixpoint release_target (piles : list CardPile) (i : nat) (x0 y0 h x y : Z)
  : option nat :=
  match piles with
  | [] => None
  | _ :: rest =>
      if bool_decide (x0 + Z.of_nat i * 100 < x < x0 + Z.of_nat i * 100 + card_width)
         && bool_decide (y0 < y < y0 + h)
      then Some i
      else release_target rest (S i) x0 y0 h x y
  end.

(** [SolitaireGame.on_canvas_release] for a release at [(x, y)];
    [shuffled] is the deck of the restart, should the move win the game. *)
Definition on_canvas_release (shuffled : list Card) (self : SolitaireGame) (x y : Z)
  : option SolitaireGame :=
  match selected_card self, selected_pile self with
  | Some _, Some from_pile =>
      match release_target (foundation_piles self) 0 (30 + 500) 30 card_height x y with
      | Some i => move_card shuffled self from_pile (FoundationPile i)
      | None =>
          match release_target (tableau_piles self) 0 30 210 (card_height + 150) x y with
          | Some i => move_card shuffled self from_pile (TableauPile i)
          | None => Some (select self None None)
          end
      end
  | _, _ => Some self
  end.

(** [SolitaireGame.select_pile], the handler of a click on the place of an
    empty pile. *)
Definition select_pile (self : SolitaireGame) (p : PileRef) : option SolitaireGame :=
  pile ← get_pile self p;
  if is_empty pile && negb (is_foundation pile) then Some self
  else if negb (is_empty pile) then
    Some (select self (get_top_card pile) (Some p))
  else Some self.

(** What [show_hint] puts in its message box. *)
Inductive Hint : Type :=
  | WasteToFoundation (card : Card)
  | WasteToTableau (card : Card)
  | TableauToFoundation (i : nat) (card : Card)
  | NoHint.

(** [for foundation in piles: if foundation.can_accept_card(card): ...;
    hint_found = True; break] *)
Fixpoint some_accepts (piles : list CardPile) (card : Card) : bool :=
  match piles with
  | [] => false
  | pile :: rest => if can_accept_card pile card then true else some_accepts rest card
  end.

(** The last loop of [show_hint], from tableau pile [i] on. *)
Fixpoint tableau_hint (foundations : list CardPile) (piles : list CardPile) (i : nat)
  : Hint :=
  match piles with
  | [] => NoHint
  | tableau :: rest =>
      match (if is_empty tableau then None else get_top_card tableau) with
      | Some card =>
          if some_accepts foundations card then TableauToFoundation i card
          else tableau_hint foundations rest (S i)
      | None => tableau_hint foundations rest (S i)
      end
  end.

(** [SolitaireGame.show_hint]: the hint it shows; the game is not changed. *)
Definition show_hint (self : SolitaireGame) : Hint :=
  let from_waste :=
    match last (waste_pile self) with
    | Some card =>
        if some_accepts (foundation_piles self) card then Some (WasteToFoundation card)
        else if some_accepts (tableau_piles self) card then Some (WasteToTableau card)
        else None
    | None => None
    end in
  match from_waste with
  | Some hint => hint
  | None => tableau_hint (foundation_piles self) (tableau_piles self) 0
  end.

(** *** The redraw, and what a handler ends in *)

(** [for i, pile in enumerate(self.foundation_piles)] of [draw_game], from
    pile [i] on: for an empty pile it reads [list(Suit)[i]], and [Suit] has
    four members, so an empty pile past the fourth raises [IndexError].  No
    other statement of [draw_game] can raise. *)
Fixpoint foundations_drawn (piles : list CardPile) (i : nat) : bool :=
  match piles with
  | [] => true
  | pile :: rest =>
      if is_empty pile && negb (bool_decide (i < 4)%nat) then false
      else foundations_drawn rest (S i)
  end.

(** [SolitaireGame.draw_game]: whether it returns.  It changes nothing of
    the game. *)
Definition draw_game (self : SolitaireGame) : bool :=
  foundations_drawn (foundation_piles self) 0.

(** What a handler ends in: it returns, or an [IndexError] escapes from it.
    Either way it leaves a state, and the window goes on with that state. *)
Inductive Result : Type :=
  | Returned (s : SolitaireGame)
  | Raised (s : SolitaireGame).

Definition state_of (r : Result) : SolitaireGame :=
  match r with
  | Returned s | Raised s => s
  end.

(** [self.draw_game()] as the last statement of a handler. *)
Definition redraw (s : SolitaireGame) : Result :=
  if draw_game s then Returned s else Raised s.

(** [SolitaireGame.move_card] with its redraws; [None] when [from_pile] or
    [to_pile] is no pile of the game.  A move that wins runs [restart_game]
    inside [check_win]: when the redraw of the restart raises, the rest of
    [move_card] does not run and the selection stays. *)
Definition move_card_result (shuffled : list Card) (self : SolitaireGame)
    (from_pile to_pile : PileRef) : option Result :=
  source ← get_pile self from_pile;
  target ← get_pile self to_pile;
  match selected_card self, get_top_card source with
  | Some _, Some card =>
      if can_accept_card target card then
        let s1 := set_pile self from_pile (remove_card source) in
        target1 ← get_pile s1 to_pile;
        let s2 := set_pile s1 to_pile (add_card target1 card) in
        let moved :=
          mkGame (deck s2) (waste_pile s2) (foundation_piles s2)
            (tableau_piles s2) (selected_card s2) (selected_pile s2)
            (moves s2 + 1)
            (move_history s2 ++ [Moved from_pile to_pile card]) in
        if foundations_full moved then
          let restarted := restart_game shuffled moved in
          Some (if draw_game restarted then redraw (select restarted None None)
                else Raised restarted)
        else Some (redraw (select moved None None))
      else Some (redraw (select self None None))
  | _, _ => Some (Returned self)
  end.

(** [SolitaireGame.on_canvas_release] with the redraws of [move_card]. *)
Definition on_canvas_release_result (shuffled : list Card) (self : SolitaireGame)
    (x y : Z) : option Result :=
  match selected_card self, selected_pile self with
  | Some _, Some from_pile =>
      match release_target (foundation_piles self) 0 (30 + 500) 30 card_height x y with
      | Some i => move_card_result shuffled self from_pile (FoundationPile i)
      | None =>
          match release_target (tableau_piles self) 0 30 210 (card_height + 150) x y with
          | Some i => move_card_result shuffled self from_pile (TableauPile i)
          | None => Some (Returned (select self None None))
          end
      end
  | _, _ => Some (Returned self)
  end.

(** What the player does: a click on a card, a click on the place of an
    empty pile, a release of the button, a click on the deck, and the three
    buttons.  The events carry what [random.shuffle] does when they run. *)
Inductive Event : Type :=
  | CardClick (card : Card) (tag : Tag)
  | PileClick (p : PileRef)
  | Release (shuffled : list Card) (x y : Z)
  | DeckClick (shuffle : list Card → list Card)
  | RestartButton (shuffled : list Card)
  | HintButton
  | UndoButton.

(** What the handler of an event ends in; [None] when the event names a
    pile that is no pile of the game, which no event of the window does.
    [on_card_click] assigns [selected_card] before the list access that may
    raise; [draw_from_deck] ends in a redraw, and so does [restart_game],
    through [initialize_game]; [select_pile], [show_hint] and [undo_move]
    do not redraw. *)
Definition handle (e : Event) (self : SolitaireGame) : option Result :=
  match e with
  | CardClick card tag =>
      Some (match on_card_click self card tag with
            | Some s => Returned s
            | None => Raised (select self (Some card) (selected_pile self))
            end)
  | PileClick p => Returned <$> select_pile self p
  | Release shuffled x y => on_canvas_release_result shuffled self x y
  | DeckClick shuffle => Some (redraw (draw_from_deck shuffle self))
  | RestartButton shuffled => Some (redraw (restart_game shuffled self))
  | HintButton | UndoButton => Some (Returned self)
  end.

(** The shuffles an event carries are shuffles: a new deck is some order of
    the 52 cards, and a reshuffle reorders the list it is given. *)
Definition shuffles (e : Event) : Prop :=
  match e with
  | Release shuffled _ _ | RestartButton shuffled => shuffled ≡ₚ unshuffled_deck
  | DeckClick shuffle => ∀ l, shuffle l ≡ₚ l
  | _ => True
  end.

(** The states of the program: the window opens on a deal, then any events,
    with any card and any tag for a click on a card.  A handler that raises
    leaves its state behind like one that returns: Tk reports the exception
    and goes on. *)
Inductive reachable : SolitaireGame → Prop :=
  | reachable_start shuffled :
      shuffled ≡ₚ unshuffled_deck → reachable (init shuffled)
  | reachable_handle e s r :
      reachable s → shuffles e → handle e s = Some r → reachable (state_of r).

(** Every card of the piles. *)
Definition pile_cards (piles : list CardPile) : list Card := mjoin (cards <$> piles).

Definition all_cards (self : SolitaireGame) : list Card :=
  deck self ++ waste_pile self
  ++ pile_cards (foundation_piles self) ++ pile_cards (tableau_piles self).

(** The cards pile [i], pile [i+1], ... get of a deck of [n] cards, for [m]
    piles: the deal stops when the deck runs out. *)
Fixpoint deal_lengths (i n m : nat) : list nat :=
  match m with
  | O => []
  | S m' => Nat.min (S i) n :: deal_lengths (S i) (n - S i)%nat m'
  end.

(** What holds of every state of the program (lemma [text_reachable_inv]). *)
Record text_inv (self : SolitaireGame) : Prop := mkTextInv {
  text_deck : all_cards self ≡ₚ unshuffled_deck;
  text_piles :
    (length (foundation_piles self) = 4%nat
     ∧ (length (deck self) + length (waste_pile self) = 24)%nat)
    ∨ (8 ≤ length (foundation_piles self))%nat;
  text_selected :
    ∀ p, selected_pile self = Some p → is_Some (get_pile self p)
}.

End Text.

(** ** States used as examples *)

(** The deal of the deck as [initialize_deck] builds it, had the shuffle
    left it in that order. *)
Definition unshuffled_deal : SolitaireGame :=
  Eval vm_compute in default (mkGame [] [] [] [] 0) (initialize_deck fresh_deck).

(** The state after the whole stock of the unshuffled deal was drawn: the
    24 cards of the waste lie face up, A♠ on top. *)
Definition stock_drawn : SolitaireGame := draw_times 24 unshuffled_deal.

(** Five cards for the waste. *)
Definition five_cards : list Card :=
  [mkCard HEART R5 true; mkCard SPADE RK true; mkCard CLUB R2 true;
   mkCard DIAMOND RJ true; mkCard HEART RA true].

(** Two cards for the waste pile of [text.py]. *)
Definition text_two_cards : list Text.Card :=
  [Text.mkCard Text.HEARTS Text.ACE; Text.mkCard Text.HEARTS Text.TWO].

(** A state with Q♥ on top of the waste, a Queen turned up in column 1 and
    an empty column 2. *)
Definition queen_example : SolitaireGame :=
  mkGame [] [mkCard CLUB R3 true; mkCard HEART RQ true]
    [[]; []; []; []]
    [[mkCard SPADE RK true];
     [mkCard CLUB R5 false; mkCard SPADE RQ true];
     []; []; []; []; []]
    4.

(** A state with A♥ on top of the waste and 2♥ below it, and another with
    A♥ on the first foundation and 2♠ on top of the waste. *)
Definition hearts_example : SolitaireGame :=
  mkGame [] [mkCard HEART R2 true; mkCard HEART RA true]
    [[]; []; []; []] [[]; []; []; []; []; []; []] 0.

Definition spade_example : SolitaireGame :=
  mkGame [] [mkCard SPADE R2 true]
    [[mkCard HEART RA true]; []; []; []] [[]; []; []; []; []; []; []] 1.

(** ** More that holds of the engine's states *)

(** [above] may be put on the top card [below] of a column: the test of
    [can_place_on_tableau] against a top card. *)
Definition placed_on (above below : Card) : Prop :=
  RANK_VALUES (rank above) = RANK_VALUES (rank below) - 1
  ∧ color above ≠ color below.

(** A run built card by card through [can_place_on_tableau]: each card one
    rank below the card under it and of the other colour. *)
Fixpoint built_run (run : list Card) : Prop :=
  match run with
  | below :: ((above :: _) as rest) => placed_on above below ∧ built_run rest
  | _ => True
  end.

(** A column as the engine keeps it: face-down cards under a built run of
    face-up cards, and no column of face-down cards only. *)
Definition built_column (pile : list Card) : Prop :=
  ∃ down up,
    pile = down ++ up
    ∧ Forall (λ c, face_up c = false) down
    ∧ Forall (λ c, face_up c = true) up
    ∧ built_run up
    ∧ (up = [] → down = []).

(** How the cards of the other piles face. *)
Record faces_inv (self : SolitaireGame) : Prop := mkFaces {
  faces_stock : Forall (λ c, face_up c = false) (stock self);
  faces_waste : Forall (λ c, face_up c = true) (waste self);
  faces_foundations :
    Forall (Forall (λ c, face_up c = true)) (foundations self)
}.

(** The cards [for i in range(...)] of [initialize_deck] pops for [m]
    columns, the first of them column [i]. *)
Fixpoint cards_needed (i m : nat) : nat :=
  match m with
  | O => O
  | S m' => S i + cards_needed (S i) m'
  end.

(** A list of calls, run one after the other. *)
Definition run_ops (ops : list Op) (s : SolitaireGame) : SolitaireGame :=
  foldl (λ s o, run_op o s) s ops.

(** A shuffle that plays out by itself.  Read from its last card backwards
    it deals Q♥ to column 0, A♦ under K♥ to column 1, the diamonds 2 to K
    and the clubs to the columns 2 to 6, each column with its lowest card on
    top, and leaves a stock that gives A♠, ..., K♠, A♥, ..., J♥ in this
    order. *)
Definition winnable_deck : list Card :=
  reverse
    ([new_card HEART RQ]
     ++ [new_card DIAMOND RA; new_card HEART RK]
     ++ (new_card DIAMOND <$> [R4; R3; R2])
     ++ (new_card DIAMOND <$> [R8; R7; R6; R5])
     ++ (new_card DIAMOND <$> [RK; RQ; RJ; R10; R9])
     ++ (new_card CLUB <$> [R6; R5; R4; R3; R2; RA])
     ++ (new_card CLUB <$> [RK; RQ; RJ; R10; R9; R8; R7])
     ++ (new_card SPADE <$> RANKS)
     ++ (new_card HEART <$> [RA; R2; R3; R4; R5; R6; R7; R8; R9; R10; RJ])).

Definition winnable_deal : SolitaireGame :=
  Eval vm_compute in default (mkGame [] [] [] [] 0) (initialize_deck winnable_deck).

(** The calls that play [winnable_deal] out: every stock card goes from the
    waste to its foundation as it is drawn, then the columns are emptied from
    left to right. *)
Definition winning_play : list Op :=
  mjoin (replicate 13 [DrawFromStock; MoveToFoundation FromWaste 0])
  ++ mjoin (replicate 11 [DrawFromStock; MoveToFoundation FromWaste 1])
  ++ [MoveToFoundation (FromTableau 0) 1; MoveToFoundation (FromTableau 1) 1]
  ++ [MoveToFoundation (FromTableau 1) 2]
  ++ replicate 3 (MoveToFoundation (FromTableau 2) 2)
  ++ replicate 4 (MoveToFoundation (FromTableau 3) 2)
  ++ replicate 5 (MoveToFoundation (FromTableau 4) 2)
  ++ replicate 6 (MoveToFoundation (FromTableau 5) 3)
  ++ replicate 7 (MoveToFoundation (FromTableau 6) 3).

Definition won_game : SolitaireGame := run_ops winning_play winnable_deal.

(** A shuffle that deals a run to build.  Its last ten cards, read from the
    last one backwards, are dealt as 7♥ to column 0, 8♠ on K♣ to column 1,
    9♦ on J♣ and Q♣ to column 2 and 10♣ on 2♣, 3♣ and 4♣ to column 3. *)
Definition run_cards : list Card :=
  [new_card HEART R7;
   new_card CLUB RK; new_card SPADE R8;
   new_card CLUB RQ; new_card CLUB RJ; new_card DIAMOND R9;
   new_card CLUB R4; new_card CLUB R3; new_card CLUB R2; new_card CLUB R10].

Definition run_deck : list Card :=
  filter (λ c, c ∉ run_cards) fresh_deck ++ reverse run_cards.

Definition run_deal : SolitaireGame :=
  Eval vm_compute in default (mkGame [] [] [] [] 0) (initialize_deck run_deck).

(** The calls that build the run 9♦ 8♠ 7♥ on column 2: 7♥ goes onto 8♠,
    then 8♠ with 7♥ onto 9♦. *)
Definition run_play : list Op :=
  [MoveToTableau (FromTableau 0) 1 0; MoveToTableau (FromTableau 1) 2 1].

(** The state they leave: column 2 is Q♣ and J♣ face down under 9♦ 8♠ 7♥,
    column 3 ends in 10♣, and two moves are counted. *)
Definition run_built : SolitaireGame :=
  Eval vm_compute in run_ops run_play run_deal.

(** ** The board of [solitaire_tkinter (1).py] *)

(** [class SolitaireGUI], the canvas and the widgets apart: the game, the
    selection and the click regions, and the handlers of the clicks and of
    the two buttons.  A handler gives [None] when an exception escapes from
    it. *)
Module GUI.

(** The keys of [pile_coords]: ["stock"], ["waste"], [f"foundation_{i}"] and
    [f"tableau_{pile_idx}"]. *)
Inductive PileName : Type :=
  | Stock
  | Waste
  | Foundation (i : nat)
  | Tableau (pile_idx : nat).

Global Instance PileName_eq_dec : EqDecision PileName.
Proof. solve_decision. Defined.

Definition CARD_WIDTH : Z := 80.
Definition CARD_HEIGHT : Z := 120.
Definition CARD_GAP : Z := 30.

(** A value of [pile_coords]: the tuple [(x1, y1, x2, y2)]. *)
Definition Rect : Type := Z * Z * Z * Z.

(** [selected_card] is a card object of the game, kept here as the suit and
    the rank that tell the 52 objects of a game apart: the board only asks
    whether the object is in a column and where ([in], [index]), and [Card]
    defines no [__eq__].  [selected_source] is [None], ['waste'] or the
    number of a column.  [pile_coords] is the dict in insertion order. *)
Record SolitaireGUI : Type := mkGUI {
  game : SolitaireGame;
  selected_card : option (Suit * Rank);
  selected_source : option PileRef;
  pile_coords : list (PileName * Rect)
}.

(** [(x, y, x + self.CARD_WIDTH, y + self.CARD_HEIGHT)] *)
Definition card_rect (x y : Z) : Rect := (x, y, x + CARD_WIDTH, y + CARD_HEIGHT).

(** [for i in range(4)] of [draw_game], with [n] rounds still to run: [x]
    goes up by [CARD_WIDTH + 10] a round. *)
Fixpoint foundation_coords (g : SolitaireGame) (i n : nat) (x y : Z)
  : option (list (PileName * Rect)) :=
  match n with
  | O => Some []
  | S n' =>
      _ ← foundations g !! i;
      rest ← foundation_coords g (S i) n' (x + (CARD_WIDTH + 10)) y;
      Some ((Foundation i, card_rect x y) :: rest)
  end.

(** [for pile_idx in range(7)] of [draw_game]: the region of a column that
    is not empty reaches [len(pile) * CARD_GAP + CARD_HEIGHT] down. *)
Fixpoint tableau_coords (g : SolitaireGame) (pile_idx n : nat) (x y : Z)
  : option (list (PileName * Rect)) :=
  match n with
  | O => Some []
  | S n' =>
      pile ← tableau g !! pile_idx;
      rest ← tableau_coords g (S pile_idx) n' (x + (CARD_WIDTH + 10)) y;
      Some ((Tableau pile_idx,
             match pile with
             | [] => card_rect x y
             | _ => (x, y, x + CARD_WIDTH,
                     y + Z.of_nat (length pile) * CARD_GAP + CARD_HEIGHT)
             end) :: rest)
  end.

(** The dict [draw_game] fills. *)
Definition layout (g : SolitaireGame) : option (list (PileName * Rect)) :=
  fs ← foundation_coords g 0 4 400 20;
  ts ← tableau_coords g 0 7 20 160;
  Some ([(Stock, card_rect 20 20); (Waste, card_rect (20 + (CARD_WIDTH + 20)) 20)]
        ++ fs ++ ts).

(** [SolitaireGUI.draw_game], the drawing apart. *)
Definition draw_game (self : SolitaireGUI) : option SolitaireGUI :=
  coords ← layout (game self);
  Some (mkGUI (game self) (selected_card self) (selected_source self) coords).

(** [x1 <= x <= x2 and y1 <= y <= y2] *)
Definition inside (x y : Z) (r : Rect) : bool :=
  let '(x1, y1, x2, y2) := r in
  bool_decide (x1 ≤ x ≤ x2) && bool_decide (y1 ≤ y ≤ y2).

(** The loop of [on_canvas_click] over [pile_coords.items()]: the first pile
    the point lies in. *)
Fixpoint find_pile (coords : list (PileName * Rect)) (x y : Z) : option PileName :=
  match coords with
  | [] => None
  | (pile_name, r) :: rest =>
      if inside x y r then Some pile_name else find_pile rest x y
  end.

(** [if self.selected_source:]: [None] and the column 0 count as false. *)
Definition truthy (source : option PileRef) : bool :=
  match source with
  | None => false
  | Some FromWaste => true
  | Some (FromTableau i) => bool_decide (i ≠ 0)
  end.

(** [SolitaireGUI.draw_card] *)
Definition draw_card (self : SolitaireGUI) : SolitaireGUI :=
  mkGUI (draw_from_stock (game self)) (selected_card self) (selected_source self)
    (pile_coords self).

(** [SolitaireGUI.select_card]; the test ['waste' in range(7)] of the
    second branch is false. *)
Definition select_card (self : SolitaireGUI) (source : PileRef) (card_idx : Z)
  : option SolitaireGUI :=
  match source with
  | FromWaste =>
      match last (waste (game self)) with
      | Some card =>
          Some (mkGUI (game self) (Some (card_id card)) (Some FromWaste)
                  (pile_coords self))
      | None => Some self
      end
  | FromTableau i =>
      if in_range7 i then
        pile ← tableau (game self) !! Z.to_nat i;
        if bool_decide (card_idx < Z.of_nat (length pile)) then
          card ← py_get pile card_idx;
          Some (if face_up card then
                  mkGUI (game self) (Some (card_id card)) (Some source)
                    (pile_coords self)
                else self)
        else Some self
      else Some self
  end.

(** [src_pile.index(self.selected_card) if self.selected_card in src_pile
    else -1] *)
Definition index_of (card : option (Suit * Rank)) (src_pile : list Card) : Z :=
  match card with
  | Some id =>
      match list_find (λ c, card_id c = id) src_pile with
      | Some (k, _) => Z.of_nat k
      | None => -1
      end
  | None => -1
  end.

(** What the board does with the result of a move: a move that was made
    clears the selection. *)
Definition after_move (self : SolitaireGUI) (r : outcome * SolitaireGame)
  : option SolitaireGUI :=
  match r with
  | (Ret true, g) => Some (mkGUI g None None (pile_coords self))
  | (Ret false, g) =>
      Some (mkGUI g (selected_card self) (selected_source self) (pile_coords self))
  | (IndexError, _) => None
  end.

(** [SolitaireGUI.select_tableau_card].  The call for the waste passes
    [None] as [card_idx], which [move_to_tableau] does not read then. *)
Definition select_tableau_card (self : SolitaireGUI) (tableau_idx : Z)
  : option SolitaireGUI :=
  pile ← py_get (tableau (game self)) tableau_idx;
  match last pile with
  | None => Some self
  | Some top =>
      if negb (face_up top) then
        g ← flip_exposed (game self) tableau_idx;
        Some (mkGUI g (selected_card self) (selected_source self) (pile_coords self))
      else
        match selected_source self with
        | Some FromWaste =>
            after_move self (move_to_tableau (game self) FromWaste tableau_idx 0)
        | Some (FromTableau source) =>
            src_pile ← py_get (tableau (game self)) source;
            let card_idx := index_of (selected_card self) src_pile in
            if bool_decide (0 ≤ card_idx) then
              after_move self
                (move_to_tableau (game self) (FromTableau source) tableau_idx card_idx)
            else Some self
        | None =>
            Some (mkGUI (game self) (Some (card_id top))
                    (Some (FromTableau tableau_idx)) (pile_coords self))
        end
  end.

(** [SolitaireGUI.move_to_foundation], the message box of a won game apart. *)
Definition move_to_foundation (self : SolitaireGUI) (foundation_idx : Z)
  : option SolitaireGUI :=
  if negb (truthy (selected_source self)) then Some self
  else
    match selected_source self with
    | Some source =>
        after_move self (move_to_foundation (game self) source foundation_idx)
    | None => Some self
    end.

(** [SolitaireGUI.on_canvas_click] for a click at [(x, y)]. *)
Definition on_canvas_click (self : SolitaireGUI) (x y : Z) : option SolitaireGUI :=
  match find_pile (pile_coords self) x y with
  | None => Some self
  | Some Stock => draw_game (draw_card self)
  | Some Waste => s ← select_card self FromWaste 0; draw_game s
  | Some (Foundation i) =>
      s ← (if truthy (selected_source self)
           then move_to_foundation self (Z.of_nat i) else Some self);
      s ← draw_game s;
      draw_game s
  | Some (Tableau pile_idx) =>
      s ← select_tableau_card self (Z.of_nat pile_idx); draw_game s
  end.

(** [SolitaireGUI.new_game]; [deck] is the deck as [random.shuffle] left
    it. *)
Definition new_game (self : SolitaireGUI) (deck : list Card) : option SolitaireGUI :=
  g ← initialize_deck deck;
  draw_game (mkGUI g None None (pile_coords self)).

(** [SolitaireGUI.__init__] *)
Definition init (deck : list Card) : option SolitaireGUI :=
  g ← initialize_deck deck;
  draw_game (mkGUI g None None []).

(** What the player does: a click on the canvas, the button that draws, the
    button that starts a new game. *)
Inductive Event : Type :=
  | Click (x y : Z)
  | DrawButton
  | NewGameButton (deck : list Card).

Definition handle (e : Event) (self : SolitaireGUI) : option SolitaireGUI :=
  match e with
  | Click x y => on_canvas_click self x y
  | DrawButton => Some (draw_card self)
  | NewGameButton deck => new_game self deck
  end.

(** A deck an event may carry: some shuffle of the 52 cards. *)
Definition shuffled (e : Event) : Prop :=
  match e with
  | NewGameButton deck => deck ≡ₚ fresh_deck
  | _ => True
  end.

(** Events one after the other. *)
Fixpoint run (es : list Event) (self : SolitaireGUI) : option SolitaireGUI :=
  match es with
  | [] => Some self
  | e :: es' => s ← handle e self; run es' s
  end.

(** The states of the board: the window opens on a deal, then any events. *)
Inductive reachable : SolitaireGUI → Prop :=
  | reachable_init deck s :
      deck ≡ₚ fresh_deck → init deck = Some s → reachable s
  | reachable_event e s s' :
      reachable s → shuffled e → handle e s = Some s' → reachable s'.

End GUI.

(** *** What holds of the board *)

(** The selection: nothing, the waste, or the top card of a column. *)
Definition selection_inv (s : GUI.SolitaireGUI) : Prop :=
  match GUI.selected_source s with
  | None => GUI.selected_card s = None
  | Some FromWaste => is_Some (GUI.selected_card s)
  | Some (FromTableau i) =>
      0 ≤ i < 7
      ∧ ∃ pile top,
          tableau (GUI.game s) !! Z.to_nat i = Some (pile ++ [top])
          ∧ GUI.selected_card s = Some (card_id top)
  end.

Record gui_inv (s : GUI.SolitaireGUI) : Prop := mkGuiInv {
  gui_game : reachable (GUI.game s);
  gui_coords : GUI.layout (GUI.game s) = Some (GUI.pile_coords s);
  gui_selection : selection_inv s
}.

(** The calls the board makes to the engine in the state [g]. *)
Definition board_call (g : SolitaireGame) (o : Op) : Prop :=
  match o with
  | DrawFromStock => True
  | MoveToFoundation FromWaste k => 0 ≤ k < 4
  | MoveToFoundation (FromTableau i) k => 1 ≤ i < 7 ∧ 0 ≤ k < 4
  | MoveToTableau from_pile j card_idx =>
      0 ≤ j < 7
      ∧ (∃ target, tableau g !! Z.to_nat j = Some target ∧ target ≠ [])
      ∧ match from_pile with
        | FromWaste => True
        | FromTableau i =>
            0 ≤ i < 7
            ∧ ∃ pile, tableau g !! Z.to_nat i = Some pile
                      ∧ card_idx = Z.of_nat (length pile) - 1
        end
  | FlipExposed _ => False
  end.

(** *** Boards used as examples *)

(** The board as the window opens on the unshuffled deal, and the same
    board after a click on the stock and after a click on column 0. *)
Definition opening_board : GUI.SolitaireGUI :=
  Eval vm_compute in
    default (GUI.mkGUI unshuffled_deal None None []) (GUI.init fresh_deck).

Definition stock_clicked : GUI.SolitaireGUI :=
  Eval vm_compute in default opening_board (GUI.on_canvas_click opening_board 30 30).

Definition column0_selected : GUI.SolitaireGUI :=
  Eval vm_compute in default opening_board (GUI.on_canvas_click opening_board 30 170).

(** A shuffle that deals K♣ to column 0 and A♠ on A♥ to column 1. *)
Definition aces_deck : list Card :=
  filter (λ c, card_id c ∉ [(SPADE, RA); (HEART, RA); (CLUB, RK)]) fresh_deck
  ++ [new_card SPADE RA; new_card HEART RA; new_card CLUB RK].

(** The clicks that take the two aces of column 1 to the first two
    foundations: the column, the foundation, twice. *)
Definition aces_clicks : list GUI.Event :=
  [GUI.Click 120 170; GUI.Click 410 30; GUI.Click 120 170; GUI.Click 500 30].

Definition aces_board : GUI.SolitaireGUI :=
  Eval vm_compute in default opening_board (GUI.init aces_deck).

Definition column1_empty : GUI.SolitaireGUI :=
  Eval vm_compute in default aces_board (GUI.run aces_clicks aces_board).

(** *** States of [text.py] used as examples *)

(** The window as it opens, had the shuffle left the deck as [create_deck]
    builds it: the tableau piles end in K♠, J♠, 8♠, 4♠, Q♣, 6♣ and Q♦. *)
Definition text_opening : Text.SolitaireGame :=
  Eval vm_compute in Text.init Text.unshuffled_deck.

(** The same after a click on the deck and a click on the card it put on
    the waste. *)
Definition text_waste_selected : Text.SolitaireGame :=
  Eval vm_compute in
    default text_opening
      (let s := Text.draw_from_deck (λ l, l) text_opening in
       card ← last (Text.waste_pile s); Text.on_card_click s card Text.WasteTag).

(** The window after J♠, the top card of pile 1, was dragged onto Q♦, the
    top card of pile 6: pile 6 now ends in K♦ Q♦ J♠, and pile 0 is K♠. *)
Definition text_jack_moved : Text.SolitaireGame :=
  Eval vm_compute in
    default text_opening
      (s ← Text.on_card_click text_opening (Text.mkCard Text.SPADES Text.JACK)
             (Text.TableauTag 1 1);
       Text.on_canvas_release Text.unshuffled_deck s 640 300).

(** ** Python lists: facts *)

Section python_list_facts.
Context {A : Type}.
Implicit Types (l : list A) (x : A) (i : Z) (k n : nat).

Lemma py_pop_snoc l x : py_pop (l ++ [x]) = l.
Proof.
  unfold py_pop. rewrite length_app, Nat.add_1_r. simpl.
  by rewrite take_app_length.
Qed.

Lemma py_pop_nil : py_pop (@nil A) = [].
Proof. reflexivity. Qed.

Lemma last_py_pop l x : last l = Some x → l = py_pop l ++ [x].
Proof. intros [l' ->]%last_Some. by rewrite py_pop_snoc. Qed.

Lemma py_pos_lt n i k : py_pos n i = Some k → (k < n)%nat.
Proof. unfold py_pos. repeat case_decide; intros; simplify_eq; lia. Qed.

Lemma py_pos_Some n i k :
  py_pos n i = Some k ↔
  (0 ≤ i < Z.of_nat n ∧ k = Z.to_nat i)
  ∨ (- Z.of_nat n ≤ i < 0 ∧ k = Z.to_nat (Z.of_nat n + i)).
Proof.
  unfold py_pos. repeat case_decide; split;
    try (intros [= <-]; by auto); try done;
    intros [[? ->] | [? ->]]; (done || lia).
Qed.

Lemma py_pos_None n i :
  py_pos n i = None ↔ i < - Z.of_nat n ∨ Z.of_nat n ≤ i.
Proof.
  unfold py_pos. repeat case_decide; split; try done; try lia.
  all: intros; exfalso; lia.
Qed.

Lemma py_pos_nonneg n i : 0 ≤ i < Z.of_nat n → py_pos n i = Some (Z.to_nat i).
Proof. intros. unfold py_pos. by rewrite decide_True. Qed.

Lemma py_get_Some l i x :
  py_get l i = Some x ↔ ∃ k, py_pos (length l) i = Some k ∧ l !! k = Some x.
Proof.
  unfold py_get. destruct (py_pos (length l) i) as [k|]; simpl.
  - split; [eauto | by intros (? & [= <-] & ?)].
  - split; [done | by intros (? & ? & ?)].
Qed.

Lemma py_get_None l i :
  py_get l i = None ↔ py_pos (length l) i = None.
Proof.
  unfold py_get. destruct (py_pos (length l) i) as [k|] eqn:Hk; simpl; [|done].
  apply py_pos_lt in Hk. apply lookup_lt_is_Some in Hk as [x ->]. done.
Qed.

Lemma py_get_nonneg l i : 0 ≤ i → py_get l i = l !! Z.to_nat i.
Proof.
  intros Hi. unfold py_get, py_pos.
  case_decide; simpl; [done|]. case_decide; [lia|]. simpl.
  symmetry. apply lookup_ge_None. lia.
Qed.

Lemma py_get_lt l i x : py_get l i = Some x → i < Z.of_nat (length l).
Proof.
  intros (k & Hk & _)%py_get_Some. apply py_pos_Some in Hk. lia.
Qed.

(** At an index that reads a card, the slice starts where the index
    points. *)
Lemma py_start_pos n i k : py_pos n i = Some k → py_start n i = k.
Proof.
  intros [[? ->] | [? ->]]%py_pos_Some; unfold py_start; case_decide;
    try lia; f_equal; lia.
Qed.

Lemma py_start_le n i : (py_start n i ≤ n)%nat.
Proof. unfold py_start. case_decide; lia. Qed.

Lemma py_del_slice l i : py_del_from l i ++ py_slice_from l i = l.
Proof. apply take_drop. Qed.

Lemma py_slice_head l i x :
  py_get l i = Some x → head (py_slice_from l i) = Some x.
Proof.
  intros (k & Hk & Hx)%py_get_Some. unfold py_slice_from.
  rewrite (py_start_pos _ _ _ Hk).
  by rewrite (drop_S _ _ _ Hx).
Qed.

Lemma py_set_length l i x : length (py_set l i x) = length l.
Proof. unfold py_set. destruct (py_pos _ _); [apply length_insert | done]. Qed.

End python_list_facts.

(** ** Cards and piles: facts *)

Lemma card_id_set_face b c : card_id (set_face b c) = card_id c.
Proof. reflexivity. Qed.

Lemma set_face_id c : set_face (face_up c) c = c.
Proof. by destruct c. Qed.

Lemma set_face_true c : face_up c = true → set_face true c = c.
Proof. intros <-. apply set_face_id. Qed.

Lemma card_ids_set_face b (l : list Card) :
  card_id <$> (set_face b <$> l) = card_id <$> l.
Proof. rewrite <- list_fmap_compose. by apply list_fmap_ext. Qed.

Lemma set_face_all_up (l : list Card) :
  Forall (λ c, face_up c = true) l → set_face true <$> l = l.
Proof.
  induction 1 as [|c l Hc _ IH]; [done|].
  rewrite fmap_cons, IH. by rewrite set_face_true.
Qed.

(** [reveal_top] rewrites the top card, and only its face flag. *)
Lemma reveal_top_nil : reveal_top [] = [].
Proof. reflexivity. Qed.

Lemma reveal_top_snoc pile c : reveal_top (pile ++ [c]) = pile ++ [set_face true c].
Proof.
  unfold reveal_top. rewrite last_snoc.
  destruct (face_up c) eqn:Hc.
  - by rewrite set_face_true.
  - by rewrite py_pop_snoc.
Qed.

Lemma reveal_top_ids pile : card_id <$> reveal_top pile = card_id <$> pile.
Proof.
  destruct pile as [|c pile _] using rev_ind; [done|].
  rewrite reveal_top_snoc. by rewrite !fmap_app.
Qed.

Lemma reveal_top_length pile : length (reveal_top pile) = length pile.
Proof.
  destruct pile as [|c pile _] using rev_ind; [done|].
  rewrite reveal_top_snoc. by rewrite !length_app.
Qed.

Lemma reveal_top_last pile : last (reveal_top pile) = set_face true <$> last pile.
Proof.
  destruct pile as [|c pile _] using rev_ind; [done|].
  rewrite reveal_top_snoc. by rewrite !last_snoc.
Qed.

Lemma reveal_top_up pile :
  Forall (λ c, face_up c = true) pile → reveal_top pile = pile.
Proof.
  destruct pile as [|c pile _] using rev_ind; [done|].
  intros [_ Hc]%Forall_app. rewrite Forall_singleton in Hc.
  rewrite reveal_top_snoc. by rewrite set_face_true by exact Hc.
Qed.

(** ** Drawing and recycling: facts *)

(** The recycle loop stops because the waste is empty, not because the
    rounds ran out: it leaves no waste, and the stock gains the waste cards
    from the top of the waste down, each face down. *)
Lemma recycle_waste_spec (w st : list Card) :
  recycle_waste (length w) w st = ([], st ++ (set_face false <$> reverse w)).
Proof.
  revert st. induction w as [|c w IH] using rev_ind; intros st.
  - simpl. by rewrite app_nil_r.
  - rewrite length_app, Nat.add_1_r. simpl.
    rewrite last_snoc, py_pop_snoc, IH.
    rewrite reverse_snoc, fmap_cons. by rewrite <- app_assoc.
Qed.

Lemma draw_from_stock_empty s :
  stock s = [] →
  draw_from_stock s =
    mkGame (set_face false <$> reverse (waste s)) [] (foundations s) (tableau s) (moves s).
Proof.
  intros Hs. unfold draw_from_stock. rewrite Hs. simpl.
  by rewrite recycle_waste_spec.
Qed.

Lemma draw_from_stock_top s st c :
  stock s = st ++ [c] →
  draw_from_stock s =
    mkGame st (waste s ++ [set_face true c]) (foundations s) (tableau s) (moves s + 1).
Proof.
  intros Hs. unfold draw_from_stock. rewrite Hs, last_snoc.
  by rewrite py_pop_snoc.
Qed.

Lemma draw_times_S n s : draw_times (S n) s = draw_times n (draw_from_stock s).
Proof. unfold draw_times. apply Nat.iter_succ_r. Qed.

(** Drawing as many cards as lie on a stock [st ++ reverse l] turns over the
    cards of [l], first to last, onto the waste. *)
Lemma draw_times_stock (l st : list Card) s :
  stock s = st ++ reverse l →
  draw_times (length l) s =
    mkGame st (waste s ++ (set_face true <$> l)) (foundations s) (tableau s)
      (moves s + Z.of_nat (length l)).
Proof.
  revert s. induction l as [|c l IH]; intros s Hs.
  - destruct s as [st' w f t m]. simpl in Hs. rewrite app_nil_r in Hs. subst st'.
    unfold draw_times. simpl. by rewrite app_nil_r, Z.add_0_r.
  - rewrite reverse_cons, app_assoc in Hs.
    cbn [length]. rewrite draw_times_S, (draw_from_stock_top _ _ _ Hs).
    rewrite IH by done. simpl. rewrite <- app_assoc. f_equal. lia.
Qed.

(** ** Piles of piles: facts *)

Section piles.
Context {A : Type}.
Implicit Types (ls : list (list A)) (l : list A) (k : nat).

(** Replacing pile [k] changes the cards of that pile and no others. *)
Lemma mjoin_lookup ls k l :
  ls !! k = Some l →
  mjoin ls = mjoin (take k ls) ++ l ++ mjoin (drop (S k) ls).
Proof.
  intros H. rewrite <- (take_drop_middle _ _ _ H) at 1.
  by rewrite join_app.
Qed.

Lemma mjoin_insert ls k l :
  (k < length ls)%nat →
  mjoin (<[k:=l]> ls) = mjoin (take k ls) ++ l ++ mjoin (drop (S k) ls).
Proof.
  intros H. rewrite insert_take_drop by done. by rewrite join_app.
Qed.

Lemma mjoin_insert_perm ls k l l' :
  ls !! k = Some l →
  mjoin (<[k:=l']> ls) ++ l ≡ₚ mjoin ls ++ l'.
Proof.
  intros H. rewrite (mjoin_lookup _ _ _ H).
  rewrite mjoin_insert by (by eapply lookup_lt_Some).
  solve_Permutation.
Qed.

Lemma py_get_set_Some ls (i : Z) l :
  py_get ls i = Some l →
  ∃ k, py_pos (length ls) i = Some k ∧ ls !! k = Some l
     ∧ ∀ l', py_set ls i l' = <[k:=l']> ls.
Proof.
  intros (k & Hk & Hl)%py_get_Some. exists k. repeat split; [done..|].
  intros l'. unfold py_set. by rewrite Hk.
Qed.
End piles.

(** ** Moves: what a call that returns does *)

Lemma move_to_tableau_unchanged s from_pile to_pile_idx card_idx :
  (move_to_tableau s from_pile to_pile_idx card_idx).1 ≠ Ret true →
  (move_to_tableau s from_pile to_pile_idx card_idx).2 = s.
Proof.
  unfold move_to_tableau. repeat case_match; simpl; done.
Qed.

Lemma move_from_waste_true s to_pile_idx card_idx s' :
  move_to_tableau s FromWaste to_pile_idx card_idx = (Ret true, s') →
  ∃ w card k target,
    waste s = w ++ [card]
    ∧ py_pos (length (tableau s)) to_pile_idx = Some k
    ∧ tableau s !! k = Some target
    ∧ can_place_on_tableau card target = true
    ∧ s' = mkGame (stock s) (reveal_top w) (foundations s)
             (<[k := target ++ [card]]> (tableau s)) (moves s + 1).
Proof.
  unfold move_to_tableau.
  destruct (last (waste s)) as [card|] eqn:Hw; [|done].
  destruct (py_get (tableau s) to_pile_idx) as [target|] eqn:Ht; [|done].
  destruct (can_place_on_tableau card target) eqn:Hp; [|done].
  intros [= <-].
  apply last_Some in Hw as [w Hw].
  apply py_get_set_Some in Ht as (k & Hk & Hl & Hset).
  exists w, card, k, target. repeat split; try done.
  by rewrite Hw, py_pop_snoc, Hset.
Qed.

Lemma move_from_tableau_true s from to_pile_idx card_idx s' :
  move_to_tableau s (FromTableau from) to_pile_idx card_idx = (Ret true, s') →
  ∃ src target kt k c,
    0 ≤ from < 7
    ∧ tableau s !! Z.to_nat from = Some src
    ∧ py_pos (length (tableau s)) to_pile_idx = Some kt
    ∧ tableau s !! kt = Some target
    ∧ py_pos (length src) card_idx = Some k
    ∧ src !! k = Some c
    ∧ face_up c = true
    ∧ can_place_on_tableau c target = true
    ∧ s' = mkGame (stock s) (waste s) (foundations s)
             (<[Z.to_nat from :=
                  reveal_top
                    (py_del_from
                       (if decide (Z.to_nat from = kt) then target ++ drop k src else src)
                       card_idx)]>
                (<[kt := target ++ drop k src]> (tableau s)))
             (moves s + 1).
Proof.
  unfold move_to_tableau, in_range7.
  case_bool_decide as Hr; [|done].
  destruct (tableau s !! Z.to_nat from) as [src|] eqn:Hsrc; [|done].
  case_bool_decide as Hlt; [|done].
  destruct (py_get src card_idx) as [c|] eqn:Hc; [|done].
  destruct (face_up c) eqn:Hup; [|done].
  rewrite (py_slice_head _ _ _ Hc).
  destruct (py_get (tableau s) to_pile_idx) as [target|] eqn:Ht; [|done].
  destruct (can_place_on_tableau c target) eqn:Hp; [|done].
  intros [= <-].
  apply py_get_set_Some in Ht as (kt & Hkt & Hl & Hset).
  apply py_get_Some in Hc as (k & Hk & Hck).
  exists src, target, kt, k, c. repeat split; try done; try lia.
  rewrite Hset. unfold py_slice_from. rewrite (py_start_pos _ _ _ Hk).
  do 2 f_equal. f_equal. f_equal.
  case_decide as Heq.
  - rewrite <- Heq. rewrite list_lookup_insert_eq by (by eapply lookup_lt_Some). done.
  - rewrite list_lookup_insert_ne by done. by rewrite Hsrc.
Qed.

Lemma move_from_tableau_outcome s from to_pile_idx card_idx :
  (move_to_tableau s (FromTableau from) to_pile_idx card_idx).1 = Ret true ↔
  ∃ src target c,
    0 ≤ from < 7
    ∧ tableau s !! Z.to_nat from = Some src
    ∧ py_get (tableau s) to_pile_idx = Some target
    ∧ py_get src card_idx = Some c
    ∧ face_up c = true
    ∧ can_place_on_tableau c target = true.
Proof.
  split.
  - destruct (move_to_tableau _ _ _ _) as [o s'] eqn:Hm. simpl. intros ->.
    apply move_from_tableau_true in Hm
      as (src & target & kt & k & c & ? & ? & ? & ? & ? & ? & ? & ? & _).
    exists src, target, c. repeat split; try done; try lia.
    all: apply py_get_Some; eauto.
  - intros (src & target & c & Hr & Hsrc & Ht & Hc & Hup & Hp).
    unfold move_to_tableau, in_range7.
    rewrite bool_decide_eq_true_2 by done. rewrite Hsrc.
    rewrite bool_decide_eq_true_2 by (by eapply py_get_lt).
    rewrite Hc, Hup, (py_slice_head _ _ _ Hc), Ht, Hp. done.
Qed.

Lemma move_from_waste_outcome s to_pile_idx card_idx :
  (move_to_tableau s FromWaste to_pile_idx card_idx).1 = Ret true ↔
  ∃ card target,
    last (waste s) = Some card
    ∧ py_get (tableau s) to_pile_idx = Some target
    ∧ can_place_on_tableau card target = true.
Proof.
  unfold move_to_tableau. split.
  - repeat case_match; simpl; try done. eauto.
  - intros (card & target & -> & -> & ->). done.
Qed.

Lemma take_for_foundation_Some s from_pile foundation_idx card s1 :
  take_for_foundation s from_pile foundation_idx = Some (Some (card, s1)) →
  ∃ f,
    py_get (foundations s) foundation_idx = Some f
    ∧ foundation_accepts card f = true
    ∧ ((from_pile = FromWaste
        ∧ ∃ w, waste s = w ++ [card]
               ∧ s1 = mkGame (stock s) w (foundations s) (tableau s) (moves s))
       ∨ (∃ i pile,
            from_pile = FromTableau i
            ∧ 0 ≤ i < 7
            ∧ tableau s !! Z.to_nat i = Some (pile ++ [card])
            ∧ face_up card = true
            ∧ s1 = mkGame (stock s) (waste s) (foundations s)
                     (<[Z.to_nat i := pile]> (tableau s)) (moves s))).
Proof.
  unfold take_for_foundation, can_move_to_foundation, in_range7.
  destruct from_pile as [|i].
  - destruct (last (waste s)) as [top|] eqn:Hw; [|done].
    destruct (py_get (foundations s) foundation_idx) as [f|]; [|done]. simpl.
    destruct (foundation_accepts top f) eqn:Hacc; [|done].
    intros [= <- <-]. apply last_Some in Hw as [w Hw].
    exists f. repeat split; try done. left. split; [done|].
    exists w. by rewrite Hw, py_pop_snoc.
  - case_bool_decide as Hr; [|done].
    destruct (tableau s !! Z.to_nat i) as [pile|] eqn:Hpile; [|done]. simpl.
    destruct (last pile) as [top|] eqn:Hl; [|done].
    destruct (face_up top) eqn:Hup; [|done].
    destruct (py_get (foundations s) foundation_idx) as [f|]; [|done]. simpl.
    destruct (foundation_accepts top f) eqn:Hacc; [|done].
    intros [= <- <-]. apply last_Some in Hl as [pile' ->].
    exists f. repeat split; try done. right.
    exists i, pile'. by rewrite py_pop_snoc.
Qed.

Lemma move_to_foundation_unchanged s from_pile foundation_idx :
  (move_to_foundation s from_pile foundation_idx).1 ≠ Ret true →
  (move_to_foundation s from_pile foundation_idx).2 = s.
Proof.
  unfold move_to_foundation.
  destruct (take_for_foundation s from_pile foundation_idx) as [[[card s1]|]|] eqn:Ht;
    [|done..].
  apply take_for_foundation_Some in Ht as (f & Hf & _ & Hs1).
  assert (foundations s1 = foundations s) as ->
    by (destruct Hs1 as [(_ & ? & _ & ->) | (? & ? & _ & _ & _ & _ & ->)]; done).
  by rewrite Hf.
Qed.

(** A successful [move_to_foundation], from the waste and from a column. *)
Lemma move_to_foundation_true s from_pile foundation_idx s' :
  move_to_foundation s from_pile foundation_idx = (Ret true, s') →
  ∃ f k card,
    py_pos (length (foundations s)) foundation_idx = Some k
    ∧ foundations s !! k = Some f
    ∧ foundation_accepts card f = true
    ∧ ((from_pile = FromWaste
        ∧ ∃ w, waste s = w ++ [card]
               ∧ s' = mkGame (stock s) w (<[k := f ++ [card]]> (foundations s))
                        (tableau s) (moves s + 1))
       ∨ (∃ i pile,
            from_pile = FromTableau i
            ∧ 0 ≤ i < 7
            ∧ tableau s !! Z.to_nat i = Some (pile ++ [card])
            ∧ face_up card = true
            ∧ s' = mkGame (stock s) (waste s) (<[k := f ++ [card]]> (foundations s))
                     (<[Z.to_nat i := reveal_top pile]> (tableau s)) (moves s + 1))).
Proof.
  unfold move_to_foundation.
  destruct (take_for_foundation s from_pile foundation_idx) as [[[card s1]|]|] eqn:Ht;
    [|done..].
  apply take_for_foundation_Some in Ht as (f & Hf & Hacc & Hs1).
  apply py_get_set_Some in Hf as Hk. destruct Hk as (k & Hk & Hfk & Hset).
  destruct Hs1 as [(-> & w & Hw & ->) | (i & pile & -> & Hr & Hpile & Hup & ->)]; simpl.
  - rewrite Hf. intros [= <-]. exists f, k, card. repeat split; try done.
    left. split; [done|]. exists w. by rewrite Hset.
  - rewrite Hf. intros [= <-]. exists f, k, card. repeat split; try done.
    right. exists i, pile. repeat split; try done; try lia.
    unfold in_range7. rewrite bool_decide_eq_true_2 by done.
    rewrite list_lookup_insert_eq by (by eapply lookup_lt_Some).
    by rewrite Hset, list_insert_insert_eq.
Qed.

(** To show that a property of the state survives a move, show that it
    survives the moves that return [True]: all others leave the state as it
    was. *)
Lemma move_to_tableau_cases (P : SolitaireGame → Prop) s from_pile to_pile_idx card_idx :
  P s →
  (∀ s', move_to_tableau s from_pile to_pile_idx card_idx = (Ret true, s') → P s') →
  P (move_to_tableau s from_pile to_pile_idx card_idx).2.
Proof.
  intros Hs Hmove.
  destruct (decide ((move_to_tableau s from_pile to_pile_idx card_idx).1 = Ret true))
    as [Heq | Hne].
  - apply Hmove. rewrite <- Heq. apply surjective_pairing.
  - by rewrite move_to_tableau_unchanged.
Qed.

Lemma move_to_foundation_cases (P : SolitaireGame → Prop) s from_pile foundation_idx :
  P s →
  (∀ s', move_to_foundation s from_pile foundation_idx = (Ret true, s') → P s') →
  P (move_to_foundation s from_pile foundation_idx).2.
Proof.
  intros Hs Hmove.
  destruct (decide ((move_to_foundation s from_pile foundation_idx).1 = Ret true))
    as [Heq | Hne].
  - apply Hmove. rewrite <- Heq. apply surjective_pairing.
  - by rewrite move_to_foundation_unchanged.
Qed.

(** ** Tableau columns: facts *)

Lemma descending_alternating_cons below run :
  descending_alternating (below :: run) ↔
  (∀ above, head run = Some above → lies_on above below)
  ∧ descending_alternating run.
Proof.
  destruct run as [|above run]; simpl.
  - split; [by split | done].
  - split.
    + intros [? ?]. split; [by intros ? [= <-] | done].
    + intros [H ?]. split; [by apply H | done].
Qed.

Lemma descending_alternating_app run1 run2 :
  descending_alternating (run1 ++ run2) ↔
  descending_alternating run1 ∧ descending_alternating run2
  ∧ ∀ c1 c2, last run1 = Some c1 → head run2 = Some c2 → lies_on c2 c1.
Proof.
  induction run1 as [|below run1 IH].
  - simpl. split; [by intros ? | by intros (_ & ? & _)].
  - rewrite <- app_comm_cons, !descending_alternating_cons, IH.
    destruct run1 as [|above run1].
    + simpl. split.
      * intros (Hh & _ & H2 & _). split_and!; try done.
        intros c1 c2 [= <-] ?. by apply Hh.
      * intros ((_ & _) & H2 & Hl). split_and!; try done.
        intros c2 ?. by apply Hl.
    + rewrite last_cons_cons. simpl. tauto.
Qed.

(** In a descending run no card ranks below the top card. *)
Lemma descending_alternating_top run k c top :
  descending_alternating run → run !! k = Some c → last run = Some top →
  RANK_VALUES (rank top) ≤ RANK_VALUES (rank c).
Proof.
  revert k c. induction run as [|below run IH]; intros k c Hd Hk Hl; [done|].
  apply descending_alternating_cons in Hd as [Hh Hd].
  destruct run as [|above run].
  - destruct k; [|done]. simpl in *. by simplify_eq.
  - rewrite last_cons_cons in Hl.
    assert (RANK_VALUES (rank top) ≤ RANK_VALUES (rank above))
      by (by apply (IH 0%nat above)).
    destruct k as [|k]; simpl in Hk.
    + simplify_eq. destruct (Hh above eq_refl). lia.
    + by apply (IH k).
Qed.

(** A face-up card of a column lies in its face-up run. *)
Lemma tableau_pile_face_up down up k c :
  Forall (λ c, face_up c = false) down →
  (down ++ up) !! k = Some c → face_up c = true →
  (length down ≤ k)%nat ∧ up !! (k - length down)%nat = Some c.
Proof.
  intros Hdown Hk Hc.
  destruct (decide (k < length down)%nat) as [Hlt|Hge].
  - rewrite lookup_app_l in Hk by done.
    rewrite Forall_lookup in Hdown. specialize (Hdown _ _ Hk). simpl in Hdown.
    congruence.
  - rewrite lookup_app_r in Hk by lia. split; [lia | done].
Qed.

(** The test that guards a move can never pass for a face-up card against
    the column the card lies in. *)
Lemma own_pile_rejects pile k c :
  tableau_pile_inv pile → pile !! k = Some c → face_up c = true →
  can_place_on_tableau c pile = false.
Proof.
  intros (down & up & -> & Hdown & Hup & Hd) Hk Hc.
  destruct (tableau_pile_face_up _ _ _ _ Hdown Hk Hc) as [Hle Hk'].
  unfold can_place_on_tableau.
  assert (is_Some (last up)) as [top Htop].
  { apply last_is_Some. intros ->. done. }
  rewrite last_app, Htop.
  pose proof (descending_alternating_top _ _ _ _ Hd Hk' Htop).
  rewrite bool_decide_eq_false_2 by lia. done.
Qed.

Lemma tableau_pile_inv_nil : tableau_pile_inv [].
Proof. exists [], []. by repeat split. Qed.

Lemma tableau_pile_inv_take pile k :
  tableau_pile_inv pile → tableau_pile_inv (take k pile).
Proof.
  intros (down & up & -> & Hdown & Hup & Hd).
  exists (take k down), (take (k - length down) up).
  rewrite take_app. repeat split.
  - by apply Forall_take.
  - by apply Forall_take.
  - rewrite <- (take_drop (k - length down) up) in Hd.
    by apply descending_alternating_app in Hd as (? & _).
Qed.

Lemma tableau_pile_inv_reveal pile :
  tableau_pile_inv pile → tableau_pile_inv (reveal_top pile).
Proof.
  intros (down & up & -> & Hdown & Hup & Hd).
  destruct up as [|c up _] using rev_ind.
  - rewrite app_nil_r.
    destruct down as [|c down _] using rev_ind; [apply tableau_pile_inv_nil|].
    rewrite reveal_top_snoc. apply Forall_app in Hdown as [Hdown _].
    exists down, [set_face true c]. repeat split; try done.
    by apply Forall_singleton.
  - rewrite app_assoc, reveal_top_snoc, <- app_assoc.
    apply Forall_app in Hup as Hc. destruct Hc as [_ Hc].
    rewrite Forall_singleton in Hc. rewrite set_face_true by done.
    by exists down, (up ++ [c]).
Qed.

(** A face-up run put on a column it may lie on. *)
Lemma tableau_pile_inv_app pile run first :
  tableau_pile_inv pile →
  Forall (λ c, face_up c = true) run → descending_alternating run →
  head run = Some first → can_place_on_tableau first pile = true →
  tableau_pile_inv (pile ++ run).
Proof.
  intros (down & up & -> & Hdown & Hup & Hd) Hrun Hdrun Hfirst Hp.
  exists down, (up ++ run). rewrite app_assoc. repeat split; try done.
  - by apply Forall_app.
  - apply descending_alternating_app. split_and!; try done.
    intros c1 c2 Hc1 Hc2. rewrite Hfirst in Hc2. injection Hc2 as <-.
    unfold can_place_on_tableau in Hp. rewrite last_app, Hc1 in Hp.
    apply andb_prop in Hp as [Hr Hcol].
    apply bool_decide_eq_true in Hr. apply negb_true_iff, bool_decide_eq_false in Hcol.
    split; [lia | done].
Qed.

(** The run a move lifts: it starts at a face-up card. *)
Lemma tableau_pile_inv_drop pile k c :
  tableau_pile_inv pile → pile !! k = Some c → face_up c = true →
  Forall (λ c, face_up c = true) (drop k pile)
  ∧ descending_alternating (drop k pile).
Proof.
  intros (down & up & -> & Hdown & Hup & Hd) Hk Hc.
  destruct (tableau_pile_face_up _ _ _ _ Hdown Hk Hc) as [Hle Hk'].
  rewrite drop_app_ge by done. split.
  - by apply Forall_drop.
  - rewrite <- (take_drop (k - length down) up) in Hd.
    by apply descending_alternating_app in Hd as (_ & ? & _).
Qed.

(** ** Foundations: facts *)

Lemma RANKS_lookup k r :
  RANKS !! k = Some r ↔ RANK_VALUES r = Z.of_nat k + 1.
Proof.
  split.
  - do 13 (destruct k as [|k]; [by intros [= <-]|]). done.
  - intros H. assert (k = Z.to_nat (RANK_VALUES r - 1)) as -> by lia.
    by destruct r.
Qed.

Lemma RANK_VALUES_range r : 1 ≤ RANK_VALUES r ≤ 13.
Proof. destruct r; simpl; lia. Qed.

Lemma foundation_pile_inv_nil : foundation_pile_inv [].
Proof. by exists SPADE. Qed.

Lemma foundation_pile_inv_length f : foundation_pile_inv f → (length f ≤ 13)%nat.
Proof.
  intros [s Hs]. apply (f_equal length) in Hs.
  rewrite !length_fmap, length_take in Hs. simpl in Hs. lia.
Qed.

(** A foundation that accepts a card holds the next longer run of the suit
    once the card is on it. *)
Lemma foundation_pile_inv_snoc f c :
  foundation_pile_inv f → foundation_accepts c f = true →
  foundation_pile_inv (f ++ [c]).
Proof.
  intros [s Hs] Hacc. unfold foundation_accepts in Hacc.
  destruct f as [|top f _] using rev_ind.
  - simpl in Hacc. apply bool_decide_eq_true in Hacc.
    exists (suit c). simpl. unfold card_id. by rewrite Hacc.
  - rewrite last_snoc in Hacc. apply andb_prop in Hacc as [Hsuit Hrank].
    apply bool_decide_eq_true in Hsuit, Hrank.
    assert (length (f ++ [top]) ≤ 13)%nat as Hlen
      by (apply foundation_pile_inv_length; by exists s).
    rewrite length_app, Nat.add_1_r in Hs, Hlen.
    assert (is_Some (RANKS !! length f)) as [r Hr]
      by (apply lookup_lt_is_Some; simpl; lia).
    rewrite (take_S_r _ _ _ Hr), !fmap_app in Hs. simpl in Hs.
    apply app_inj_tail in Hs as [Hf Htop]. unfold card_id in Htop.
    injection Htop as Htops Htopr. subst r.
    apply RANKS_lookup in Hr.
    assert (RANKS !! S (length f) = Some (rank c)) as Hc
      by (apply RANKS_lookup; lia).
    exists s. rewrite !length_app, !Nat.add_1_r.
    rewrite (take_S_r _ _ _ Hc), (take_S_r _ _ _ (proj2 (RANKS_lookup _ _) Hr)).
    rewrite !fmap_app, Hf. simpl. unfold card_id.
    by rewrite Hsuit, Htops.
Qed.

(** ** The cards on the table: facts *)

Lemma ids_insert (ls : list (list Card)) k l l' :
  ls !! k = Some l →
  (card_id <$> mjoin (<[k:=l']> ls)) ++ (card_id <$> l)
    ≡ₚ (card_id <$> mjoin ls) ++ (card_id <$> l').
Proof.
  intros H. rewrite <- !fmap_app. apply fmap_Permutation.
  by apply mjoin_insert_perm.
Qed.

(** A pile replaced by a pile of the same cards plus the cards [extra]. *)
Lemma ids_insert_more (ls : list (list Card)) k l l' extra :
  ls !! k = Some l →
  card_id <$> l' ≡ₚ (card_id <$> l) ++ extra →
  card_id <$> mjoin (<[k:=l']> ls) ≡ₚ (card_id <$> mjoin ls) ++ extra.
Proof.
  intros H Hl'. apply (Permutation_app_inv_r (card_id <$> l)).
  rewrite (ids_insert _ _ _ _ H), Hl'. solve_Permutation.
Qed.

(** A pile replaced by a pile that lacks the cards [gone]. *)
Lemma ids_insert_less (ls : list (list Card)) k l l' gone :
  ls !! k = Some l →
  card_id <$> l ≡ₚ (card_id <$> l') ++ gone →
  (card_id <$> mjoin (<[k:=l']> ls)) ++ gone ≡ₚ card_id <$> mjoin ls.
Proof.
  intros H Hl'. apply (Permutation_app_inv_r (card_id <$> l')).
  rewrite <- (app_assoc _ gone), (Permutation_app_comm gone), <- Hl'.
  by rewrite (ids_insert _ _ _ _ H).
Qed.

Lemma all_cards_ids s :
  card_id <$> all_cards s =
    (card_id <$> stock s) ++ (card_id <$> waste s)
    ++ (card_id <$> mjoin (foundations s)) ++ (card_id <$> mjoin (tableau s)).
Proof. unfold all_cards. by rewrite !fmap_app. Qed.

(** ** The invariants are kept *)

(** Under the column invariant a successful run move has two columns: the
    one it lifts the run [drop k src] from and another it puts the run on. *)
Lemma move_from_tableau_true_inv s from to_pile_idx card_idx s' :
  tableau_inv s →
  move_to_tableau s (FromTableau from) to_pile_idx card_idx = (Ret true, s') →
  ∃ src target kt k c,
    0 ≤ from < 7
    ∧ tableau s !! Z.to_nat from = Some src
    ∧ py_pos (length (tableau s)) to_pile_idx = Some kt
    ∧ tableau s !! kt = Some target
    ∧ py_pos (length src) card_idx = Some k
    ∧ src !! k = Some c
    ∧ face_up c = true
    ∧ can_place_on_tableau c target = true
    ∧ Z.to_nat from ≠ kt
    ∧ s' = mkGame (stock s) (waste s) (foundations s)
             (<[Z.to_nat from := reveal_top (take k src)]>
                (<[kt := target ++ drop k src]> (tableau s)))
             (moves s + 1).
Proof.
  intros Hinv Hm.
  apply move_from_tableau_true in Hm
    as (src & target & kt & k & c & Hr & Hsrc & Hkt & Ht & Hk & Hc & Hup & Hp & ->).
  exists src, target, kt, k, c.
  assert (Z.to_nat from ≠ kt) as Hne.
  { intros Heq. subst kt. rewrite Hsrc in Ht. injection Ht as <-.
    unfold tableau_inv in Hinv. rewrite Forall_lookup in Hinv.
    rewrite (own_pile_rejects src k c) in Hp; [done | by eapply Hinv | done..]. }
  split_and!; try done; try lia.
  rewrite decide_False by done.
  unfold py_del_from. by rewrite (py_start_pos _ _ _ Hk).
Qed.

Lemma draw_from_stock_inv s : game_inv s → game_inv (draw_from_stock s).
Proof.
  intros [Hf Ht Hd Hc Hs Hw].
  destruct (stock s) as [|c st _] eqn:Hst using rev_ind.
  - rewrite (draw_from_stock_empty _ Hst). split; simpl; try done.
    unfold full_deck in *. rewrite all_cards_ids in *. simpl.
    rewrite Hst in Hd. simpl in Hd. rewrite <- Hd.
    rewrite card_ids_set_face, fmap_reverse, reverse_Permutation.
    done.
  - rewrite (draw_from_stock_top _ _ _ Hst). split; simpl; try done.
    + unfold full_deck in *. rewrite all_cards_ids in *. simpl.
      rewrite Hst in Hd. rewrite <- Hd, !fmap_app. simpl.
      solve_Permutation.
    + apply Forall_app. split; [done|]. by apply Forall_singleton.
Qed.

Lemma move_to_tableau_inv s from_pile to_pile_idx card_idx :
  game_inv s → game_inv (move_to_tableau s from_pile to_pile_idx card_idx).2.
Proof.
  intros Hinv. apply move_to_tableau_cases; [done|]. intros s' Hm.
  destruct Hinv as [Hf Ht Hd Hc Hs Hw].
  destruct from_pile as [|from].
  - apply move_from_waste_true in Hm as (w & card & k & target & Hwaste & Hk & Htk & Hp & ->).
    rewrite Hwaste in Hw. apply Forall_app in Hw as [Hw Hcard].
    rewrite Forall_singleton in Hcard.
    split; simpl; try done.
    + by rewrite length_insert.
    + unfold full_deck in *. rewrite all_cards_ids in *. simpl.
      rewrite (ids_insert_more _ _ _ _ [card_id card] Htk) by (by rewrite fmap_app).
      rewrite reveal_top_ids. rewrite <- Hd, Hwaste, fmap_app. simpl.
      solve_Permutation.
    + unfold tableau_inv in *. simpl. apply Forall_insert; [done|].
      rewrite Forall_lookup in Hc.
      eapply (tableau_pile_inv_app _ [card] card);
        [by eapply Hc | by apply Forall_singleton | exact I | reflexivity | done].
    + by rewrite reveal_top_up.
  - apply move_from_tableau_true_inv in Hm
      as (src & target & kt & k & c & Hr & Hsrc & Hkt & Htk & Hk & Hck & Hup & Hp & Hne & ->);
      [|done].
    unfold tableau_inv in Hc. rewrite Forall_lookup in Hc.
    destruct (tableau_pile_inv_drop src k c (Hc _ _ Hsrc) Hck Hup) as [Hrun Hdesc].
    split; simpl; try done.
    + by rewrite !length_insert.
    + unfold full_deck in *. rewrite all_cards_ids in *. simpl.
      rewrite <- Hd. do 3 f_equiv.
      apply (Permutation_app_inv_r (card_id <$> drop k src)).
      rewrite (ids_insert_less _ _ src).
      * apply (ids_insert_more _ _ target); [done|]. by rewrite fmap_app.
      * by rewrite list_lookup_insert_ne.
      * rewrite reveal_top_ids, <- fmap_app. by rewrite take_drop.
    + unfold tableau_inv. simpl. apply Forall_insert; [apply Forall_insert|].
      * by apply Forall_lookup.
      * eapply tableau_pile_inv_app; [by eapply Hc | done | done | | done].
        by rewrite (drop_S _ _ _ Hck).
      * apply tableau_pile_inv_reveal, tableau_pile_inv_take. by eapply Hc.
Qed.

Lemma move_to_foundation_inv s from_pile foundation_idx :
  game_inv s → game_inv (move_to_foundation s from_pile foundation_idx).2.
Proof.
  intros Hinv. apply move_to_foundation_cases; [done|]. intros s' Hm.
  destruct Hinv as [Hf Ht Hd Hc Hs Hw].
  apply move_to_foundation_true in Hm as (f & k & card & Hk & Hfk & Hacc & Hfrom).
  assert (Forall foundation_pile_inv (<[k:=f ++ [card]]> (foundations s))) as Hs'.
  { apply Forall_insert; [done|]. rewrite Forall_lookup in Hs.
    apply foundation_pile_inv_snoc; [by eapply Hs | done]. }
  destruct Hfrom as [(-> & w & Hwaste & ->) | (i & pile & -> & Hr & Hpile & Hup & ->)].
  - rewrite Hwaste in Hw. apply Forall_app in Hw as [Hw _].
    split; simpl; try done.
    + by rewrite length_insert.
    + unfold full_deck in *. rewrite all_cards_ids in *. simpl.
      rewrite (ids_insert_more _ _ _ _ [card_id card] Hfk) by (by rewrite fmap_app).
      rewrite <- Hd, Hwaste, fmap_app. simpl. solve_Permutation.
  - split; simpl; try done.
    + by rewrite length_insert.
    + by rewrite length_insert.
    + unfold full_deck in *. rewrite all_cards_ids in *. simpl.
      rewrite (ids_insert_more _ _ _ _ [card_id card] Hfk) by (by rewrite fmap_app).
      rewrite <- Hd. do 2 f_equiv. rewrite <- app_assoc. f_equiv.
      rewrite Permutation_app_comm.
      apply (ids_insert_less _ _ _ _ _ Hpile).
      by rewrite reveal_top_ids, fmap_app.
    + unfold tableau_inv in *. simpl. apply Forall_insert; [done|].
      rewrite Forall_lookup in Hc.
      apply tableau_pile_inv_reveal.
      rewrite <- (take_app_length pile [card]).
      apply tableau_pile_inv_take. by eapply Hc.
Qed.

Lemma flip_exposed_inv s tableau_idx :
  game_inv s → game_inv (default s (flip_exposed s tableau_idx)).
Proof.
  intros Hinv. unfold flip_exposed.
  destruct (py_get (tableau s) tableau_idx) as [pile|] eqn:Hp; [|done]. simpl.
  apply py_get_set_Some in Hp as (k & Hk & Hpk & Hset). rewrite Hset.
  destruct Hinv as [Hf Ht Hd Hc Hs Hw].
  split; simpl; try done.
  - by rewrite length_insert.
  - unfold full_deck in *. rewrite all_cards_ids in *. simpl.
    rewrite <- Hd. do 3 f_equiv.
    rewrite <- (app_nil_r (card_id <$> mjoin (tableau s))).
    apply (ids_insert_more _ _ _ _ [] Hpk).
    by rewrite reveal_top_ids, app_nil_r.
  - unfold tableau_inv in *. simpl. apply Forall_insert; [done|].
    rewrite Forall_lookup in Hc. apply tableau_pile_inv_reveal. by eapply Hc.
Qed.

Lemma run_op_inv o s : game_inv s → game_inv (run_op o s).
Proof.
  destruct o; simpl.
  - apply draw_from_stock_inv.
  - apply move_to_tableau_inv.
  - apply move_to_foundation_inv.
  - apply flip_exposed_inv.
Qed.

(** ** The deal *)

Lemma reveal_top_cons c pile :
  pile ≠ [] → reveal_top (c :: pile) = c :: reveal_top pile.
Proof.
  destruct pile as [|c' pile _] using rev_ind; [done|]. intros _.
  by rewrite app_comm_cons, !reveal_top_snoc.
Qed.

(** A column of [k] cards comes off the end of the deck, top card first, and
    its last card is turned face up. *)
Lemma deal_column_spec k deck pile :
  (k ≤ length deck)%nat →
  deal_column k deck pile =
    Some (take (length deck - k) deck,
          pile ++ reveal_top (reverse (drop (length deck - k) deck))).
Proof.
  revert deck pile. induction k as [|k IH]; intros deck pile Hk.
  - simpl. rewrite Nat.sub_0_r, take_ge, drop_ge by lia.
    by rewrite app_nil_r.
  - destruct deck as [|c deck _] using rev_ind; [simpl in Hk; lia|].
    rewrite length_app, Nat.add_1_r in *.
    cbn [deal_column]. rewrite last_snoc, py_pop_snoc. simpl.
    rewrite IH by lia.
    replace (S (length deck) - S k)%nat with (length deck - k)%nat by lia.
    rewrite take_app_le, drop_app_le by lia.
    rewrite reverse_app, <- app_assoc. simpl.
    do 3 f_equal.
    destruct k as [|k].
    + rewrite Nat.sub_0_r, drop_all. symmetry. apply (reveal_top_snoc [] c).
    + rewrite reveal_top_cons; [done|].
      intros Hnil%(f_equal length).
      rewrite length_reverse, length_drop in Hnil. simpl in Hnil. lia.
Qed.

(** A freshly dealt column satisfies the column invariant. *)
Lemma dealt_column_inv (l : list Card) :
  Forall (λ c, face_up c = false) l → tableau_pile_inv (reveal_top l).
Proof.
  intros Hl. apply tableau_pile_inv_reveal.
  exists l, []. by rewrite app_nil_r.
Qed.

Lemma deal_tableau_spec i deck cols :
  Forall (.= []) cols →
  Forall (λ c, face_up c = false) deck →
  (length cols * (i + length cols) ≤ length deck)%nat →
  ∃ rest tab,
    deal_tableau i deck cols = Some (rest, tab)
    ∧ length tab = length cols
    ∧ Forall tableau_pile_inv tab
    ∧ (card_id <$> rest) ++ (card_id <$> mjoin tab) ≡ₚ card_id <$> deck.
Proof.
  revert i deck. induction cols as [|pile cols IH]; intros i deck Hcols Hdown Hlen.
  - exists deck, []. simpl. by rewrite app_nil_r.
  - apply Forall_cons in Hcols as [-> Hcols]. simpl in Hlen.
    cbn [deal_tableau]. rewrite deal_column_spec by lia. simpl.
    set (n := (length deck - S i)%nat).
    destruct (IH (S i) (take n deck)) as (rest & tab & -> & Htab & Hinv & Hperm).
    + done.
    + by apply Forall_take.
    + rewrite length_take. unfold n. nia.
    + exists rest, (reveal_top (reverse (drop n deck)) :: tab). simpl.
      split_and!; try done.
      * by rewrite Htab.
      * constructor; [|done]. apply dealt_column_inv.
        apply Forall_reverse. by apply Forall_drop.
      * rewrite fmap_app, reveal_top_ids, fmap_reverse, reverse_Permutation.
        rewrite <- (take_drop n deck) at 2. rewrite (fmap_app _ (take n deck)), <- Hperm.
        solve_Permutation.
Qed.

Lemma fresh_deck_ids : card_id <$> fresh_deck = standard_deck.
Proof. reflexivity. Qed.

Lemma fresh_deck_down : Forall (λ c, face_up c = false) fresh_deck.
Proof.
  unfold fresh_deck. apply Forall_bind, Forall_forall. intros s _.
  apply Forall_fmap, Forall_forall. done.
Qed.

(** Every shuffle of the deck can be dealt, and the deal is a state of the
    game with all its invariants. *)
Lemma initialize_deck_spec deck :
  deck ≡ₚ fresh_deck →
  ∃ s, initialize_deck deck = Some s
       ∧ game_inv s
       ∧ waste s = [] ∧ foundations s = [[]; []; []; []] ∧ moves s = 0.
Proof.
  intros Hperm.
  destruct (deal_tableau_spec 0 deck [[]; []; []; []; []; []; []])
    as (rest & tab & Hdeal & Htab & Hinv & Hids).
  - by repeat constructor.
  - rewrite Hperm. apply fresh_deck_down.
  - rewrite Hperm. simpl. lia.
  - unfold initialize_deck. rewrite Hdeal. simpl.
    eexists. split; [done|]. split; [|done].
    split; simpl; try done.
    + unfold full_deck. rewrite all_cards_ids. simpl.
      by rewrite Hids, Hperm, fresh_deck_ids.
    + repeat constructor; apply foundation_pile_inv_nil.
Qed.

(** Every state of a game satisfies the invariants. *)
Lemma reachable_game_inv s : reachable s → game_inv s.
Proof.
  induction 1 as [deck s Hperm Hdeal | o s _ IH].
  - destruct (initialize_deck_spec deck Hperm) as (s' & Hs' & Hinv & _).
    congruence.
  - by apply run_op_inv.
Qed.

(** ** The 52 cards *)

Lemma standard_deck_NoDup : NoDup standard_deck.
Proof. apply (bool_decide_unpack _). by vm_compute. Qed.

Lemma standard_deck_all id : id ∈ standard_deck.
Proof. destruct id as [[] []]; apply (bool_decide_unpack _); by vm_compute. Qed.

Lemma full_deck_facts s :
  full_deck s →
  NoDup (card_id <$> all_cards s)
  ∧ (∀ id, id ∈ card_id <$> all_cards s)
  ∧ length (all_cards s) = 52%nat.
Proof.
  unfold full_deck. intros H. split_and!.
  - rewrite H. apply standard_deck_NoDup.
  - intros id. rewrite H. apply standard_deck_all.
  - apply Permutation_length in H. by rewrite length_fmap in H.
Qed.

Lemma unshuffled_deal_reachable : reachable unshuffled_deal.
Proof. by apply (reachable_deal fresh_deck). Qed.

Lemma reachable_run_ops ops s : reachable s → reachable (run_ops ops s).
Proof.
  revert s. induction ops as [|o ops IH]; intros s Hs; [done|].
  apply IH. by apply reachable_step.
Qed.

Lemma winnable_deal_reachable : reachable winnable_deal.
Proof.
  apply (reachable_deal winnable_deck).
  - apply (bool_decide_unpack _). by vm_compute.
  - by vm_compute.
Qed.

Lemma won_game_reachable : reachable won_game.
Proof. apply reachable_run_ops, winnable_deal_reachable. Qed.

Lemma run_built_reachable : reachable run_built.
Proof.
  change run_built with (run_ops run_play run_deal).
  apply reachable_run_ops, (reachable_deal run_deck).
  - apply (bool_decide_unpack _). by vm_compute.
  - by vm_compute.
Qed.

(** C1.  In every state of a game, and in the state any engine call (draw or
    recycle, a move to a column from the waste or from a column, a move to a
    foundation, a flip) leaves behind, the cards of the stock, the waste, the
    foundations and the columns together are the standard deck of 52: the
    (suit, rank) pairs are a permutation of it, none occurs twice and none is
    missing. *)
Theorem deck_is_kept (s : SolitaireGame) (o : Op) :
  reachable s →
  (card_id <$> all_cards s ≡ₚ standard_deck
   ∧ NoDup (card_id <$> all_cards s)
   ∧ (∀ id, id ∈ card_id <$> all_cards s)
   ∧ length (all_cards s) = 52%nat)
  ∧ (card_id <$> all_cards (run_op o s) ≡ₚ standard_deck
     ∧ NoDup (card_id <$> all_cards (run_op o s))
     ∧ (∀ id, id ∈ card_id <$> all_cards (run_op o s))
     ∧ length (all_cards (run_op o s)) = 52%nat).
Proof.
  intros Hs.
  assert (∀ s', reachable s' →
            card_id <$> all_cards s' ≡ₚ standard_deck
            ∧ NoDup (card_id <$> all_cards s')
            ∧ (∀ id, id ∈ card_id <$> all_cards s')
            ∧ length (all_cards s') = 52%nat) as Hall.
  { intros s' Hs'. apply reachable_game_inv in Hs' as [_ _ Hd _ _ _].
    split; [done|]. by apply full_deck_facts. }
  split; apply Hall; [done|]. by apply reachable_step.
Qed.

Lemma deck_is_kept_witness :
  (card_id <$> all_cards unshuffled_deal ≡ₚ standard_deck
   ∧ NoDup (card_id <$> all_cards unshuffled_deal)
   ∧ (∀ id, id ∈ card_id <$> all_cards unshuffled_deal)
   ∧ length (all_cards unshuffled_deal) = 52%nat)
  ∧ (card_id <$> all_cards (run_op (MoveToTableau (FromTableau 1) 4 1) unshuffled_deal)
       ≡ₚ standard_deck
     ∧ NoDup (card_id <$> all_cards (run_op (MoveToTableau (FromTableau 1) 4 1) unshuffled_deal))
     ∧ (∀ id, id ∈ card_id <$>
                all_cards (run_op (MoveToTableau (FromTableau 1) 4 1) unshuffled_deal))
     ∧ length (all_cards (run_op (MoveToTableau (FromTableau 1) 4 1) unshuffled_deal))
       = 52%nat).
Proof.
  apply (deck_is_kept unshuffled_deal (MoveToTableau (FromTableau 1) 4 1)).
  apply (reachable_deal fresh_deck); reflexivity.
Defined.

(** ** Recycling the waste *)

(** [n] calls of [draw_from_deck] in [text.py]: on a deck of [n] cards they
    turn the deck over onto the waste pile. *)
Lemma text_draw_all shuffle (l : list Text.Card) s :
  Text.deck s = reverse l →
  Nat.iter (length l) (Text.draw_from_deck shuffle) s =
    Text.mkGame [] (Text.waste_pile s ++ l) (Text.foundation_piles s)
      (Text.tableau_piles s) (Text.selected_card s) (Text.selected_pile s)
      (Text.moves s + Z.of_nat (length l))
      (Text.move_history s ++ replicate (length l) Text.DeckDrawn).
Proof.
  revert s. induction l as [|c l IH]; intros s Hs.
  - destruct s. simpl in *. subst. by rewrite !app_nil_r, Z.add_0_r.
  - cbn [length]. rewrite Nat.iter_succ_r.
    rewrite reverse_cons in Hs.
    assert (Text.draw_from_deck shuffle s =
              Text.mkGame (reverse l) (Text.waste_pile s ++ [c])
                (Text.foundation_piles s) (Text.tableau_piles s)
                (Text.selected_card s) (Text.selected_pile s)
                (Text.moves s + 1) (Text.move_history s ++ [Text.DeckDrawn])) as ->.
    { unfold Text.draw_from_deck, Text.draw. by rewrite Hs, last_snoc, py_pop_snoc. }
    rewrite IH by done. simpl. rewrite <- !app_assoc. simpl. f_equal. lia.
Qed.

(** In [text.py] a draw from the empty deck counts as a move, whatever the
    shuffle does, and the deck it leaves is the shuffled waste: with a shuffle
    that happens to leave the order alone the deck is the waste as it lay,
    not its reverse. *)
Lemma text_recycle_reshuffles_and_counts :
  let s := Text.mkGame [] text_two_cards [] [] None None 0 [] in
  Text.deck s = []
  ∧ (∀ shuffle,
       Text.moves (Text.draw_from_deck shuffle s) ≠ Text.moves s
       ∧ Text.deck (Text.draw_from_deck shuffle s) = shuffle text_two_cards)
  ∧ Text.deck (Text.draw_from_deck (λ l, l) s) ≠ reverse (Text.waste_pile s).
Proof. by split_and!. Qed.

(** C2, as amended.  In [solitaire_tkinter (1).py], [draw_from_stock] on an
    empty stock moves every waste card to the stock in reverse of the waste
    order, each face down, empties the waste and leaves the move counter and
    the other piles alone; the stock it makes is a function of the waste, no
    shuffle enters.  In [text.py], [draw_from_deck] on an empty deck instead
    hands the waste in its own order to [random.shuffle], takes the result as
    the deck, and adds one to the move counter. *)
Theorem recycle_spec :
  (∀ s,
     stock s = [] →
     stock (draw_from_stock s) = set_face false <$> reverse (waste s)
     ∧ card_id <$> stock (draw_from_stock s) = reverse (card_id <$> waste s)
     ∧ Forall (λ c, face_up c = false) (stock (draw_from_stock s))
     ∧ waste (draw_from_stock s) = []
     ∧ moves (draw_from_stock s) = moves s
     ∧ foundations (draw_from_stock s) = foundations s
     ∧ tableau (draw_from_stock s) = tableau s)
  ∧ (∀ shuffle s,
       Text.deck s = [] →
       Text.deck (Text.draw_from_deck shuffle s) = shuffle (Text.waste_pile s)
       ∧ Text.waste_pile (Text.draw_from_deck shuffle s) = []
       ∧ Text.moves (Text.draw_from_deck shuffle s) = Text.moves s + 1).
Proof.
  split.
  - intros s Hs. rewrite (draw_from_stock_empty _ Hs). simpl. split_and!; try done.
    + by rewrite card_ids_set_face, fmap_reverse.
    + apply Forall_fmap, Forall_forall. done.
  - intros shuffle s Hs. unfold Text.draw_from_deck, Text.draw. rewrite Hs. done.
Qed.

Lemma recycle_spec_witness :
  let s := mkGame [] five_cards [[]; []; []; []] [[]; []; []; []; []; []; []] 7 in
  stock (draw_from_stock s) = set_face false <$> reverse five_cards
  ∧ waste (draw_from_stock s) = []
  ∧ moves (draw_from_stock s) = 7.
Proof.
  pose proof (proj1 recycle_spec
                (mkGame [] five_cards [[]; []; []; []] [[]; []; []; []; []; []; []] 7)
                eq_refl) as (H1 & _ & _ & H2 & H3 & _).
  exact (conj H1 (conj H2 H3)).
Defined.

(** In [text.py], with a shuffle that happens to leave the order alone, a
    recycle and two draws turn the waste A♥ 2♥ into 2♥ A♥. *)
Lemma text_round_trip_reorders :
  let s := Text.mkGame [] text_two_cards [] [] None None 0 [] in
  Text.deck s = []
  ∧ Text.waste_pile
      (Nat.iter (length (Text.waste_pile s)) (Text.draw_from_deck (λ l, l))
         (Text.draw_from_deck (λ l, l) s))
    ≠ Text.waste_pile s.
Proof. by split. Qed.

(** C3, as amended.  In [solitaire_tkinter (1).py], from a state with an empty
    stock and n waste cards, one recycle and n draws put the same cards back
    on the waste in the same order, each face up (so the waste is exactly what
    it was when its cards lay face up, as they do in every state of a game),
    and leave the stock empty again.  In [text.py] the n draws after a recycle
    lay down the reverse of what [random.shuffle] made of the waste. *)
Theorem recycle_round_trip :
  (∀ s,
     stock s = [] →
     let s' := draw_times (length (waste s)) (draw_from_stock s) in
     card_id <$> waste s' = card_id <$> waste s
     ∧ waste s' = set_face true <$> waste s
     ∧ (Forall (λ c, face_up c = true) (waste s) → waste s' = waste s)
     ∧ stock s' = []
     ∧ moves s' = moves s + Z.of_nat (length (waste s)))
  ∧ (∀ shuffle s,
       Text.deck s = [] →
       length (shuffle (Text.waste_pile s)) = length (Text.waste_pile s) →
       Text.waste_pile
         (Nat.iter (length (Text.waste_pile s)) (Text.draw_from_deck shuffle)
            (Text.draw_from_deck shuffle s))
       = reverse (shuffle (Text.waste_pile s))).
Proof.
  split.
  - intros s Hs s'.
    assert (s' = mkGame [] (set_face true <$> waste s) (foundations s) (tableau s)
                   (moves s + Z.of_nat (length (waste s)))) as ->.
    { unfold s'. rewrite (draw_from_stock_empty _ Hs).
      rewrite <- (length_fmap (set_face false) (waste s)).
      rewrite (draw_times_stock (set_face false <$> waste s) []).
      - simpl. f_equal.
        rewrite <- list_fmap_compose. by apply list_fmap_ext.
      - simpl. by rewrite fmap_reverse. }
    simpl. split_and!; try done.
    + apply card_ids_set_face.
    + apply set_face_all_up.
  - intros shuffle s Hs Hlen.
    assert (Text.draw_from_deck shuffle s =
              Text.mkGame (shuffle (Text.waste_pile s)) [] (Text.foundation_piles s)
                (Text.tableau_piles s) (Text.selected_card s) (Text.selected_pile s)
                (Text.moves s + 1) (Text.move_history s ++ [Text.Reshuffled])) as ->.
    { unfold Text.draw_from_deck, Text.draw. by rewrite Hs. }
    rewrite <- Hlen, <- (length_reverse (shuffle _)).
    rewrite (text_draw_all shuffle (reverse (shuffle (Text.waste_pile s)))).
    + done.
    + simpl. by rewrite reverse_involutive.
Qed.

Lemma recycle_round_trip_witness :
  let s := mkGame [] five_cards [[]; []; []; []] [[]; []; []; []; []; []; []] 7 in
  waste (draw_times 5 (draw_from_stock s)) = five_cards
  ∧ stock (draw_times 5 (draw_from_stock s)) = []
  ∧ moves (draw_times 5 (draw_from_stock s)) = 12.
Proof.
  pose proof (proj1 recycle_round_trip
                (mkGame [] five_cards [[]; []; []; []] [[]; []; []; []; []; []; []] 7)
                eq_refl) as (_ & _ & H1 & H2 & H3).
  split_and!; [apply H1; by repeat constructor | exact H2 | exact H3].
Defined.

(** ** The placement rules *)

Lemma text_pile_empty (pile : Text.CardPile) :
  Text.is_empty pile = true ↔ Text.cards pile = [].
Proof.
  unfold Text.is_empty. rewrite bool_decide_eq_true. apply length_zero_iff_nil.
Qed.

Lemma text_pile_nonempty (pile : Text.CardPile) top :
  last (Text.cards pile) = Some top → Text.is_empty pile = false.
Proof.
  intros [l Hl]%last_Some. unfold Text.is_empty.
  apply bool_decide_eq_false. rewrite Hl, length_app. simpl. lia.
Qed.

(** ** The moves of [text.py] *)

Lemma text_get_set_pile_ne s p q pile :
  p ≠ q → Text.get_pile (Text.set_pile s p pile) q = Text.get_pile s q.
Proof.
  intros Hne. destruct p as [i|i], q as [j|j]; simpl; try done.
  - apply list_lookup_insert_ne. congruence.
  - apply list_lookup_insert_ne. congruence.
Qed.

Lemma text_get_set_pile_eq s p pile0 pile :
  Text.get_pile s p = Some pile0 →
  Text.get_pile (Text.set_pile s p pile) p = Some pile.
Proof.
  destruct p as [i|i]; simpl; intros H;
    apply list_lookup_insert_eq; by eapply lookup_lt_Some.
Qed.

(** No pile accepts its own top card: a move of a pile onto itself is
    refused. *)
Lemma text_own_pile_refuses pile card :
  Text.get_top_card pile = Some card → Text.can_accept_card pile card = false.
Proof.
  unfold Text.get_top_card. intros Hl. unfold Text.can_accept_card.
  rewrite (text_pile_nonempty _ _ Hl). unfold Text.get_top_card. rewrite Hl.
  destruct (Text.is_foundation pile).
  - apply andb_false_intro2, bool_decide_eq_false. lia.
  - apply andb_false_intro2, bool_decide_eq_false. lia.
Qed.

(** [move_card] with a refused card: only the selection is cleared. *)
Lemma text_move_card_refused shuffled s from_pile to_pile source target sel card :
  Text.get_pile s from_pile = Some source →
  Text.get_pile s to_pile = Some target →
  Text.selected_card s = Some sel →
  Text.get_top_card source = Some card →
  Text.can_accept_card target card = false →
  Text.move_card shuffled s from_pile to_pile =
    Some (Text.mkGame (Text.deck s) (Text.waste_pile s) (Text.foundation_piles s)
            (Text.tableau_piles s) None None (Text.moves s) (Text.move_history s)).
Proof.
  intros Hfrom Hto Hsel Htop Hacc. unfold Text.move_card.
  rewrite Hfrom, Hto. simpl. by rewrite Hsel, Htop, Hacc.
Qed.

(** [move_card] with an accepted card moves the top card of the source, and
    that card alone, to the target, and counts one move; then [check_win]
    runs and the selection is cleared. *)
Lemma text_move_card_accepted shuffled s from_pile to_pile source target sel card :
  Text.get_pile s from_pile = Some source →
  Text.get_pile s to_pile = Some target →
  Text.selected_card s = Some sel →
  Text.get_top_card source = Some card →
  Text.can_accept_card target card = true →
  from_pile ≠ to_pile
  ∧ ∃ moved,
      Text.move_card shuffled s from_pile to_pile =
        (let s' := Text.check_win shuffled moved in
         Some (Text.mkGame (Text.deck s') (Text.waste_pile s') (Text.foundation_piles s')
                 (Text.tableau_piles s') None None (Text.moves s') (Text.move_history s')))
      ∧ Text.cards <$> Text.get_pile moved from_pile = Some (py_pop (Text.cards source))
      ∧ Text.cards <$> Text.get_pile moved to_pile = Some (Text.cards target ++ [card])
      ∧ (∀ p, p ≠ from_pile → p ≠ to_pile → Text.get_pile moved p = Text.get_pile s p)
      ∧ Text.deck moved = Text.deck s
      ∧ Text.waste_pile moved = Text.waste_pile s
      ∧ Text.moves moved = Text.moves s + 1
      ∧ Text.move_history moved =
          Text.move_history s ++ [Text.Moved from_pile to_pile card].
Proof.
  intros Hfrom Hto Hsel Htop Hacc.
  assert (from_pile ≠ to_pile) as Hne.
  { intros <-. rewrite Hfrom in Hto. injection Hto as <-.
    by rewrite (text_own_pile_refuses _ _ Htop) in Hacc. }
  split; [done|].
  set (s1 := Text.set_pile s from_pile (Text.remove_card source)).
  set (s2 := Text.set_pile s1 to_pile (Text.add_card target card)).
  assert (Text.get_pile s1 to_pile = Some target) as Hto1
    by (unfold s1; by rewrite text_get_set_pile_ne).
  exists (Text.mkGame (Text.deck s2) (Text.waste_pile s2) (Text.foundation_piles s2)
            (Text.tableau_piles s2) (Text.selected_card s2) (Text.selected_pile s2)
            (Text.moves s2 + 1)
            (Text.move_history s2 ++ [Text.Moved from_pile to_pile card])).
  split_and!.
  - unfold Text.move_card. rewrite Hfrom, Hto. simpl. rewrite Hsel, Htop, Hacc.
    fold s1. rewrite Hto1. simpl. by fold s2.
  - change (Text.cards <$> Text.get_pile s2 from_pile = Some (py_pop (Text.cards source))).
    unfold s2. rewrite text_get_set_pile_ne by done.
    unfold s1. by rewrite (text_get_set_pile_eq _ _ _ _ Hfrom).
  - change (Text.cards <$> Text.get_pile s2 to_pile = Some (Text.cards target ++ [card])).
    unfold s2. by rewrite (text_get_set_pile_eq _ _ _ _ Hto1).
  - intros p Hp1 Hp2.
    change (Text.get_pile s2 p = Text.get_pile s p).
    unfold s2, s1. by rewrite !text_get_set_pile_ne.
  - by destruct from_pile, to_pile.
  - by destruct from_pile, to_pile.
  - by destruct from_pile, to_pile.
  - by destruct from_pile, to_pile.
Qed.

(** C5.  [can_place_on_tableau] accepts a card on a column exactly when the
    column is empty and the card is a King, or the column has a top card, the
    card's rank value is one less than the top card's and its colour differs
    from the top card's; [CardPile.can_accept_card] of [text.py] decides the
    same for a pile that is not a foundation.  A Queen, from the waste or from
    a column, is refused by an empty column: [move_to_tableau] returns
    [False] and the state, the empty column included, is as it was; in
    [text.py], [move_card] with a Queen on top of the source and an empty
    tableau pile as target leaves every pile and the move counter as they
    were. *)
Theorem tableau_placement_rule :
  (∀ card pile,
     can_place_on_tableau card pile = true ↔
     (pile = [] ∧ rank card = RK)
     ∨ (∃ top, last pile = Some top
               ∧ RANK_VALUES (rank card) = RANK_VALUES (rank top) - 1
               ∧ color card ≠ color top))
  ∧ (∀ card pile,
       Text.is_foundation pile = false →
       (Text.can_accept_card pile card = true ↔
        (Text.cards pile = [] ∧ Text.rank card = Text.KING)
        ∨ (∃ top, last (Text.cards pile) = Some top
                  ∧ Text.get_rank_value card = Text.get_rank_value top - 1
                  ∧ Text.get_color card ≠ Text.get_color top)))
  ∧ (∀ s to_pile_idx card_idx queen,
       last (waste s) = Some queen → rank queen = RQ →
       py_get (tableau s) to_pile_idx = Some [] →
       move_to_tableau s FromWaste to_pile_idx card_idx = (Ret false, s))
  ∧ (∀ s from to_pile_idx card_idx src queen,
       tableau s !! Z.to_nat from = Some src →
       py_get src card_idx = Some queen → rank queen = RQ →
       py_get (tableau s) to_pile_idx = Some [] →
       move_to_tableau s (FromTableau from) to_pile_idx card_idx = (Ret false, s))
  ∧ (∀ shuffled s from_pile to_pile source target sel queen,
       Text.get_pile s from_pile = Some source →
       Text.get_pile s to_pile = Some target →
       Text.selected_card s = Some sel →
       Text.get_top_card source = Some queen → Text.rank queen = Text.QUEEN →
       Text.is_foundation target = false → Text.cards target = [] →
       ∃ s', Text.move_card shuffled s from_pile to_pile = Some s'
             ∧ Text.foundation_piles s' = Text.foundation_piles s
             ∧ Text.tableau_piles s' = Text.tableau_piles s
             ∧ Text.deck s' = Text.deck s
             ∧ Text.waste_pile s' = Text.waste_pile s
             ∧ Text.moves s' = Text.moves s).
Proof.
  split_and!.
  - intros card pile. unfold can_place_on_tableau.
    destruct (last pile) as [top|] eqn:Hl.
    + rewrite andb_true_iff, negb_true_iff, bool_decide_eq_true, bool_decide_eq_false.
      split.
      * intros [? ?]. right. by exists top.
      * intros [[-> _] | (top' & [= <-] & ? & ?)]; done.
    + apply last_None in Hl as ->. rewrite bool_decide_eq_true. split.
      * intros ?. by left.
      * intros [[_ ?] | (top & ? & _)]; done.
  - intros card pile Hf. unfold Text.can_accept_card. rewrite Hf.
    unfold Text.get_top_card.
    destruct (last (Text.cards pile)) as [top|] eqn:Hl.
    + rewrite (text_pile_nonempty _ _ Hl).
      rewrite andb_true_iff, negb_true_iff, bool_decide_eq_true, bool_decide_eq_false.
      split.
      * intros [? ?]. right. by exists top.
      * intros [[Hnil _] | (top' & [= <-] & ? & ?)]; [|done].
        by rewrite Hnil in Hl.
    + apply last_None in Hl. rewrite (proj2 (text_pile_empty pile) Hl).
      rewrite bool_decide_eq_true. split.
      * intros ?. by left.
      * intros [[_ ?] | (top & Htop & _)]; done.
  - intros s to_pile_idx card_idx queen Hw Hq Ht.
    unfold move_to_tableau. rewrite Hw, Ht.
    unfold can_place_on_tableau. simpl. by rewrite Hq.
  - intros s from to_pile_idx card_idx src queen Hsrc Hc Hq Ht.
    unfold move_to_tableau. destruct (in_range7 from); [|done].
    rewrite Hsrc. rewrite bool_decide_eq_true_2 by (by eapply py_get_lt).
    rewrite Hc. destruct (face_up queen); [|done].
    rewrite (py_slice_head _ _ _ Hc), Ht.
    unfold can_place_on_tableau. simpl. by rewrite Hq.
  - intros shuffled s from_pile to_pile source target sel queen
      Hfrom Hto Hsel Htop Hq Hf Hnil.
    assert (Text.can_accept_card target queen = false) as Hacc.
    { unfold Text.can_accept_card.
      by rewrite Hf, (proj2 (text_pile_empty target) Hnil), Hq. }
    rewrite (text_move_card_refused shuffled _ _ _ _ _ _ _ Hfrom Hto Hsel Htop Hacc).
    by eexists.
Qed.

Lemma tableau_placement_rule_witness :
  (last (waste queen_example) = Some (mkCard HEART RQ true)
   ∧ py_get (tableau queen_example) 2 = Some []
   ∧ move_to_tableau queen_example FromWaste 2 0 = (Ret false, queen_example))
  ∧ (tableau queen_example !! Z.to_nat 1 = Some [mkCard CLUB R5 false; mkCard SPADE RQ true]
     ∧ py_get [mkCard CLUB R5 false; mkCard SPADE RQ true] 1 = Some (mkCard SPADE RQ true)
     ∧ move_to_tableau queen_example (FromTableau 1) 2 1 = (Ret false, queen_example)).
Proof.
  destruct tableau_placement_rule as (_ & _ & Hw & Ht & _).
  split.
  - split; [reflexivity|]. split; [reflexivity|].
    exact (Hw queen_example 2 0 (mkCard HEART RQ true) eq_refl eq_refl eq_refl).
  - split; [reflexivity|]. split; [reflexivity|].
    exact (Ht queen_example 1 2 1 _ (mkCard SPADE RQ true) eq_refl eq_refl eq_refl eq_refl).
Defined.

(** C6.  [can_move_to_foundation] accepts a card on a foundation exactly when
    the foundation is empty and the card is an Ace, or the foundation has a
    top card of the card's suit whose rank value is one less than the card's;
    [CardPile.can_accept_card] of [text.py] decides the same for a foundation
    pile.  2♠ is refused on a foundation whose top is A♥ and the state stays
    as it was; A♥ and then 2♥ are accepted on an empty foundation, which then
    holds two cards. *)
Theorem foundation_placement_rule :
  (∀ s card foundation_idx foundation,
     py_get (foundations s) foundation_idx = Some foundation →
     (can_move_to_foundation s card foundation_idx = Some true ↔
      (foundation = [] ∧ rank card = RA)
      ∨ (∃ top, last foundation = Some top
                ∧ suit card = suit top
                ∧ RANK_VALUES (rank card) = RANK_VALUES (rank top) + 1))
     ∧ is_Some (can_move_to_foundation s card foundation_idx))
  ∧ (∀ card pile,
       Text.is_foundation pile = true →
       (Text.can_accept_card pile card = true ↔
        (Text.cards pile = [] ∧ Text.rank card = Text.ACE)
        ∨ (∃ top, last (Text.cards pile) = Some top
                  ∧ Text.suit card = Text.suit top
                  ∧ Text.get_rank_value card = Text.get_rank_value top + 1)))
  ∧ (can_move_to_foundation spade_example (mkCard SPADE R2 true) 0 = Some false
     ∧ move_to_foundation spade_example FromWaste 0 = (Ret false, spade_example))
  ∧ (let r1 := move_to_foundation hearts_example FromWaste 0 in
     let r2 := move_to_foundation r1.2 FromWaste 0 in
     r1.1 = Ret true ∧ r2.1 = Ret true
     ∧ foundations r2.2 !! 0%nat = Some [mkCard HEART RA true; mkCard HEART R2 true]
     ∧ (length <$> foundations r2.2 !! 0%nat) = Some 2%nat).
Proof.
  split_and!.
  - intros s card foundation_idx foundation Hf.
    unfold can_move_to_foundation. rewrite Hf. simpl. split; [|done].
    unfold foundation_accepts.
    destruct (last foundation) as [top|] eqn:Hl.
    + split.
      * intros [= [Hs Hr]%andb_prop]. apply bool_decide_eq_true in Hs, Hr.
        right. by exists top.
      * intros [[-> _] | (top' & [= <-] & Hs & Hr)]; [done|].
        by rewrite !bool_decide_eq_true_2.
    + apply last_None in Hl as ->. split.
      * intros [= Hr]. apply bool_decide_eq_true in Hr. by left.
      * intros [[_ Hr] | (top & ? & _)]; [|done]. by rewrite bool_decide_eq_true_2.
  - intros card pile Hf. unfold Text.can_accept_card. rewrite Hf.
    unfold Text.get_top_card.
    destruct (last (Text.cards pile)) as [top|] eqn:Hl.
    + rewrite (text_pile_nonempty _ _ Hl).
      rewrite andb_true_iff, !bool_decide_eq_true.
      split.
      * intros [? ?]. right. by exists top.
      * intros [[Hnil _] | (top' & [= <-] & ? & ?)]; [|done].
        by rewrite Hnil in Hl.
    + apply last_None in Hl. rewrite (proj2 (text_pile_empty pile) Hl).
      rewrite bool_decide_eq_true. split.
      * intros ?. by left.
      * intros [[_ ?] | (top & Htop & _)]; done.
  - done.
  - done.
  - done.
Qed.

Lemma foundation_placement_rule_witness :
  py_get (foundations spade_example) 0 = Some [mkCard HEART RA true]
  ∧ can_move_to_foundation spade_example (mkCard HEART R2 true) 0 = Some true.
Proof.
  split; [reflexivity|].
  apply (proj1 foundation_placement_rule spade_example (mkCard HEART R2 true) 0
           [mkCard HEART RA true] eq_refl).
  right. exists (mkCard HEART RA true). repeat split; reflexivity.
Defined.

(** ** A failed move changes nothing *)

(** C7.  [move_to_tableau], from the waste or from a column, and
    [move_to_foundation] are all-or-nothing: a call that does not return
    [True], because it returns [False] or because a list access raises
    [IndexError], leaves the whole state, every pile, every face flag and
    the move counter, exactly as it was. *)
Theorem failed_move_changes_nothing (s : SolitaireGame) :
  (∀ from_pile to_pile_idx card_idx,
     (move_to_tableau s from_pile to_pile_idx card_idx).1 ≠ Ret true →
     (move_to_tableau s from_pile to_pile_idx card_idx).2 = s)
  ∧ (∀ from_pile foundation_idx,
       (move_to_foundation s from_pile foundation_idx).1 ≠ Ret true →
       (move_to_foundation s from_pile foundation_idx).2 = s).
Proof.
  split.
  - apply move_to_tableau_unchanged.
  - apply move_to_foundation_unchanged.
Qed.

Lemma failed_move_changes_nothing_witness :
  (move_to_tableau queen_example FromWaste 2 0).2 = queen_example
  ∧ (move_to_tableau queen_example (FromTableau 1) 7 1).2 = queen_example
  ∧ (move_to_foundation queen_example (FromTableau 1) 0).2 = queen_example.
Proof.
  destruct (failed_move_changes_nothing queen_example) as [Ht Hf].
  split_and!.
  - by apply Ht.
  - by apply Ht.
  - by apply Hf.
Defined.

(** ** Winning *)

Lemma is_won_Forall s :
  is_won s = true ↔ Forall (λ f, length f = 13%nat) (foundations s).
Proof.
  unfold is_won. induction (foundations s) as [|f fs IH]; simpl.
  - split; [constructor | done].
  - rewrite andb_true_iff, Forall_cons, IH, bool_decide_eq_true. done.
Qed.

Lemma game_inv_won s :
  game_inv s →
  (is_won s = true ↔ stock s = [] ∧ waste s = [] ∧ Forall (.= []) (tableau s)).
Proof.
  intros [Hf _ Hd _ Hs _]. rewrite is_won_Forall.
  apply full_deck_facts in Hd as (_ & _ & Hd).
  unfold all_cards in Hd. rewrite !length_app in Hd.
  destruct (foundations s) as [|f1 [|f2 [|f3 [|f4 [|]]]]]; try done.
  simpl in Hd. rewrite !length_app, length_nil in Hd.
  apply Forall_cons in Hs as [H1%foundation_pile_inv_length Hs].
  apply Forall_cons in Hs as [H2%foundation_pile_inv_length Hs].
  apply Forall_cons in Hs as [H3%foundation_pile_inv_length Hs].
  apply Forall_cons in Hs as [H4%foundation_pile_inv_length _].
  rewrite !Forall_cons, Forall_nil. split.
  - intros (? & ? & ? & ? & _).
    assert (length (stock s) = 0 ∧ length (waste s) = 0
            ∧ length (mjoin (tableau s)) = 0)%nat as (Hst & Hw & Ht) by lia.
    apply length_zero_iff_nil in Hst, Hw, Ht.
    split_and!; try done. by apply join_nil_1.
  - intros (Hst & Hw & Ht). apply join_nil_2 in Ht.
    rewrite Hst, Hw, Ht in Hd. simpl in Hd. split_and!; try done; lia.
Qed.



(** ** Face-up cards *)

Lemma elem_of_mjoin_lookup {A} (ls : list (list A)) x :
  x ∈ mjoin ls ↔ ∃ i l, ls !! i = Some l ∧ x ∈ l.
Proof.
  rewrite list_elem_of_join. split.
  - intros (l & Hx & [i Hi]%list_elem_of_lookup). by exists i, l.
  - intros (i & l & Hi & Hx). exists l. split; [done|].
    apply list_elem_of_lookup. by exists i.
Qed.

(** Replacing a pile by one that keeps the card [x], if it had it, keeps
    [x] on the piles. *)
Lemma elem_of_mjoin_insert {A} (ls : list (list A)) k l l' x :
  ls !! k = Some l → (x ∈ l → x ∈ l') →
  x ∈ mjoin ls → x ∈ mjoin (<[k:=l']> ls).
Proof.
  intros Hk Hl. rewrite !elem_of_mjoin_lookup. intros (i & l0 & Hi & Hx).
  destruct (decide (i = k)) as [->|Hne].
  - exists k, l'. rewrite list_lookup_insert_eq by (by eapply lookup_lt_Some).
    split; [done|]. apply Hl. congruence.
  - exists i, l0. by rewrite list_lookup_insert_ne.
Qed.

Lemma elem_of_mjoin_insert_new {A} (ls : list (list A)) k l' x :
  (k < length ls)%nat → x ∈ l' → x ∈ mjoin (<[k:=l']> ls).
Proof.
  intros Hk Hx. apply elem_of_mjoin_lookup. exists k, l'.
  by rewrite list_lookup_insert_eq.
Qed.

Lemma elem_of_reveal_top c pile :
  c ∈ pile → face_up c = true → c ∈ reveal_top pile.
Proof.
  destruct pile as [|x pile _] using rev_ind; [done|].
  rewrite reveal_top_snoc, !elem_of_app, !list_elem_of_singleton.
  intros [?| ->] Hc; [by left | right]. by rewrite set_face_true.
Qed.

Lemma reachable_draw_times n s : reachable s → reachable (draw_times n s).
Proof.
  intros Hs. induction n as [|n IH]; [done|].
  apply (reachable_step DrawFromStock _ IH).
Qed.

Lemma elem_of_all_cards s c :
  c ∈ all_cards s ↔
  c ∈ stock s ∨ c ∈ waste s ∨ c ∈ mjoin (foundations s) ∨ c ∈ mjoin (tableau s).
Proof. unfold all_cards. by rewrite !elem_of_app. Qed.

Lemma face_up_kept_by_draw s c :
  c ∈ all_cards s → face_up c = true →
  c ∈ all_cards (draw_from_stock s)
  ∨ (stock s = [] ∧ c ∈ waste s
     ∧ set_face false c ∈ stock (draw_from_stock s)
     ∧ waste (draw_from_stock s) = []).
Proof.
  intros Hc Hup.
  destruct (stock s) as [|x st _] eqn:Hst using rev_ind.
  - rewrite (draw_from_stock_empty _ Hst).
    apply elem_of_all_cards in Hc. rewrite Hst in Hc.
    destruct Hc as [Hc | [Hc | Hc]]; [by apply elem_of_nil in Hc | |].
    + right. simpl. split_and!; try done.
      apply list_elem_of_fmap_2. by apply elem_of_reverse.
    + left. apply elem_of_all_cards. simpl. tauto.
  - rewrite (draw_from_stock_top _ _ _ Hst). left.
    apply elem_of_all_cards in Hc. rewrite Hst in Hc.
    apply elem_of_all_cards. simpl.
    rewrite elem_of_app, list_elem_of_singleton in Hc.
    rewrite elem_of_app, list_elem_of_singleton.
    destruct Hc as [[Hc | ->] | [Hc | Hc]]; try tauto.
    rewrite set_face_true by done. tauto.
Qed.

Lemma face_up_kept_by_move_to_tableau s from_pile to_pile_idx card_idx c :
  tableau_inv s → c ∈ all_cards s → face_up c = true →
  c ∈ all_cards (move_to_tableau s from_pile to_pile_idx card_idx).2.
Proof.
  intros Hinv Hc Hup. apply move_to_tableau_cases; [done|]. intros s' Hm.
  apply elem_of_all_cards in Hc. apply elem_of_all_cards.
  destruct from_pile as [|from].
  - apply move_from_waste_true in Hm as (w & card & k & target & Hw & Hk & Htk & Hp & ->).
    simpl. rewrite Hw, elem_of_app, list_elem_of_singleton in Hc.
    assert (k < length (tableau s))%nat by (by eapply lookup_lt_Some).
    destruct Hc as [Hc | [[Hc | ->] | [Hc | Hc]]]; try tauto.
    + right; left. by apply elem_of_reveal_top.
    + do 3 right. apply elem_of_mjoin_insert_new; [done|].
      apply elem_of_app. right. by apply list_elem_of_singleton.
    + do 3 right. apply (elem_of_mjoin_insert _ _ _ _ _ Htk); [|done].
      intros ?. apply elem_of_app. by left.
  - apply move_from_tableau_true_inv in Hm
      as (src & target & kt & k & c0 & Hr & Hsrc & Hkt & Htk & Hk & Hck & Hup0 & Hp & Hne & ->);
      [|done].
    simpl.
    destruct Hc as [Hc | [Hc | [Hc | Hc]]]; try tauto.
    do 3 right.
    assert (kt < length (tableau s))%nat by (by eapply lookup_lt_Some).
    assert (Z.to_nat from < length (tableau s))%nat by (by eapply lookup_lt_Some).
    destruct (decide (c ∈ drop k src)) as [Hd | Hd].
    + apply elem_of_mjoin_lookup. exists kt, (target ++ drop k src).
      rewrite list_lookup_insert_ne by done.
      rewrite list_lookup_insert_eq by done. split; [done|].
      apply elem_of_app. by right.
    + apply (elem_of_mjoin_insert _ _ src).
      * by rewrite list_lookup_insert_ne.
      * intros Hsrc'. rewrite <- (take_drop k src), elem_of_app in Hsrc'.
        destruct Hsrc' as [Ht | ?]; [|done]. by apply elem_of_reveal_top.
      * apply (elem_of_mjoin_insert _ _ _ _ _ Htk); [|done].
        intros ?. apply elem_of_app. by left.
Qed.

Lemma face_up_kept_by_move_to_foundation s from_pile foundation_idx c :
  c ∈ all_cards s → face_up c = true →
  c ∈ all_cards (move_to_foundation s from_pile foundation_idx).2.
Proof.
  intros Hc Hup. apply move_to_foundation_cases; [done|]. intros s' Hm.
  apply elem_of_all_cards in Hc. apply elem_of_all_cards.
  apply move_to_foundation_true in Hm as (f & k & card & Hk & Hfk & Hacc & Hfrom).
  assert (k < length (foundations s))%nat by (by eapply lookup_lt_Some).
  assert (∀ x, x ∈ mjoin (foundations s) → x ∈ mjoin (<[k:=f ++ [card]]> (foundations s)))
    as Hkeep.
  { intros x. apply (elem_of_mjoin_insert _ _ _ _ _ Hfk).
    intros ?. apply elem_of_app. by left. }
  assert (card ∈ mjoin (<[k:=f ++ [card]]> (foundations s))) as Hcard.
  { apply elem_of_mjoin_insert_new; [done|].
    apply elem_of_app. right. by apply list_elem_of_singleton. }
  destruct Hfrom as [(-> & w & Hw & ->) | (i & pile & -> & Hr & Hpile & Hup' & ->)]; simpl.
  - rewrite Hw, elem_of_app, list_elem_of_singleton in Hc.
    destruct Hc as [Hc | [[Hc | ->] | [Hc | Hc]]]; auto.
  - destruct Hc as [Hc | [Hc | [Hc | Hc]]]; auto.
    destruct (decide (c = card)) as [->|Hne]; [auto|].
    do 3 right. apply (elem_of_mjoin_insert _ _ _ _ _ Hpile); [|done].
    rewrite elem_of_app, list_elem_of_singleton.
    intros [? | ?]; [|done]. by apply elem_of_reveal_top.
Qed.

Lemma face_up_kept_by_flip s tableau_idx c :
  c ∈ all_cards s → face_up c = true →
  c ∈ all_cards (default s (flip_exposed s tableau_idx)).
Proof.
  intros Hc Hup. unfold flip_exposed.
  destruct (py_get (tableau s) tableau_idx) as [pile|] eqn:Hp; [|done]. simpl.
  apply py_get_set_Some in Hp as (k & Hk & Hpk & Hset). rewrite Hset.
  apply elem_of_all_cards in Hc. apply elem_of_all_cards. simpl.
  destruct Hc as [Hc | [Hc | [Hc | Hc]]]; auto.
  do 3 right. apply (elem_of_mjoin_insert _ _ _ _ _ Hpk); [|done].
  intros ?. by apply elem_of_reveal_top.
Qed.

(** In that state the next call of [draw_from_stock] recycles: A♠, face up
    before the call, lies face down in the stock after it. *)
Lemma recycle_turns_cards_down :
  reachable stock_drawn
  ∧ reachable (run_op DrawFromStock stock_drawn)
  ∧ mkCard SPADE RA true ∈ all_cards stock_drawn
  ∧ (mkCard SPADE RA true ∉ all_cards (run_op DrawFromStock stock_drawn))
  ∧ mkCard SPADE RA false ∈ all_cards (run_op DrawFromStock stock_drawn).
Proof.
  assert (reachable stock_drawn) as Hr
    by apply reachable_draw_times, unshuffled_deal_reachable.
  split_and!; [done | by apply reachable_step | ..];
    apply (bool_decide_unpack _); by vm_compute.
Qed.

(** C9, as amended.  In every state of a game a card that lies face up still
    lies face up after any engine call, with one exception: a call of
    [draw_from_stock] on an empty stock, which puts every card of the waste,
    and only those, face down on the stock.  Cards in the columns and on the
    foundations are never turned face down.  (After the call, as before it,
    no (suit, rank) pair occurs twice on the table: the face-up card found
    there is the same card.) *)
Theorem face_up_is_kept_except_by_recycle (s : SolitaireGame) (o : Op) (c : Card) :
  reachable s →
  c ∈ all_cards s → face_up c = true →
  NoDup (card_id <$> all_cards (run_op o s))
  ∧ (c ∈ all_cards (run_op o s)
     ∨ (o = DrawFromStock ∧ stock s = [] ∧ c ∈ waste s
        ∧ set_face false c ∈ stock (run_op o s)
        ∧ waste (run_op o s) = []))
  ∧ (c ∈ mjoin (foundations s) ∨ c ∈ mjoin (tableau s) →
     c ∈ all_cards (run_op o s)).
Proof.
  intros Hs Hc Hup. split.
  { apply (reachable_step o), reachable_game_inv in Hs as [_ _ Hd _ _ _].
    by apply full_deck_facts. }
  apply reachable_game_inv in Hs as [_ _ _ Hcols _ _].
  destruct o; simpl.
  - split.
    + destruct (face_up_kept_by_draw s c Hc Hup) as [? | ?]; [by left | by right].
    + intros Hpiles. apply elem_of_all_cards.
      assert (foundations (draw_from_stock s) = foundations s
              ∧ tableau (draw_from_stock s) = tableau s) as [-> ->]
        by (unfold draw_from_stock; destruct (last (stock s));
            [|destruct (recycle_waste _ _ _)]; done).
      tauto.
  - split; [left|intros _]; by apply face_up_kept_by_move_to_tableau.
  - split; [left|intros _]; by apply face_up_kept_by_move_to_foundation.
  - split; [left|intros _]; by apply face_up_kept_by_flip.
Qed.

Lemma face_up_is_kept_except_by_recycle_witness :
  reachable unshuffled_deal
  ∧ mkCard CLUB RJ true ∈ all_cards unshuffled_deal
  ∧ mkCard CLUB RJ true
      ∈ all_cards (run_op (MoveToTableau (FromTableau 1) 4 1) unshuffled_deal).
Proof.
  assert (reachable unshuffled_deal) as Hr
    by (apply (reachable_deal fresh_deck); reflexivity).
  assert (mkCard CLUB RJ true ∈ all_cards unshuffled_deal) as Hc
    by (apply (bool_decide_unpack _); exact I).
  split; [exact Hr|]. split; [exact Hc|].
  destruct (face_up_is_kept_except_by_recycle unshuffled_deal
              (MoveToTableau (FromTableau 1) 4 1) (mkCard CLUB RJ true)
              Hr Hc eq_refl) as (_ & [H | (H & _)] & _).
  - exact H.
  - discriminate H.
Defined.

(** ** A move from a column to itself *)

Lemma queen_example_inv : tableau_inv queen_example.
Proof.
  unfold tableau_inv. simpl. repeat constructor.
  - exists [], [mkCard SPADE RK true]. by repeat constructor.
  - exists [mkCard CLUB R5 false], [mkCard SPADE RQ true]. by repeat constructor.
  - apply tableau_pile_inv_nil.
  - apply tableau_pile_inv_nil.
  - apply tableau_pile_inv_nil.
  - apply tableau_pile_inv_nil.
  - apply tableau_pile_inv_nil.
Qed.

(** With column 0 holding one card, [card_idx = -2] passes the test
    [card_idx < len(pile)] and [pile[card_idx]] raises: the call does not
    return [False]. *)
Lemma same_column_move_can_raise :
  tableau_inv queen_example
  ∧ move_to_tableau queen_example (FromTableau 0) 0 (-2) = (IndexError, queen_example)
  ∧ (move_to_tableau queen_example (FromTableau 0) 0 (-2)).1 ≠ Ret false.
Proof. split; [apply queen_example_inv | done]. Qed.

(** C10, as amended.  In a state with seven columns that satisfy the column
    invariant, [move_to_tableau] with the source column as its target never
    returns [True] and leaves the state unchanged, whatever [card_idx] is: the
    placement test cannot pass for a face-up card against its own column, so
    the branch that extends and then deletes is not reached.  The call
    returns [False] for every [card_idx] that is not below [-len(pile)]; below
    that, [pile[card_idx]] raises [IndexError]. *)
Theorem same_column_move_is_refused (s : SolitaireGame) (from card_idx : Z) :
  length (tableau s) = 7%nat → tableau_inv s →
  let r := move_to_tableau s (FromTableau from) from card_idx in
  r.2 = s
  ∧ r.1 ≠ Ret true
  ∧ (r.1 = Ret false ↔
     ∀ pile, 0 ≤ from < 7 → tableau s !! Z.to_nat from = Some pile →
             - Z.of_nat (length pile) ≤ card_idx)
  ∧ (r.1 = IndexError ↔
     ∃ pile, 0 ≤ from < 7 ∧ tableau s !! Z.to_nat from = Some pile
             ∧ card_idx < - Z.of_nat (length pile)).
Proof.
  intros Hlen Hinv r.
  assert (r.1 ≠ Ret true) as Hne.
  { intros Hr. apply move_from_tableau_outcome in Hr
      as (src & target & c & Hrange & Hsrc & Ht & Hc & Hup & Hp).
    rewrite py_get_nonneg, Hsrc in Ht by lia. injection Ht as <-.
    apply py_get_Some in Hc as (k & _ & Hk).
    unfold tableau_inv in Hinv. rewrite Forall_lookup in Hinv.
    rewrite (own_pile_rejects src k c) in Hp; [done | by eapply Hinv | done..]. }
  split; [by apply move_to_tableau_unchanged|]. split; [done|].
  revert Hne. unfold r, move_to_tableau, in_range7. clear r.
  case_bool_decide as Hrange; simpl.
  2: { intros _. split; [split; [intros _ pile ?; lia | done]|].
       split; [done | intros (? & ? & _); lia]. }
  assert (is_Some (tableau s !! Z.to_nat from)) as [pile Hpile]
    by (apply lookup_lt_is_Some; lia).
  rewrite Hpile.
  assert (py_get (tableau s) from = Some pile) as Hget
    by (by rewrite py_get_nonneg by lia).
  case_bool_decide as Hlt; simpl.
  2: { intros _. split.
       - split; [|done]. intros _ pile' _ [= <-]. lia.
       - split; [done|]. intros (pile' & _ & [= <-] & ?). lia. }
  destruct (py_get pile card_idx) as [c|] eqn:Hc; simpl.
  - apply py_get_Some in Hc as Hk. destruct Hk as (k & Hk & _).
    apply py_pos_Some in Hk.
    assert (- Z.of_nat (length pile) ≤ card_idx) by lia.
    destruct (face_up c).
    + rewrite (py_slice_head _ _ _ Hc), Hget.
      destruct (can_place_on_tableau c pile); [done|]. intros _. split.
      * split; [|done]. by intros _ pile' _ [= <-].
      * split; [done|]. intros (pile' & _ & [= <-] & ?). lia.
    + intros _. split.
      * split; [|done]. by intros _ pile' _ [= <-].
      * split; [done|]. intros (pile' & _ & [= <-] & ?). lia.
  - apply py_get_None, py_pos_None in Hc. intros _. split.
    + split; [done|]. intros H. specialize (H pile Hrange eq_refl). lia.
    + split; [|done]. intros _. exists pile. split_and!; [lia | lia | done | lia].
Qed.

Lemma same_column_move_is_refused_witness :
  length (tableau queen_example) = 7%nat
  ∧ move_to_tableau queen_example (FromTableau 1) 1 1 = (Ret false, queen_example).
Proof.
  split; [reflexivity|].
  destruct (same_column_move_is_refused queen_example 1 1 eq_refl queen_example_inv)
    as (H2 & _ & H1 & _).
  apply injective_projections; [|exact H2].
  apply H1. intros pile _ [= <-]. simpl. lia.
Defined.

(** ** Built columns *)

Lemma built_run_cons below run :
  built_run (below :: run) ↔
  (∀ above, head run = Some above → placed_on above below) ∧ built_run run.
Proof.
  destruct run as [|above run]; simpl.
  - split; [by split | done].
  - split.
    + intros [? ?]. split; [by intros ? [= <-] | done].
    + intros [H ?]. split; [by apply H | done].
Qed.

Lemma built_run_app run1 run2 :
  built_run (run1 ++ run2) ↔
  built_run run1 ∧ built_run run2
  ∧ ∀ c1 c2, last run1 = Some c1 → head run2 = Some c2 → placed_on c2 c1.
Proof.
  induction run1 as [|below run1 IH].
  - simpl. split; [by intros ? | by intros (_ & ? & _)].
  - rewrite <- app_comm_cons, !built_run_cons, IH.
    destruct run1 as [|above run1].
    + simpl. split.
      * intros (Hh & _ & H2 & _). split_and!; try done.
        intros c1 c2 [= <-] ?. by apply Hh.
      * intros ((_ & _) & H2 & Hl). split_and!; try done.
        intros c2 ?. by apply Hl.
    + rewrite last_cons_cons. simpl. tauto.
Qed.

Lemma built_run_descending run : built_run run → descending_alternating run.
Proof.
  induction run as [|below run IH]; [done|].
  rewrite built_run_cons, descending_alternating_cons.
  intros [Hh Hr]. split; [|by apply IH].
  intros above Ha. destruct (Hh above Ha) as [? ?]. split; [lia | done].
Qed.

Lemma built_column_inv pile : built_column pile → tableau_pile_inv pile.
Proof.
  intros (down & up & -> & ? & ? & ? & _). exists down, up.
  split_and!; try done. by apply built_run_descending.
Qed.

Lemma built_column_nil : built_column [].
Proof. exists [], []. by split_and!. Qed.

(** The top card of a built column lies face up. *)
Lemma built_column_top pile top :
  built_column pile → last pile = Some top → face_up top = true.
Proof.
  intros (down & up & -> & _ & Hup & _ & Hnil) Hl.
  destruct up as [|c up _] using rev_ind.
  - rewrite (Hnil eq_refl) in Hl. done.
  - rewrite app_assoc, last_snoc in Hl. injection Hl as <-.
    apply Forall_app in Hup as [_ Hc]. by rewrite Forall_singleton in Hc.
Qed.

(** Cards cut off the top of a built column, the new top turned up. *)
Lemma built_column_reveal_take pile k :
  built_column pile → built_column (reveal_top (take k pile)).
Proof.
  intros (down & up & -> & Hdown & Hup & Hrun & _).
  rewrite take_app.
  destruct (take (k - length down) up) as [|c up' _] eqn:Hup' using rev_ind.
  - rewrite app_nil_r.
    destruct (take k down) as [|c down' _] eqn:Hdown' using rev_ind;
      [apply built_column_nil|].
    rewrite reveal_top_snoc.
    assert (Forall (λ c, face_up c = false) (down' ++ [c])) as Hd
      by (rewrite <- Hdown'; by apply Forall_take).
    apply Forall_app in Hd as [Hd _].
    exists down', [set_face true c]. split_and!; try done.
    by apply Forall_singleton.
  - assert (Forall (λ c, face_up c = true) (up' ++ [c])) as Hu
      by (rewrite <- Hup'; by apply Forall_take).
    assert (built_run (up' ++ [c])) as Hr.
    { rewrite <- Hup'. rewrite <- (take_drop (k - length down) up) in Hrun.
      by apply built_run_app in Hrun as (? & _). }
    rewrite app_assoc, reveal_top_snoc, <- app_assoc.
    apply Forall_app in Hu as Hc. destruct Hc as [_ Hc].
    rewrite Forall_singleton in Hc. rewrite set_face_true by done.
    exists (take k down), (up' ++ [c]). split_and!; try done.
    + by apply Forall_take.
    + intros Hnil. by destruct up'.
Qed.

(** A face-up built run put on a built column that accepts its first card. *)
Lemma built_column_app pile run first :
  built_column pile →
  Forall (λ c, face_up c = true) run → built_run run →
  head run = Some first → can_place_on_tableau first pile = true →
  built_column (pile ++ run).
Proof.
  intros (down & up & -> & Hdown & Hup & Hrun & Hnil) Hfu Hbuilt Hfirst Hp.
  exists down, (up ++ run). rewrite app_assoc. split_and!; try done.
  - by apply Forall_app.
  - apply built_run_app. split_and!; try done.
    intros c1 c2 Hc1 Hc2. rewrite Hfirst in Hc2. injection Hc2 as <-.
    unfold can_place_on_tableau in Hp. rewrite last_app, Hc1 in Hp.
    apply andb_prop in Hp as [Hr Hcol].
    apply bool_decide_eq_true in Hr. apply negb_true_iff, bool_decide_eq_false in Hcol.
    by split.
  - intros Hempty. apply app_eq_nil in Hempty as [_ ->]. done.
Qed.

(** The run a move lifts off a built column. *)
Lemma built_column_drop pile k c :
  built_column pile → pile !! k = Some c → face_up c = true →
  Forall (λ c, face_up c = true) (drop k pile) ∧ built_run (drop k pile).
Proof.
  intros (down & up & -> & Hdown & Hup & Hrun & _) Hk Hc.
  destruct (tableau_pile_face_up _ _ _ _ Hdown Hk Hc) as [Hle Hk'].
  rewrite drop_app_ge by done. split.
  - by apply Forall_drop.
  - rewrite <- (take_drop (k - length down) up) in Hrun.
    by apply built_run_app in Hrun as (_ & ? & _).
Qed.

(** ** Built columns and faces are kept *)

Lemma built_columns_tableau_inv s :
  Forall built_column (tableau s) → tableau_inv s.
Proof.
  unfold tableau_inv. intros H. eapply Forall_impl; [exact H|].
  apply built_column_inv.
Qed.

Lemma draw_from_stock_faces s : faces_inv s → faces_inv (draw_from_stock s).
Proof.
  intros [Hst Hw Hf].
  destruct (stock s) as [|c st _] eqn:Hstock using rev_ind.
  - rewrite (draw_from_stock_empty _ Hstock). split; simpl; try done.
    apply Forall_fmap, Forall_forall. done.
  - rewrite (draw_from_stock_top _ _ _ Hstock). split; simpl; try done.
    + by apply Forall_app in Hst as [? _].
    + apply Forall_app. split; [done|]. by apply Forall_singleton.
Qed.

Lemma move_to_tableau_built s from_pile to_pile_idx card_idx :
  Forall built_column (tableau s) → faces_inv s →
  Forall built_column (tableau (move_to_tableau s from_pile to_pile_idx card_idx).2)
  ∧ faces_inv (move_to_tableau s from_pile to_pile_idx card_idx).2.
Proof.
  intros Hc Hfaces. apply move_to_tableau_cases; [done|]. intros s' Hm.
  destruct Hfaces as [Hst Hw Hf].
  destruct from_pile as [|from].
  - apply move_from_waste_true in Hm
      as (w & card & k & target & Hwaste & Hk & Htk & Hp & ->).
    rewrite Hwaste in Hw. apply Forall_app in Hw as [Hw Hcard].
    rewrite Forall_singleton in Hcard. simpl. split.
    + apply Forall_insert; [done|]. rewrite Forall_lookup in Hc.
      apply (built_column_app _ [card] card);
        [by eapply Hc | by apply Forall_singleton | exact I | reflexivity | done].
    + split; simpl; try done. by rewrite reveal_top_up.
  - apply move_from_tableau_true_inv in Hm
      as (src & target & kt & k & c & Hr & Hsrc & Hkt & Htk & Hk & Hck & Hup & Hp
          & Hne & ->); [|by apply built_columns_tableau_inv].
    rewrite Forall_lookup in Hc.
    destruct (built_column_drop src k c (Hc _ _ Hsrc) Hck Hup) as [Hrun Hbuilt].
    simpl. split; [|by split].
    apply Forall_insert; [apply Forall_insert|].
    + by apply Forall_lookup.
    + eapply built_column_app; [by eapply Hc | done | done | | done].
      by rewrite (drop_S _ _ _ Hck).
    + apply built_column_reveal_take. by eapply Hc.
Qed.

Lemma move_to_foundation_built s from_pile foundation_idx :
  Forall built_column (tableau s) → faces_inv s →
  Forall built_column (tableau (move_to_foundation s from_pile foundation_idx).2)
  ∧ faces_inv (move_to_foundation s from_pile foundation_idx).2.
Proof.
  intros Hc Hfaces. apply move_to_foundation_cases; [done|]. intros s' Hm.
  destruct Hfaces as [Hst Hw Hf].
  apply move_to_foundation_true in Hm as (f & k & card & Hk & Hfk & Hacc & Hfrom).
  assert (face_up card = true →
          Forall (Forall (λ c, face_up c = true)) (<[k:=f ++ [card]]> (foundations s)))
    as Hf'.
  { intros Hcard. apply Forall_insert; [done|]. rewrite Forall_lookup in Hf.
    apply Forall_app. split; [by eapply Hf | by apply Forall_singleton]. }
  destruct Hfrom as [(-> & w & Hwaste & ->) | (i & pile & -> & Hr & Hpile & Hup & ->)];
    simpl.
  - rewrite Hwaste in Hw. apply Forall_app in Hw as [Hw Hcard].
    rewrite Forall_singleton in Hcard. split; [done|]. split; simpl; auto.
  - split; [|split; simpl; auto].
    apply Forall_insert; [done|]. rewrite Forall_lookup in Hc.
    rewrite <- (take_app_length pile [card]).
    apply built_column_reveal_take. by eapply Hc.
Qed.

(** On a built column the flip of the board finds nothing to turn. *)
Lemma reveal_top_built pile : built_column pile → reveal_top pile = pile.
Proof.
  intros Hc. destruct pile as [|c pile _] using rev_ind; [done|].
  rewrite reveal_top_snoc, set_face_true; [done|].
  apply (built_column_top _ _ Hc), last_snoc.
Qed.

Lemma flip_exposed_built s tableau_idx :
  Forall built_column (tableau s) →
  default s (flip_exposed s tableau_idx) = s.
Proof.
  intros Hc. unfold flip_exposed.
  destruct (py_get (tableau s) tableau_idx) as [pile|] eqn:Hp; [|done]. simpl.
  apply py_get_set_Some in Hp as (k & Hk & Hpk & Hset). rewrite Hset.
  rewrite Forall_lookup in Hc. rewrite (reveal_top_built pile) by (by eapply Hc).
  rewrite list_insert_id by done. by destruct s.
Qed.

Lemma run_op_built o s :
  Forall built_column (tableau s) → faces_inv s →
  Forall built_column (tableau (run_op o s)) ∧ faces_inv (run_op o s).
Proof.
  intros Hc Hf. destruct o; simpl.
  - split; [|by apply draw_from_stock_faces].
    assert (tableau (draw_from_stock s) = tableau s) as ->; [|done].
    unfold draw_from_stock. destruct (last (stock s)); [done|].
    by destruct (recycle_waste _ _ _).
  - by apply move_to_tableau_built.
  - by apply move_to_foundation_built.
  - by rewrite flip_exposed_built.
Qed.

(** ** The deal, card by card *)

Lemma deal_column_short k deck pile :
  (length deck < k)%nat → deal_column k deck pile = None.
Proof.
  revert deck pile. induction k as [|k IH]; intros deck pile Hk; [lia|].
  destruct deck as [|c deck _] using rev_ind; [done|].
  cbn [deal_column]. rewrite last_snoc, py_pop_snoc. simpl.
  apply IH. rewrite length_app in Hk. simpl in Hk. lia.
Qed.

Lemma deal_tableau_short i deck cols :
  (length deck < cards_needed i (length cols))%nat →
  deal_tableau i deck cols = None.
Proof.
  revert i deck. induction cols as [|pile cols IH]; intros i deck Hlen;
    [simpl in Hlen; lia|].
  cbn [deal_tableau]. simpl in Hlen.
  destruct (decide (length deck < S i)%nat) as [Hshort | Hlong].
  - by rewrite deal_column_short.
  - rewrite deal_column_spec by lia. simpl.
    rewrite IH; [done|]. rewrite length_take. lia.
Qed.

Lemma deal_tableau_shape i deck cols :
  Forall (.= []) cols →
  Forall (λ c, face_up c = false) deck →
  (cards_needed i (length cols) ≤ length deck)%nat →
  ∃ tab,
    deal_tableau i deck cols =
      Some (take (length deck - cards_needed i (length cols)) deck, tab)
    ∧ length tab = length cols
    ∧ (∀ j pile, tab !! j = Some pile →
         length pile = S (i + j)
         ∧ ∃ l c, pile = l ++ [c]
                  ∧ Forall (λ c, face_up c = false) l ∧ face_up c = true)
    ∧ card_id <$> reverse deck =
        card_id <$> (mjoin tab
                     ++ reverse (take (length deck - cards_needed i (length cols)) deck)).
Proof.
  revert i deck. induction cols as [|pile cols IH]; intros i deck Hcols Hdown Hlen.
  - exists []. simpl. rewrite Nat.sub_0_r, take_ge by lia. by split_and!.
  - apply Forall_cons in Hcols as [-> Hcols]. simpl in Hlen.
    cbn [deal_tableau]. rewrite deal_column_spec by lia. simpl.
    set (n := (length deck - S i)%nat).
    destruct (IH (S i) (take n deck)) as (tab & Hdeal & Htab & Hshape & Hids).
    + done.
    + by apply Forall_take.
    + rewrite length_take. unfold n. lia.
    + rewrite Hdeal. simpl.
      rewrite length_take, take_take in Hids |- *.
      assert (((n `min` length deck - cards_needed (S i) (length cols)) `min` n)%nat
              = (length deck - S (i + cards_needed (S i) (length cols)))%nat) as Hmin
        by (unfold n; lia).
      rewrite Hmin in Hids |- *.
      assert (length (drop n deck) = S i) as Hdrop
        by (rewrite length_drop; unfold n; lia).
      destruct (drop n deck) as [|c rest] eqn:Hd; [done|].
      rewrite reverse_cons, reveal_top_snoc.
      assert (Forall (λ c, face_up c = false) (c :: rest)) as Hfd
        by (rewrite <- Hd; by apply Forall_drop).
      eexists. split_and!; [done | by rewrite <- Htab | |].
      * intros [|j] pile' Hj; simpl in Hj.
        -- injection Hj as <-. split.
           ++ rewrite length_app, length_reverse. simpl in *. lia.
           ++ exists (reverse rest), (set_face true c). split_and!; try done.
              apply Forall_reverse. by apply Forall_cons in Hfd as [_ ?].
        -- destruct (Hshape j pile' Hj) as [Hl Hs]. split; [|done].
           rewrite Hl. lia.
      * rewrite <- (take_drop n deck) at 1. rewrite Hd, reverse_app, reverse_cons.
        simpl. rewrite !fmap_app, Hids, !fmap_app. simpl.
        by rewrite <- !app_assoc.
Qed.

(** Every state of a game has built columns and faces as the engine
    leaves them. *)
Lemma reachable_built s :
  reachable s → Forall built_column (tableau s) ∧ faces_inv s.
Proof.
  induction 1 as [deck s Hperm Hdeal | o s _ [IHc IHf]].
  - destruct (deal_tableau_shape 0 deck [[]; []; []; []; []; []; []])
      as (tab & Hd & _ & Hshape & _).
    + by repeat constructor.
    + rewrite Hperm. apply fresh_deck_down.
    + rewrite Hperm. simpl. lia.
    + unfold initialize_deck in Hdeal. rewrite Hd in Hdeal. simpl in Hdeal.
      injection Hdeal as <-. simpl. split.
      * apply Forall_lookup. intros j pile Hj.
        destruct (Hshape j pile Hj) as (_ & l & c & -> & Hl & Hc).
        exists l, [c]. split_and!; try done. by apply Forall_singleton.
      * split; simpl.
        -- apply Forall_take. rewrite Hperm. apply fresh_deck_down.
        -- done.
        -- by repeat constructor.
  - by apply run_op_built.
Qed.

(** ** What every state of a game looks like *)

(** X1.  In every state of a game there are seven columns, and each is face-down
    cards under a run of face-up cards in which every card ranks exactly one
    below the card under it and has the other colour; the top card of a
    column that is not empty lies face up. *)
Theorem columns_are_built (s : SolitaireGame) :
  reachable s →
  length (tableau s) = 7%nat
  ∧ ∀ i pile,
      tableau s !! i = Some pile →
      built_column pile ∧ ∀ top, last pile = Some top → face_up top = true.
Proof.
  intros Hs. split; [by apply reachable_game_inv in Hs as [_ ? _ _ _ _]|].
  apply reachable_built in Hs as [Hc _]. rewrite Forall_lookup in Hc.
  intros i pile Hi. split; [by eapply Hc|].
  intros top. apply built_column_top. by eapply Hc.
Qed.

Lemma columns_are_built_witness :
  length (tableau unshuffled_deal) = 7%nat
  ∧ built_column [mkCard CLUB RQ false; mkCard CLUB RJ true].
Proof.
  pose proof unshuffled_deal_reachable as Hr.
  destruct (columns_are_built unshuffled_deal Hr) as [Hlen Hcols].
  split; [exact Hlen|]. exact (proj1 (Hcols 1%nat _ eq_refl)).
Defined.

Lemma mjoin_fmap {A B} (f : A → B) (ls : list (list A)) :
  f <$> mjoin ls = mjoin (fmap f <$> ls).
Proof.
  induction ls as [|l ls IH]; [done|]. simpl. by rewrite fmap_app, IH.
Qed.

(** Two piles of a list of piles without repeated cards share no card. *)
Lemma NoDup_mjoin_disjoint {A} (ls : list (list A)) i j l1 l2 x :
  NoDup (mjoin ls) → i ≠ j →
  ls !! i = Some l1 → ls !! j = Some l2 → x ∈ l1 → x ∈ l2 → False.
Proof.
  revert i j. induction ls as [|l ls IH]; intros i j Hnd Hij Hi Hj H1 H2; [done|].
  simpl in Hnd. apply NoDup_app in Hnd as (_ & Hdis & Hnd).
  destruct i as [|i], j as [|j]; simpl in *; simplify_eq.
  - apply (Hdis x H1). apply elem_of_mjoin_lookup. eauto.
  - apply (Hdis x H2). apply elem_of_mjoin_lookup. eauto.
  - apply (IH i j); auto.
Qed.

(** The game that was played out: the last foundation holds the clubs. *)
Lemma won_game_clubs :
  foundations won_game !! 3%nat = Some ((λ r, mkCard CLUB r true) <$> RANKS).
Proof. by vm_compute. Qed.

(** X2.  In every state of a game there are four foundations; each holds at
    most 13 cards, all face up, which are the ranks A, 2, ... of one suit in
    order; and no two foundations that hold cards hold the same suit. *)
Theorem foundations_are_suits (s : SolitaireGame) :
  reachable s →
  length (foundations s) = 4%nat
  ∧ (∀ k f,
       foundations s !! k = Some f →
       (length f ≤ 13)%nat
       ∧ Forall (λ c, face_up c = true) f
       ∧ ∃ su, card_id <$> f = (λ r, (su, r)) <$> take (length f) RANKS)
  ∧ (∀ k1 k2 f1 f2 c1 c2,
       foundations s !! k1 = Some f1 → foundations s !! k2 = Some f2 →
       c1 ∈ f1 → c2 ∈ f2 → suit c1 = suit c2 → k1 = k2).
Proof.
  intros Hs.
  pose proof (reachable_built s Hs) as [_ [_ _ Hfaces]].
  apply reachable_game_inv in Hs as [Hlen _ Hdeck _ Hinv _].
  rewrite Forall_lookup in Hinv, Hfaces.
  split; [done|]. split.
  - intros k f Hk. split_and!.
    + apply foundation_pile_inv_length. by eapply Hinv.
    + by eapply Hfaces.
    + by eapply Hinv.
  - intros k1 k2 f1 f2 c1 c2 Hk1 Hk2 Hc1 Hc2 Hsuit.
    destruct (decide (k1 = k2)) as [|Hne]; [done|]. exfalso.
    (* both foundations begin with the Ace of the suit *)
    assert (∀ k f c, foundations s !! k = Some f → c ∈ f →
              (suit c, RA) ∈ card_id <$> f) as Hace.
    { intros k f c Hk Hc. destruct (Hinv k f Hk) as [su Hsu].
      assert (su = suit c) as ->.
      { apply (list_elem_of_fmap_2 card_id) in Hc. rewrite Hsu in Hc.
        apply list_elem_of_fmap in Hc as (r & [= ? _] & _). done. }
      rewrite Hsu. destruct f as [|c0 f]; [by apply elem_of_nil in Hc|].
      simpl. apply elem_of_cons. by left. }
    apply full_deck_facts in Hdeck as (Hnd & _).
    rewrite all_cards_ids in Hnd.
    apply NoDup_app in Hnd as (_ & _ & Hnd). apply NoDup_app in Hnd as (_ & _ & Hnd).
    apply NoDup_app in Hnd as (Hnd & _). rewrite mjoin_fmap in Hnd.
    apply (NoDup_mjoin_disjoint _ k1 k2 (card_id <$> f1) (card_id <$> f2)
             (suit c1, RA) Hnd Hne).
    + by rewrite list_lookup_fmap, Hk1.
    + by rewrite list_lookup_fmap, Hk2.
    + by eapply Hace.
    + rewrite Hsuit. by eapply Hace.
Qed.

Lemma foundations_are_suits_witness :
  let f := (λ r, mkCard CLUB r true) <$> RANKS in
  foundations won_game !! 3%nat = Some f
  ∧ (length f ≤ 13)%nat
  ∧ Forall (λ c, face_up c = true) f
  ∧ ∃ su, card_id <$> f = (λ r, (su, r)) <$> take (length f) RANKS.
Proof.
  intros f. split; [exact won_game_clubs|].
  exact (proj1 (proj2 (foundations_are_suits won_game won_game_reachable))
           3%nat f won_game_clubs).
Defined.

(** X3.  In every state of a game the cards of the stock lie face down and
    the cards of the waste lie face up. *)
Theorem stock_down_waste_up (s : SolitaireGame) :
  reachable s →
  Forall (λ c, face_up c = false) (stock s)
  ∧ Forall (λ c, face_up c = true) (waste s).
Proof. intros Hs. by apply reachable_built in Hs as [_ [? ? _]]. Qed.

Lemma stock_down_waste_up_witness :
  Forall (λ c, face_up c = false) (stock stock_drawn)
  ∧ Forall (λ c, face_up c = true) (waste stock_drawn).
Proof.
  apply (stock_down_waste_up stock_drawn).
  apply reachable_draw_times, unshuffled_deal_reachable.
Defined.

(** X4.  In every state of a game the flip that a click on a column runs
    changes nothing: there is never a face-down top card to turn over.  (For
    an index outside the columns the list access raises.) *)
Theorem flip_finds_nothing (s : SolitaireGame) (tableau_idx : Z) :
  reachable s →
  (flip_exposed s tableau_idx = Some s ∧ -7 ≤ tableau_idx < 7)
  ∨ (flip_exposed s tableau_idx = None ∧ ¬ (-7 ≤ tableau_idx < 7)).
Proof.
  intros Hs. pose proof (reachable_built s Hs) as [Hc _].
  apply reachable_game_inv in Hs as [_ Hlen _ _ _ _].
  pose proof (flip_exposed_built s tableau_idx Hc) as Hflip.
  unfold flip_exposed in *.
  destruct (py_get (tableau s) tableau_idx) as [pile|] eqn:Hp; simpl in *.
  - left. split; [by rewrite Hflip|].
    apply py_get_Some in Hp as (k & Hk & _). apply py_pos_Some in Hk. lia.
  - right. split; [done|]. apply py_get_None, py_pos_None in Hp. lia.
Qed.

Lemma flip_finds_nothing_witness :
  flip_exposed unshuffled_deal 3 = Some unshuffled_deal
  ∧ flip_exposed unshuffled_deal 7 = None.
Proof.
  pose proof unshuffled_deal_reachable as Hr.
  split.
  - destruct (flip_finds_nothing unshuffled_deal 3 Hr) as [[H _] | [_ H]];
      [exact H | exfalso; apply H; lia].
  - destruct (flip_finds_nothing unshuffled_deal 7 Hr) as [[_ H] | [H _]];
      [exfalso; lia | exact H].
Defined.

(** X5.  [initialize_deck] raises (a [pop] from the empty list) exactly when
    the deck has fewer than 28 cards.  Otherwise it deals off the end of the
    deck: read from its last card backwards, the deck is column 0, column 1,
    ..., column 6 and then the stock from its top down; column j gets j+1
    cards, the last of them face up and the others face down; the stock is
    the rest of the deck in deck order; waste and foundations are empty and
    the move counter is 0. *)
Theorem deal_spec (deck : list Card) :
  Forall (λ c, face_up c = false) deck →
  (initialize_deck deck = None ↔ (length deck < 28)%nat)
  ∧ ((28 ≤ length deck)%nat →
     ∃ s, initialize_deck deck = Some s
          ∧ stock s = take (length deck - 28) deck
          ∧ waste s = [] ∧ foundations s = [[]; []; []; []] ∧ moves s = 0
          ∧ length (tableau s) = 7%nat
          ∧ (∀ j pile, tableau s !! j = Some pile →
               length pile = S j
               ∧ ∃ l c, pile = l ++ [c]
                        ∧ Forall (λ c, face_up c = false) l ∧ face_up c = true)
          ∧ card_id <$> reverse deck =
              card_id <$> (mjoin (tableau s) ++ reverse (stock s))).
Proof.
  intros Hdown.
  assert ((28 ≤ length deck)%nat →
          ∃ s, initialize_deck deck = Some s
               ∧ stock s = take (length deck - 28) deck
               ∧ waste s = [] ∧ foundations s = [[]; []; []; []] ∧ moves s = 0
               ∧ length (tableau s) = 7%nat
               ∧ (∀ j pile, tableau s !! j = Some pile →
                    length pile = S j
                    ∧ ∃ l c, pile = l ++ [c]
                             ∧ Forall (λ c, face_up c = false) l ∧ face_up c = true)
               ∧ card_id <$> reverse deck =
                   card_id <$> (mjoin (tableau s) ++ reverse (stock s))) as Hlong.
  { intros Hlen.
    destruct (deal_tableau_shape 0 deck [[]; []; []; []; []; []; []])
      as (tab & Hd & Htab & Hshape & Hids).
    - by repeat constructor.
    - done.
    - simpl. lia.
    - unfold initialize_deck. rewrite Hd. simpl. eexists. split; [done|]. simpl.
      split_and!; try done. }
  split; [|done]. split.
  - intros Hnone. destruct (decide (length deck < 28)%nat) as [|Hge]; [done|].
    destruct Hlong as (s & Hs & _); [lia|]. congruence.
  - intros Hshort. unfold initialize_deck.
    by rewrite (deal_tableau_short 0 deck [[]; []; []; []; []; []; []]).
Qed.

Lemma deal_spec_witness :
  Forall (λ c, face_up c = false) fresh_deck
  ∧ ∃ s, initialize_deck fresh_deck = Some s
         ∧ stock s = take 24 fresh_deck ∧ length (tableau s) = 7%nat.
Proof.
  assert (Forall (λ c, face_up c = false) fresh_deck) as Hd
    by (apply (bool_decide_unpack _); exact I).
  split; [exact Hd|].
  destruct (proj2 (deal_spec fresh_deck Hd)) as (s & Hs & Hst & _ & _ & _ & Ht & _).
  - simpl. lia.
  - exists s. split_and!; [exact Hs | exact Hst | exact Ht].
Defined.

(** ** A game that is won *)

Lemma won_game_is_won : is_won won_game = true.
Proof. by vm_compute. Qed.

(** X6.  Once a game is won it is over: in a state of a game in which
    [is_won] holds no call of the engine, whatever its arguments, changes
    anything. *)
Theorem won_game_is_over (s : SolitaireGame) (o : Op) :
  reachable s → is_won s = true → run_op o s = s.
Proof.
  intros Hs Hwon.
  pose proof (reachable_built s Hs) as [Hbuilt _].
  pose proof (reachable_game_inv s Hs) as Hinv.
  apply (game_inv_won s Hinv) in Hwon as (Hstock & Hwaste & Htab).
  rewrite Forall_lookup in Htab.
  destruct o as [|from_pile to_pile_idx card_idx|from_pile foundation_idx|tableau_idx];
    simpl.
  - rewrite draw_from_stock_empty by done. rewrite Hwaste.
    destruct s; simpl in *; by subst.
  - apply move_to_tableau_unchanged. intros Htrue.
    destruct from_pile as [|from].
    + apply move_from_waste_outcome in Htrue as (card & target & Hlast & _).
      by rewrite Hwaste in Hlast.
    + apply move_from_tableau_outcome in Htrue as (src & target & c & _ & Hsrc & _ & Hc & _).
      apply Htab in Hsrc as ->.
      apply py_get_Some in Hc as (k & _ & Hk). done.
  - apply move_to_foundation_unchanged. intros Htrue.
    destruct (move_to_foundation s from_pile foundation_idx) as [r s'] eqn:Hmove.
    simpl in Htrue. subst r.
    apply move_to_foundation_true in Hmove
      as (f & k & card & _ & _ & _ & [[_ (w & Hw & _)] | (i & pile & _ & _ & Hi & _)]).
    + rewrite Hwaste in Hw. by destruct w.
    + apply Htab in Hi. by destruct pile.
  - by apply flip_exposed_built.
Qed.

Lemma won_game_is_over_witness :
  is_won won_game = true ∧ run_op DrawFromStock won_game = won_game.
Proof.
  split; [exact won_game_is_won|].
  exact (won_game_is_over won_game DrawFromStock won_game_reachable won_game_is_won).
Defined.

(** ** Which way the cards go *)

(** A draw or a recycle keeps the order of the draw pile: the stock from
    its bottom up, followed by the waste from its top down. *)
Lemma draw_from_stock_order s :
  card_id <$> (stock (draw_from_stock s) ++ reverse (waste (draw_from_stock s)))
  = card_id <$> (stock s ++ reverse (waste s)).
Proof.
  destruct (last (stock s)) as [c|] eqn:Hlast.
  - apply last_Some in Hlast as [st Hst].
    rewrite (draw_from_stock_top s st c Hst), Hst. simpl.
    rewrite reverse_app, reverse_singleton, !fmap_app. simpl.
    by rewrite card_id_set_face, <- (assoc_L (++)).
  - apply last_None in Hlast.
    rewrite (draw_from_stock_empty s Hlast), Hlast. simpl.
    by rewrite app_nil_r, card_ids_set_face.
Qed.

Lemma elem_of_draw_pile (s : SolitaireGame) id :
  id ∈ card_id <$> (stock s ++ waste s) ↔
  id ∈ card_id <$> (stock s ++ reverse (waste s)).
Proof.
  rewrite !fmap_app, !elem_of_app, fmap_reverse, elem_of_reverse. done.
Qed.

(** X7.  Cards only go one way.  Whatever the state and the call, every
    foundation afterwards begins with the cards it held before (nothing is
    ever taken off a foundation or put under its top), and every card that
    is in the stock or the waste afterwards was in the stock or the waste
    before (no card of a column or a foundation goes back to the draw
    pile). *)
Theorem cards_go_one_way (s : SolitaireGame) (o : Op) :
  (∀ k f, foundations s !! k = Some f →
     ∃ f', foundations (run_op o s) !! k = Some f' ∧ f `prefix_of` f')
  ∧ (∀ id, id ∈ card_id <$> (stock (run_op o s) ++ waste (run_op o s)) →
       id ∈ card_id <$> (stock s ++ waste s)).
Proof.
  set (P := λ s' : SolitaireGame,
         (∀ k f, foundations s !! k = Some f →
            ∃ f', foundations s' !! k = Some f' ∧ f `prefix_of` f')
         ∧ (∀ id, id ∈ card_id <$> (stock s' ++ waste s') →
              id ∈ card_id <$> (stock s ++ waste s))).
  assert (P s) as Hrefl by (split; [by eauto | done]).
  change (P (run_op o s)).
  destruct o as [|from_pile to_pile_idx card_idx|from_pile foundation_idx|tableau_idx];
    simpl.
  - split.
    + intros k f Hk. exists f. split; [|done].
      unfold draw_from_stock. repeat case_match; done.
    + intros id. by rewrite !elem_of_draw_pile, draw_from_stock_order.
  - apply move_to_tableau_cases; [done|]. intros s' Hmove.
    destruct from_pile as [|from].
    + apply move_from_waste_true in Hmove as (w & card & k & target & Hw & _ & _ & _ & ->).
      split; simpl; [by eauto|].
      intros id. rewrite Hw, !fmap_app, reveal_top_ids, !elem_of_app. tauto.
    + apply move_from_tableau_true in Hmove
        as (src & target & kt & k & c & _ & _ & _ & _ & _ & _ & _ & _ & ->).
      split; simpl; [by eauto | done].
  - apply move_to_foundation_cases; [done|]. intros s' Hmove.
    apply move_to_foundation_true in Hmove
      as (f & k & card & Hk%py_pos_lt & Hf & _ & Hcases).
    assert (∀ k0 f0, foundations s !! k0 = Some f0 →
              ∃ f', <[k:=f ++ [card]]> (foundations s) !! k0 = Some f'
                    ∧ f0 `prefix_of` f') as Hgrow.
    { intros k0 f0 Hk0. destruct (decide (k0 = k)) as [->|Hne].
      - exists (f ++ [card]). rewrite list_lookup_insert_eq by done.
        split; [done|]. simplify_eq. by apply prefix_app_r.
      - exists f0. by rewrite list_lookup_insert_ne. }
    destruct Hcases as [[_ (w & Hw & ->)] | (i & pile & _ & _ & _ & _ & ->)];
      split; simpl; try done.
    intros id. rewrite Hw, !fmap_app, !elem_of_app. tauto.
  - unfold flip_exposed. destruct (py_get (tableau s) tableau_idx); simpl; [|done].
    split; simpl; [by eauto | done].
Qed.

(** ** The draw pile comes round *)

Lemma set_face_false (c : Card) : face_up c = false → set_face false c = c.
Proof. intros <-. apply set_face_id. Qed.

Lemma set_face_all_down (l : list Card) :
  Forall (λ c, face_up c = false) l → set_face false <$> l = l.
Proof.
  induction 1 as [|c l Hc _ IH]; [done|]. csimpl. by rewrite set_face_false, IH.
Qed.

(** X8.  Drawing goes round the draw pile.  In a state of a game with n
    cards in stock and waste together, n + 1 calls of [draw_from_stock] (n
    draws and the one recycle) bring stock and waste back to exactly the
    piles they were, with n more moves on the counter; foundations and
    columns are not touched. *)
Theorem draw_pile_comes_round (s : SolitaireGame) :
  reachable s →
  draw_times (S (length (stock s) + length (waste s))) s
  = mkGame (stock s) (waste s) (foundations s) (tableau s)
      (moves s + Z.of_nat (length (stock s) + length (waste s))).
Proof.
  intros Hs. apply reachable_built in Hs as [_ [Hdown Hup _]].
  replace (S (length (stock s) + length (waste s)))
    with (length (waste s) + (1 + length (stock s)))%nat by lia.
  unfold draw_times. rewrite !Nat.iter_add. fold (draw_times (length (stock s)) s).
  (* the stock is drawn *)
  rewrite <- (length_reverse (stock s)).
  rewrite (draw_times_stock (reverse (stock s)) [] s)
    by (by rewrite reverse_involutive).
  (* the recycle *)
  simpl. rewrite draw_from_stock_empty by done. simpl.
  rewrite reverse_app, fmap_app, <- fmap_reverse, reverse_involutive.
  rewrite <- list_fmap_compose.
  rewrite (list_fmap_ext (set_face false ∘ set_face true) (set_face false) (stock s))
    by done.
  rewrite (set_face_all_down (stock s)) by done.
  (* the waste is drawn again *)
  fold (draw_times (length (waste s))
          (mkGame (stock s ++ (set_face false <$> reverse (waste s))) []
             (foundations s) (tableau s)
             (moves s + Z.of_nat (length (reverse (stock s)))))).
  rewrite <- (length_fmap (set_face false) (waste s)).
  rewrite (draw_times_stock (set_face false <$> waste s) (stock s))
    by (simpl; by rewrite fmap_reverse).
  simpl. rewrite <- list_fmap_compose.
  rewrite (list_fmap_ext (set_face true ∘ set_face false) (set_face true) (waste s))
    by done.
  rewrite (set_face_all_up (waste s)) by done.
  rewrite length_fmap, length_reverse. f_equal. lia.
Qed.

Lemma draw_pile_comes_round_witness :
  draw_times 25 unshuffled_deal
  = mkGame (stock unshuffled_deal) (waste unshuffled_deal)
      (foundations unshuffled_deal) (tableau unshuffled_deal) 24.
Proof.
  exact (draw_pile_comes_round unshuffled_deal unshuffled_deal_reachable).
Defined.

(** ** The move counter *)

(** X9.  The counter counts what changes the table.  In a state of a game, a
    call of the engine either leaves the state exactly as it was, or is the
    recycle (a draw on an empty stock), which does not count, or adds exactly
    one to [moves]. *)
Theorem every_change_is_counted (s : SolitaireGame) (o : Op) :
  reachable s →
  run_op o s = s
  ∨ (o = DrawFromStock ∧ stock s = [] ∧ moves (run_op o s) = moves s)
  ∨ moves (run_op o s) = moves s + 1.
Proof.
  intros Hs.
  destruct o as [|from_pile to_pile_idx card_idx|from_pile foundation_idx|tableau_idx];
    simpl.
  - destruct (last (stock s)) as [c|] eqn:Hlast.
    + apply last_Some in Hlast as [st Hst].
      right; right. by rewrite (draw_from_stock_top s st c Hst).
    + apply last_None in Hlast.
      right; left. by rewrite (draw_from_stock_empty s Hlast).
  - destruct (decide ((move_to_tableau s from_pile to_pile_idx card_idx).1 = Ret true))
      as [Htrue | Hne]; [|left; by apply move_to_tableau_unchanged].
    right; right.
    destruct (move_to_tableau s from_pile to_pile_idx card_idx) as [r s'] eqn:Hmove.
    simpl in *. subst r. destruct from_pile as [|from].
    + by apply move_from_waste_true in Hmove as (? & ? & ? & ? & _ & _ & _ & _ & ->).
    + by apply move_from_tableau_true in Hmove
        as (? & ? & ? & ? & ? & _ & _ & _ & _ & _ & _ & _ & _ & ->).
  - destruct (decide ((move_to_foundation s from_pile foundation_idx).1 = Ret true))
      as [Htrue | Hne]; [|left; by apply move_to_foundation_unchanged].
    right; right.
    destruct (move_to_foundation s from_pile foundation_idx) as [r s'] eqn:Hmove.
    simpl in *. subst r.
    by apply move_to_foundation_true in Hmove
      as (? & ? & ? & _ & _ & _ & [[_ (? & _ & ->)] | (? & ? & _ & _ & _ & _ & ->)]).
  - left. apply flip_exposed_built. by apply reachable_built in Hs as [? _].
Qed.

Lemma every_change_is_counted_witness :
  run_op DrawFromStock stock_drawn = stock_drawn
  ∨ (DrawFromStock = DrawFromStock ∧ stock stock_drawn = []
     ∧ moves (run_op DrawFromStock stock_drawn) = moves stock_drawn)
  ∨ moves (run_op DrawFromStock stock_drawn) = moves stock_drawn + 1.
Proof.
  apply (every_change_is_counted stock_drawn DrawFromStock).
  apply reachable_draw_times, unshuffled_deal_reachable.
Defined.

(** ** When a call raises *)

Lemma py_get_in_range {A} (l : list A) (i : Z) :
  is_Some (py_get l i) ↔ - Z.of_nat (length l) ≤ i < Z.of_nat (length l).
Proof.
  destruct (py_get l i) as [x|] eqn:Hget.
  - split; [intros _ | by eauto].
    apply py_get_Some in Hget as (k & Hk%py_pos_Some & _). lia.
  - split; [by intros [? ?] |]. intros Hi.
    apply py_get_None, py_pos_None in Hget. lia.
Qed.

(** When [move_to_foundation] raises, in a state with four foundations
    and seven columns whose top cards lie face up. *)
Lemma move_to_foundation_IndexError (s : SolitaireGame) (from_pile : PileRef)
    (foundation_idx : Z) :
  length (foundations s) = 4%nat → length (tableau s) = 7%nat →
  Forall built_column (tableau s) →
  (move_to_foundation s from_pile foundation_idx).1 = IndexError ↔
  ¬ (-4 ≤ foundation_idx < 4)
  ∧ match from_pile with
    | FromWaste => waste s ≠ []
    | FromTableau i =>
        0 ≤ i < 7 ∧ ∃ pile, tableau s !! Z.to_nat i = Some pile ∧ pile ≠ []
    end.
Proof.
  intros Hf Ht Hbuilt.
  rewrite Forall_lookup in Hbuilt.
  pose proof (py_get_in_range (foundations s) foundation_idx) as Hrange.
  rewrite Hf in Hrange. change (Z.of_nat 4) with 4 in Hrange.
  unfold move_to_foundation, take_for_foundation, can_move_to_foundation.
  destruct from_pile as [|i].
  - destruct (last (waste s)) as [top|] eqn:Hlast.
    + assert (waste s ≠ []) as Hne by (by intros Hnil; rewrite Hnil in Hlast).
      destruct (py_get (foundations s) foundation_idx) as [f|] eqn:Hget; simpl.
      * destruct (foundation_accepts top f); simpl.
        -- rewrite Hget. simpl. split; [done|]. intros [Hout _]. destruct Hout.
           apply Hrange. by eauto.
        -- split; [done|]. intros [Hout _]. destruct Hout. apply Hrange. by eauto.
      * split; [|done]. intros _. split; [|done]. intros Hin.
        apply Hrange in Hin as [? ?]. done.
    + apply last_None in Hlast. simpl. split; [done|]. by intros [_ ?].
  - unfold in_range7. case_bool_decide as Hi; simpl.
    + destruct (tableau s !! Z.to_nat i) as [pile|] eqn:Hpile; simpl.
      2:{ apply lookup_ge_None in Hpile. lia. }
      destruct (last pile) as [top|] eqn:Hlast.
      * assert (pile ≠ []) as Hne by (by intros ->).
        rewrite (built_column_top pile top (Hbuilt _ _ Hpile) Hlast).
        destruct (py_get (foundations s) foundation_idx) as [f|] eqn:Hget; simpl.
        -- destruct (foundation_accepts top f); simpl.
           ++ rewrite Hget. simpl. split; [done|]. intros [Hout _]. destruct Hout.
              apply Hrange. by eauto.
           ++ split; [done|]. intros [Hout _]. destruct Hout. apply Hrange. by eauto.
        -- split; [|done]. intros _. split; [|split; [done | by eauto]].
           intros Hin. apply Hrange in Hin as [? ?]. done.
      * apply last_None in Hlast as ->. simpl. split; [done|].
        intros (_ & _ & pile & ? & ?). by simplify_eq.
    + split; [done|]. by intros (_ & ? & _).
Qed.

(** X10.  In a state of a game [move_to_foundation] raises [IndexError]
    exactly when the source has a card to give (the waste is not empty, or
    [from_pile] is one of 0..6 and that column is not empty) and
    [foundation_idx] is not one of -4..3.  With an empty source, or a
    [from_pile] that is no pile, it returns [False] whatever the index. *)
Theorem move_to_foundation_raises (s : SolitaireGame) (from_pile : PileRef)
    (foundation_idx : Z) :
  reachable s →
  (move_to_foundation s from_pile foundation_idx).1 = IndexError ↔
  ¬ (-4 ≤ foundation_idx < 4)
  ∧ match from_pile with
    | FromWaste => waste s ≠ []
    | FromTableau i =>
        0 ≤ i < 7 ∧ ∃ pile, tableau s !! Z.to_nat i = Some pile ∧ pile ≠ []
    end.
Proof.
  intros Hs.
  pose proof (reachable_built s Hs) as [Hbuilt _].
  pose proof (reachable_game_inv s Hs) as [Hf Ht _ _ _ _].
  by apply move_to_foundation_IndexError.
Qed.

Lemma move_to_foundation_raises_witness :
  (move_to_foundation unshuffled_deal (FromTableau 0) 4).1 = IndexError
  ∧ (move_to_foundation unshuffled_deal FromWaste 4).1 ≠ IndexError.
Proof.
  pose proof (move_to_foundation_raises unshuffled_deal (FromTableau 0) 4
                unshuffled_deal_reachable) as H1.
  pose proof (move_to_foundation_raises unshuffled_deal FromWaste 4
                unshuffled_deal_reachable) as H2.
  split.
  - apply H1. split; [lia|]. split; [lia|]. eexists. split; [reflexivity | done].
  - intros H. apply H2 in H as [_ H]. by apply H.
Defined.

(** When [move_to_tableau] raises, in a state with seven columns. *)
Lemma move_to_tableau_IndexError (s : SolitaireGame) (from_pile : PileRef)
    (to_pile_idx card_idx : Z) :
  length (tableau s) = 7%nat →
  (move_to_tableau s from_pile to_pile_idx card_idx).1 = IndexError ↔
  match from_pile with
  | FromWaste => waste s ≠ [] ∧ ¬ (-7 ≤ to_pile_idx < 7)
  | FromTableau i =>
      0 ≤ i < 7
      ∧ ∃ pile, tableau s !! Z.to_nat i = Some pile
          ∧ (card_idx < - Z.of_nat (length pile)
             ∨ ((∃ c, py_get pile card_idx = Some c ∧ face_up c = true)
                ∧ ¬ (-7 ≤ to_pile_idx < 7)))
  end.
Proof.
  intros Ht.
  pose proof (py_get_in_range (tableau s) to_pile_idx) as Hrange.
  rewrite Ht in Hrange. change (Z.of_nat 7) with 7 in Hrange.
  unfold move_to_tableau. destruct from_pile as [|i].
  - destruct (last (waste s)) as [card|] eqn:Hlast.
    + assert (waste s ≠ []) as Hne by (by intros Hnil; rewrite Hnil in Hlast).
      destruct (py_get (tableau s) to_pile_idx) as [target|] eqn:Hget; simpl.
      * destruct (can_place_on_tableau card target); simpl;
          (split; [done|]; intros [_ Hout]; destruct Hout; apply Hrange; by eauto).
      * split; [|done]. intros _. split; [done|]. intros Hin.
        apply Hrange in Hin as [? ?]. done.
    + apply last_None in Hlast. simpl. split; [done|]. by intros [? _].
  - unfold in_range7. case_bool_decide as Hi; simpl.
    2:{ split; [done|]. by intros [? _]. }
    destruct (tableau s !! Z.to_nat i) as [pile|] eqn:Hpile; simpl.
    2:{ apply lookup_ge_None in Hpile. lia. }
    pose proof (py_get_in_range pile card_idx) as Hcard.
    case_bool_decide as Hlt; simpl.
    2:{ split; [done|]. intros (_ & pile' & ? & [Hlow | [(c & Hc & _) _]]);
          simplify_eq; [lia|]. apply py_get_lt in Hc. lia. }
    destruct (py_get pile card_idx) as [c|] eqn:Hc; simpl.
    2:{ split; [|done]. intros _. split; [done|]. exists pile. split; [done|].
        left. apply py_get_None, py_pos_None in Hc. lia. }
    assert (¬ card_idx < - Z.of_nat (length pile)) as Hnlow.
    { intros Hlow. assert (is_Some (Some c)) as Hsome by eauto.
      apply Hcard in Hsome. lia. }
    destruct (face_up c) eqn:Hup; simpl.
    2:{ split; [done|]. intros (_ & pile' & ? & [Hlow | [(c' & Hc' & Hup') _]]);
          simplify_eq; [done|]. congruence. }
    rewrite (py_slice_head pile card_idx c Hc).
    destruct (py_get (tableau s) to_pile_idx) as [target|] eqn:Hget; simpl.
    + destruct (can_place_on_tableau c target); simpl;
        (split; [done|]; intros (_ & pile' & ? & [Hlow | [_ Hout]]);
         simplify_eq; [done|]; destruct Hout; apply Hrange; by eauto).
    + split; [|done]. intros _. split; [done|]. exists pile. split; [done|].
      right. split; [by eauto|]. intros Hin. apply Hrange in Hin as [? ?]. done.
Qed.

(** X11.  In a state of a game [move_to_tableau] raises [IndexError] exactly
    in these cases: from the waste, when the waste is not empty and
    [to_pile_idx] is not one of -7..6; from a column 0..6, when [card_idx] is
    below minus the length of the column, or when it addresses a face-up
    card of the column and [to_pile_idx] is not one of -7..6.  So no call
    with a target 0..6 and a card index that is not negative raises. *)
Theorem move_to_tableau_raises (s : SolitaireGame) (from_pile : PileRef)
    (to_pile_idx card_idx : Z) :
  reachable s →
  (move_to_tableau s from_pile to_pile_idx card_idx).1 = IndexError ↔
  match from_pile with
  | FromWaste => waste s ≠ [] ∧ ¬ (-7 ≤ to_pile_idx < 7)
  | FromTableau i =>
      0 ≤ i < 7
      ∧ ∃ pile, tableau s !! Z.to_nat i = Some pile
          ∧ (card_idx < - Z.of_nat (length pile)
             ∨ ((∃ c, py_get pile card_idx = Some c ∧ face_up c = true)
                ∧ ¬ (-7 ≤ to_pile_idx < 7)))
  end.
Proof.
  intros Hs.
  pose proof (reachable_game_inv s Hs) as [_ Ht _ _ _ _].
  by apply move_to_tableau_IndexError.
Qed.

Lemma move_to_tableau_raises_witness :
  (move_to_tableau unshuffled_deal (FromTableau 0) 1 (-2)).1 = IndexError
  ∧ (move_to_tableau unshuffled_deal FromWaste 7 0).1 ≠ IndexError.
Proof.
  pose proof (move_to_tableau_raises unshuffled_deal (FromTableau 0) 1 (-2)
                unshuffled_deal_reachable) as H1.
  pose proof (move_to_tableau_raises unshuffled_deal FromWaste 7 0
                unshuffled_deal_reachable) as H2.
  split.
  - apply H1. split; [lia|]. eexists. split; [reflexivity|]. left. simpl. lia.
  - intros H. apply H2 in H as [H _]. by apply H.
Defined.

(** ** The board: regions of the click *)

Lemma foundation_coords_names g i n x y l :
  GUI.foundation_coords g i n x y = Some l →
  ∀ name r, (name, r) ∈ l → ∃ k, name = GUI.Foundation k ∧ (i ≤ k < i + n)%nat.
Proof.
  revert i x l. induction n as [|n IH]; intros i x l; simpl.
  - intros [= <-] name r Hin. by apply elem_of_nil in Hin.
  - destruct (foundations g !! i); simpl; [|done].
    destruct (GUI.foundation_coords g (S i) n _ y) as [rest|] eqn:Hrest; simpl; [|done].
    intros [= <-] name r [Heq | Hin]%elem_of_cons.
    + simplify_eq. exists i. split; [done | lia].
    + destruct (IH _ _ _ Hrest name r Hin) as (k & -> & ?).
      exists k. split; [done | lia].
Qed.

Lemma tableau_coords_names g i n x y l :
  GUI.tableau_coords g i n x y = Some l →
  ∀ name r, (name, r) ∈ l →
    ∃ k, name = GUI.Tableau k ∧ (i ≤ k < i + n)%nat ∧ is_Some (tableau g !! k).
Proof.
  revert i x l. induction n as [|n IH]; intros i x l; simpl.
  - intros [= <-] name r Hin. by apply elem_of_nil in Hin.
  - destruct (tableau g !! i) as [pile|] eqn:Hpile; simpl; [|done].
    destruct (GUI.tableau_coords g (S i) n _ y) as [rest|] eqn:Hrest; simpl; [|done].
    intros [= <-] name r [Heq | Hin]%elem_of_cons.
    + simplify_eq. exists i. split_and!; [done | lia | lia | by eauto].
    + destruct (IH _ _ _ Hrest name r Hin) as (k & -> & ? & ?).
      exists k. split_and!; [done | lia | lia | done].
Qed.

Lemma foundation_coords_is_Some g i n x y :
  (i + n ≤ length (foundations g))%nat → is_Some (GUI.foundation_coords g i n x y).
Proof.
  revert i x. induction n as [|n IH]; intros i x Hlen; simpl; [by eauto|].
  destruct (lookup_lt_is_Some_2 (foundations g) i) as [f ->]; [lia|]. simpl.
  destruct (IH (S i) (x + (GUI.CARD_WIDTH + 10))) as [rest ->]; [lia|]. simpl. by eauto.
Qed.

Lemma tableau_coords_is_Some g i n x y :
  (i + n ≤ length (tableau g))%nat → is_Some (GUI.tableau_coords g i n x y).
Proof.
  revert i x. induction n as [|n IH]; intros i x Hlen; simpl; [by eauto|].
  destruct (lookup_lt_is_Some_2 (tableau g) i) as [f ->]; [lia|]. simpl.
  destruct (IH (S i) (x + (GUI.CARD_WIDTH + 10))) as [rest ->]; [lia|]. simpl. by eauto.
Qed.

Lemma foundation_coords_ext g g' i n x y :
  foundations g = foundations g' →
  GUI.foundation_coords g i n x y = GUI.foundation_coords g' i n x y.
Proof.
  intros Heq. revert i x. induction n as [|n IH]; intros i x; simpl; [done|].
  by rewrite Heq, IH.
Qed.

Lemma tableau_coords_ext g g' i n x y :
  tableau g = tableau g' →
  GUI.tableau_coords g i n x y = GUI.tableau_coords g' i n x y.
Proof.
  intros Heq. revert i x. induction n as [|n IH]; intros i x; simpl; [done|].
  by rewrite Heq, IH.
Qed.

Lemma layout_ext g g' :
  foundations g = foundations g' → tableau g = tableau g' →
  GUI.layout g = GUI.layout g'.
Proof.
  intros Hf Ht. unfold GUI.layout.
  by rewrite (foundation_coords_ext g g' _ _ _ _ Hf), (tableau_coords_ext g g' _ _ _ _ Ht).
Qed.

Lemma layout_is_Some g :
  length (foundations g) = 4%nat → length (tableau g) = 7%nat →
  is_Some (GUI.layout g).
Proof.
  intros Hf Ht. unfold GUI.layout.
  destruct (foundation_coords_is_Some g 0 4 400 20) as [fs ->]; [lia|].
  destruct (tableau_coords_is_Some g 0 7 20 160) as [ts ->]; [lia|].
  simpl. by eauto.
Qed.

Lemma find_pile_elem coords x y name :
  GUI.find_pile coords x y = Some name →
  ∃ r, (name, r) ∈ coords ∧ GUI.inside x y r = true.
Proof.
  induction coords as [|[name' r] coords IH]; simpl; [done|].
  destruct (GUI.inside x y r) eqn:Hin.
  - intros [= ->]. exists r. split; [by apply elem_of_cons; left | done].
  - intros (r' & ? & ?)%IH. exists r'. split; [by apply elem_of_cons; right | done].
Qed.

(** The pile a click finds is a pile of the game. *)
Lemma layout_find_pile g coords x y name :
  GUI.layout g = Some coords → GUI.find_pile coords x y = Some name →
  match name with
  | GUI.Foundation k => (k < 4)%nat
  | GUI.Tableau k => (k < 7)%nat ∧ is_Some (tableau g !! k)
  | _ => True
  end.
Proof.
  unfold GUI.layout. intros Hlayout (r & Hin & _)%find_pile_elem.
  destruct (GUI.foundation_coords g 0 4 400 20) as [fs|] eqn:Hfs; [|done].
  destruct (GUI.tableau_coords g 0 7 20 160) as [ts|] eqn:Hts; [|done].
  cbn [mbind option_bind] in Hlayout. injection Hlayout as <-.
  apply elem_of_cons in Hin as [Hin | Hin]; [by simplify_eq|].
  apply elem_of_cons in Hin as [Hin | Hin]; [by simplify_eq|].
  apply elem_of_app in Hin as [Hin | Hin].
  - destruct (foundation_coords_names _ _ _ _ _ _ Hfs _ _ Hin) as (k & -> & ?). lia.
  - destruct (tableau_coords_names _ _ _ _ _ _ Hts _ _ Hin) as (k & -> & ? & ?).
    split; [lia | done].
Qed.

(** ** The board: what a click does *)

Lemma column_ids_NoDup s i pile :
  game_inv s → tableau s !! i = Some pile → NoDup (card_id <$> pile).
Proof.
  intros [_ _ Hdeck _ _ _] Hi.
  apply full_deck_facts in Hdeck as (Hnd & _).
  rewrite all_cards_ids in Hnd.
  apply NoDup_app in Hnd as (_ & _ & Hnd). apply NoDup_app in Hnd as (_ & _ & Hnd).
  apply NoDup_app in Hnd as (_ & _ & Hnd).
  rewrite (mjoin_lookup _ _ _ Hi), !fmap_app in Hnd.
  apply NoDup_app in Hnd as (_ & _ & Hnd). by apply NoDup_app in Hnd as (Hnd & _).
Qed.

(** [index] finds the top card of a column at the top. *)
Lemma index_of_top pile top :
  NoDup (card_id <$> (pile ++ [top])) →
  GUI.index_of (Some (card_id top)) (pile ++ [top]) = Z.of_nat (length pile).
Proof.
  intros Hnd. unfold GUI.index_of.
  destruct (list_find _ _) as [[k c]|] eqn:Hfind.
  - apply list_find_Some in Hfind as (Hk & Hc & _).
    f_equal. eapply NoDup_lookup; [exact Hnd | ..].
    + rewrite list_lookup_fmap, Hk. simpl. by rewrite Hc.
    + rewrite list_lookup_fmap, lookup_app_r, Nat.sub_diag by lia. done.
  - apply list_find_None in Hfind. rewrite Forall_app, Forall_singleton in Hfind.
    by destruct Hfind as [_ ?].
Qed.

Lemma draw_from_stock_piles g :
  foundations (draw_from_stock g) = foundations g
  ∧ tableau (draw_from_stock g) = tableau g.
Proof. unfold draw_from_stock. by repeat case_match. Qed.

Lemma after_move_is_Some s r : r.1 ≠ IndexError → is_Some (GUI.after_move s r).
Proof. destruct r as [[[]|] g]; simpl; by eauto. Qed.

Lemma after_move_inv s r o s1 :
  reachable (GUI.game s) → selection_inv s →
  r.2 = run_op o (GUI.game s) → (r.1 ≠ Ret true → r.2 = GUI.game s) →
  GUI.after_move s r = Some s1 →
  reachable (GUI.game s1) ∧ selection_inv s1
  ∧ GUI.pile_coords s1 = GUI.pile_coords s
  ∧ (GUI.game s1 = GUI.game s ∨ GUI.game s1 = run_op o (GUI.game s)).
Proof.
  intros Hg Hsel Hrun Hsame. destruct r as [[[]|] g]; simpl in *; intros [= <-]; simpl.
  - split_and!; [| done | done | by right]. rewrite Hrun. by apply reachable_step.
  - assert (g = GUI.game s) as -> by by apply Hsame.
    split_and!; [done | done | done | by left].
Qed.

Lemma gui_move_to_foundation s k :
  reachable (GUI.game s) → selection_inv s → 0 ≤ k < 4 →
  ∃ s1, GUI.move_to_foundation s k = Some s1
    ∧ reachable (GUI.game s1) ∧ selection_inv s1
    ∧ GUI.pile_coords s1 = GUI.pile_coords s
    ∧ (GUI.game s1 = GUI.game s
       ∨ ∃ o, board_call (GUI.game s) o ∧ GUI.game s1 = run_op o (GUI.game s)).
Proof.
  intros Hg Hsel Hk.
  pose proof (reachable_game_inv _ Hg) as [Hf Ht _ _ _ _].
  pose proof (reachable_built _ Hg) as [Hbuilt _].
  unfold GUI.move_to_foundation.
  destruct (GUI.truthy (GUI.selected_source s)) eqn:Htruthy; simpl.
  2:{ exists s. split_and!; try done. by left. }
  destruct (GUI.selected_source s) as [source|] eqn:Hsrc; [|done].
  set (r := move_to_foundation (GUI.game s) source k).
  assert (r.1 ≠ IndexError) as Hno.
  { intros Hraise. apply move_to_foundation_IndexError in Hraise as [Hout _]; [lia|done..]. }
  destruct (after_move_is_Some s r Hno) as [s1 Hs1]. exists s1. split; [done|].
  destruct (after_move_inv s r (MoveToFoundation source k) s1 Hg Hsel) as (? & ? & ? & Hcall).
  { done. } { apply move_to_foundation_unchanged. } { done. }
  split_and!; try done. destruct Hcall as [?|Hrun]; [by left | right].
  exists (MoveToFoundation source k). split; [|done].
  destruct source as [|i]; simpl; [done|].
  unfold selection_inv in Hsel. rewrite Hsrc in Hsel. destruct Hsel as [Hi _].
  simpl in Htruthy. apply bool_decide_eq_true in Htruthy. lia.
Qed.

Lemma gui_select_tableau_card s j :
  reachable (GUI.game s) → selection_inv s → (j < 7)%nat →
  ∃ s1, GUI.select_tableau_card s (Z.of_nat j) = Some s1
    ∧ reachable (GUI.game s1) ∧ selection_inv s1
    ∧ GUI.pile_coords s1 = GUI.pile_coords s
    ∧ (GUI.game s1 = GUI.game s
       ∨ ∃ o, board_call (GUI.game s) o ∧ GUI.game s1 = run_op o (GUI.game s)).
Proof.
  intros Hg Hsel Hj.
  pose proof (reachable_game_inv _ Hg) as Hinv. pose proof Hinv as [Hf Ht _ _ _ _].
  pose proof (reachable_built _ Hg) as [Hbuilt _]. rewrite Forall_lookup in Hbuilt.
  unfold GUI.select_tableau_card.
  rewrite py_get_nonneg by lia. rewrite Nat2Z.id.
  destruct (lookup_lt_is_Some_2 (tableau (GUI.game s)) j) as [pile Hpile]; [lia|].
  rewrite Hpile. cbn [mbind option_bind].
  destruct (last pile) as [top|] eqn:Hlast.
  2:{ exists s. split_and!; try done. by left. }
  rewrite (built_column_top pile top (Hbuilt _ _ Hpile) Hlast). cbn [negb].
  assert (∃ target, tableau (GUI.game s) !! Z.to_nat (Z.of_nat j) = Some target
                    ∧ target ≠ []) as Htarget.
  { exists pile. rewrite Nat2Z.id. split; [done|]. by intros ->. }
  destruct (GUI.selected_source s) as [[|i]|] eqn:Hsrc.
  - set (r := move_to_tableau (GUI.game s) FromWaste (Z.of_nat j) 0).
    assert (r.1 ≠ IndexError) as Hno.
    { intros Hraise. apply move_to_tableau_IndexError in Hraise as [_ Hout]; [lia|done]. }
    destruct (after_move_is_Some s r Hno) as [s1 Hs1]. exists s1. split; [done|].
    destruct (after_move_inv s r (MoveToTableau FromWaste (Z.of_nat j) 0) s1 Hg Hsel)
      as (? & ? & ? & Hcall).
    { done. } { apply move_to_tableau_unchanged. } { done. }
    split_and!; try done. destruct Hcall as [?|Hrun]; [by left | right].
    exists (MoveToTableau FromWaste (Z.of_nat j) 0). split; [|done].
    simpl. split_and!; [lia | lia | done | done].
  - pose proof Hsel as Hsel'. unfold selection_inv in Hsel'. rewrite Hsrc in Hsel'.
    destruct Hsel' as (Hi & p & t & Hp & Hcard).
    rewrite py_get_nonneg by lia. rewrite Hp. cbn [mbind option_bind].
    rewrite Hcard, index_of_top by (by eapply column_ids_NoDup).
    rewrite bool_decide_true by lia.
    set (r := move_to_tableau (GUI.game s) (FromTableau i) (Z.of_nat j)
                (Z.of_nat (length p))).
    assert (r.1 ≠ IndexError) as Hno.
    { intros Hraise. apply move_to_tableau_IndexError in Hraise; [|done].
      destruct Hraise as (_ & pile' & Hpile' & [Hlow | [_ Hout]]); [|lia].
      simplify_eq. rewrite length_app in Hlow. simpl in Hlow. lia. }
    destruct (after_move_is_Some s r Hno) as [s1 Hs1]. exists s1. split; [done|].
    destruct (after_move_inv s r
                (MoveToTableau (FromTableau i) (Z.of_nat j) (Z.of_nat (length p)))
                s1 Hg Hsel) as (? & ? & ? & Hcall).
    { done. } { apply move_to_tableau_unchanged. } { done. }
    split_and!; try done. destruct Hcall as [?|Hrun]; [by left | right].
    exists (MoveToTableau (FromTableau i) (Z.of_nat j) (Z.of_nat (length p))).
    split; [|done]. simpl. split_and!; [lia | lia | done | lia | lia |].
    exists (p ++ [t]). split; [done|]. rewrite length_app. simpl. lia.
  - eexists. split; [done|]. simpl. split_and!; [done | | done | by left].
    unfold selection_inv. simpl. split; [lia|].
    apply last_Some in Hlast as [l ->]. exists l, top. by rewrite Nat2Z.id.
Qed.

Lemma gui_select_waste s :
  selection_inv s →
  ∃ s1, GUI.select_card s FromWaste 0 = Some s1
    ∧ GUI.game s1 = GUI.game s ∧ selection_inv s1
    ∧ GUI.pile_coords s1 = GUI.pile_coords s.
Proof.
  intros Hsel. unfold GUI.select_card.
  destruct (last (waste (GUI.game s))) as [card|].
  - eexists. split; [done|]. split_and!; try done.
    unfold selection_inv. simpl. by eauto.
  - by exists s.
Qed.

Lemma gui_draw_game s :
  reachable (GUI.game s) → selection_inv s →
  ∃ s', GUI.draw_game s = Some s' ∧ gui_inv s'
    ∧ GUI.game s' = GUI.game s
    ∧ GUI.selected_card s' = GUI.selected_card s
    ∧ GUI.selected_source s' = GUI.selected_source s.
Proof.
  intros Hg Hsel. unfold GUI.draw_game.
  pose proof (reachable_game_inv _ Hg) as [Hf Ht _ _ _ _].
  destruct (layout_is_Some (GUI.game s) Hf Ht) as [coords Hcoords].
  rewrite Hcoords. simpl. eexists. split; [done|]. by split_and!.
Qed.

Lemma draw_game_again s : gui_inv s → GUI.draw_game s = Some s.
Proof.
  intros [_ Hcoords _]. unfold GUI.draw_game. rewrite Hcoords. simpl. by destruct s.
Qed.

(** A click never raises, keeps the invariant, and makes at most one call
    to the engine. *)
Lemma click_spec s x y :
  gui_inv s →
  ∃ s', GUI.on_canvas_click s x y = Some s' ∧ gui_inv s'
    ∧ (GUI.game s' = GUI.game s
       ∨ ∃ o, board_call (GUI.game s) o ∧ GUI.game s' = run_op o (GUI.game s)).
Proof.
  intros [Hg Hcoords Hsel]. unfold GUI.on_canvas_click.
  destruct (GUI.find_pile (GUI.pile_coords s) x y) as [[| |k|j]|] eqn:Hfind.
  - destruct (gui_draw_game (GUI.draw_card s)) as (s' & -> & Hinv & Hgame & _).
    + simpl. apply (reachable_step DrawFromStock _ Hg).
    + unfold selection_inv in *. simpl.
      by rewrite (proj2 (draw_from_stock_piles (GUI.game s))).
    + exists s'. split_and!; [done | done |]. right. exists DrawFromStock.
      split; [done|]. by rewrite Hgame.
  - destruct (gui_select_waste s Hsel) as (s1 & -> & Hgame1 & Hsel1 & _). simpl.
    destruct (gui_draw_game s1) as (s' & -> & Hinv & Hgame & _); [by rewrite Hgame1 | done |].
    exists s'. split_and!; [done | done |]. left. by rewrite Hgame.
  - pose proof (layout_find_pile _ _ _ _ _ Hcoords Hfind) as Hk. simpl in Hk.
    assert (∃ s1, (if GUI.truthy (GUI.selected_source s)
                   then GUI.move_to_foundation s (Z.of_nat k) else Some s) = Some s1
              ∧ reachable (GUI.game s1) ∧ selection_inv s1
              ∧ (GUI.game s1 = GUI.game s
                 ∨ ∃ o, board_call (GUI.game s) o
                        ∧ GUI.game s1 = run_op o (GUI.game s)))
      as (s1 & -> & Hg1 & Hsel1 & Hcall).
    { destruct (GUI.truthy (GUI.selected_source s)).
      - destruct (gui_move_to_foundation s (Z.of_nat k) Hg Hsel) as (s1 & ? & ? & ? & _ & ?);
          [lia|]. by exists s1.
      - exists s. split_and!; try done. by left. }
    simpl. destruct (gui_draw_game s1 Hg1 Hsel1) as (s' & -> & Hinv & Hgame & _). simpl.
    exists s'. split_and!; [by apply draw_game_again | done | by rewrite Hgame].
  - pose proof (layout_find_pile _ _ _ _ _ Hcoords Hfind) as [Hj _].
    destruct (gui_select_tableau_card s j Hg Hsel Hj) as (s1 & -> & Hg1 & Hsel1 & _ & Hcall).
    simpl. destruct (gui_draw_game s1 Hg1 Hsel1) as (s' & -> & Hinv & Hgame & _).
    exists s'. split_and!; [done | done | by rewrite Hgame].
  - exists s. split_and!; [done | done | by left].
Qed.

Lemma draw_card_inv s : gui_inv s → gui_inv (GUI.draw_card s).
Proof.
  intros [Hg Hcoords Hsel].
  destruct (draw_from_stock_piles (GUI.game s)) as [Hf Ht]. split; simpl.
  - apply (reachable_step DrawFromStock _ Hg).
  - by rewrite (layout_ext _ (GUI.game s)).
  - unfold selection_inv in *. simpl. by rewrite Ht.
Qed.

Lemma deal_gui_inv deck coords :
  deck ≡ₚ fresh_deck →
  ∃ g s, initialize_deck deck = Some g
    ∧ GUI.draw_game (GUI.mkGUI g None None coords) = Some s
    ∧ gui_inv s ∧ GUI.game s = g
    ∧ GUI.selected_card s = None ∧ GUI.selected_source s = None.
Proof.
  intros Hdeck. destruct (initialize_deck_spec deck Hdeck) as (g & Hg & _).
  destruct (gui_draw_game (GUI.mkGUI g None None coords)) as (s & Hs & Hinv & ? & ? & ?).
  - simpl. by apply (reachable_deal deck).
  - done.
  - by exists g, s.
Qed.

Lemma handle_spec e s :
  gui_inv s → GUI.shuffled e →
  ∃ s', GUI.handle e s = Some s' ∧ gui_inv s'.
Proof.
  intros Hinv He. destruct e as [x y| |deck]; simpl in *.
  - destruct (click_spec s x y Hinv) as (s' & ? & ? & _). by exists s'.
  - exists (GUI.draw_card s). split; [done|]. by apply draw_card_inv.
  - destruct (deal_gui_inv deck (GUI.pile_coords s) He) as (g & s' & Hg & Hs' & ? & _).
    exists s'. unfold GUI.new_game. rewrite Hg. simpl. done.
Qed.

Lemma gui_reachable_inv s : GUI.reachable s → gui_inv s.
Proof.
  induction 1 as [deck s Hdeck Hinit | e s s' _ IH He Hstep].
  - destruct (deal_gui_inv deck [] Hdeck) as (g & s' & Hg & Hs' & ? & _).
    unfold GUI.init in Hinit. rewrite Hg in Hinit. simpl in Hinit. by simplify_eq.
  - destruct (handle_spec e s IH He) as (s'' & ? & ?). by simplify_eq.
Qed.

(** ** The board: what holds of it *)

Lemma gui_reachable_run es s s' :
  GUI.reachable s → Forall GUI.shuffled es → GUI.run es s = Some s' →
  GUI.reachable s'.
Proof.
  revert s. induction es as [|e es IH]; intros s Hs Hes; simpl.
  - by intros [= <-].
  - apply Forall_cons in Hes as [He Hes].
    destruct (GUI.handle e s) as [s1|] eqn:Hstep; simpl; [|done].
    apply IH; [|done]. by apply (GUI.reachable_event e s).
Qed.

Lemma opening_board_reachable : GUI.reachable opening_board.
Proof. apply (GUI.reachable_init fresh_deck); [done | by vm_compute]. Qed.

Lemma column0_selected_reachable : GUI.reachable column0_selected.
Proof.
  apply (GUI.reachable_event (GUI.Click 30 170) opening_board);
    [apply opening_board_reachable | done | by vm_compute].
Qed.

Lemma column1_empty_reachable : GUI.reachable column1_empty.
Proof.
  apply (gui_reachable_run aces_clicks aces_board).
  - apply (GUI.reachable_init aces_deck); [|by vm_compute].
    apply (bool_decide_unpack _). by vm_compute.
  - by repeat constructor.
  - by vm_compute.
Qed.

(** X12.  In every state of the board the game is a state of a game of the
    engine (all that holds of those holds under the board), the click
    regions are the ones [draw_game] computes for the columns as they are
    now (also after the button that draws, which does not redraw), and the
    selection is nothing, the waste, or one of the columns 0..6 together
    with the card that is on top of that column now. *)
Theorem board_state (s : GUI.SolitaireGUI) :
  GUI.reachable s →
  reachable (GUI.game s)
  ∧ GUI.layout (GUI.game s) = Some (GUI.pile_coords s)
  ∧ match GUI.selected_source s with
    | None => GUI.selected_card s = None
    | Some FromWaste => is_Some (GUI.selected_card s)
    | Some (FromTableau i) =>
        0 ≤ i < 7
        ∧ ∃ pile top,
            tableau (GUI.game s) !! Z.to_nat i = Some (pile ++ [top])
            ∧ GUI.selected_card s = Some (card_id top)
    end.
Proof. intros Hs. by apply gui_reachable_inv in Hs as [? ? ?]. Qed.

Lemma board_state_witness :
  reachable (GUI.game column0_selected)
  ∧ GUI.selected_card column0_selected = Some (CLUB, RK).
Proof.
  destruct (board_state column0_selected column0_selected_reachable)
    as (Hg & _ & _ & pile & top & Htop & Hsel).
  split; [exact Hg|].
  destruct pile as [|c [|c' pile]]; [|discriminate Htop..].
  injection Htop as <-. exact Hsel.
Defined.

(** X13.  No handler of the board raises: in every state of the board a
    click anywhere on the canvas, the button that draws and the button that
    starts a new game all return. *)
Theorem board_never_raises (s : GUI.SolitaireGUI) (e : GUI.Event) :
  GUI.reachable s → GUI.shuffled e → is_Some (GUI.handle e s).
Proof.
  intros Hs He. apply gui_reachable_inv in Hs.
  destruct (handle_spec e s Hs He) as (s' & -> & _). by eauto.
Qed.

Lemma board_never_raises_witness :
  is_Some (GUI.handle (GUI.Click 410 30) column0_selected).
Proof.
  exact (board_never_raises column0_selected (GUI.Click 410 30)
           column0_selected_reachable I).
Defined.

(** X14.  A click makes at most one call to the engine, and only these: a
    draw; a move to a foundation 0..3 from the waste or from one of the
    columns 1..6 (never from column 0); a move from the waste or from a
    column onto a column 0..6 that is not empty, and from a column always
    with the index of its top card: the board never moves a run of more than
    one card, and never puts a card on an empty column. *)
Theorem board_calls (s : GUI.SolitaireGUI) (x y : Z) (s' : GUI.SolitaireGUI) :
  GUI.reachable s → GUI.on_canvas_click s x y = Some s' →
  GUI.game s' = GUI.game s
  ∨ ∃ o, board_call (GUI.game s) o ∧ GUI.game s' = run_op o (GUI.game s).
Proof.
  intros Hs Hclick. apply gui_reachable_inv in Hs.
  destruct (click_spec s x y Hs) as (s'' & Hclick' & _ & Hcall). by simplify_eq.
Qed.

Lemma board_calls_witness :
  GUI.game stock_clicked = GUI.game opening_board
  ∨ ∃ o, board_call (GUI.game opening_board) o
         ∧ GUI.game stock_clicked = run_op o (GUI.game opening_board).
Proof.
  apply (board_calls opening_board 30 30 stock_clicked opening_board_reachable).
  vm_compute. reflexivity.
Defined.

Lemma board_call_keeps_empty g o j :
  board_call g o → tableau g !! j = Some [] → tableau (run_op o g) !! j = Some [].
Proof.
  intros Hcall Hj.
  destruct o as [|from_pile to_pile_idx card_idx|from_pile foundation_idx|tableau_idx];
    simpl in *.
  - by rewrite (proj2 (draw_from_stock_piles g)).
  - destruct Hcall as (Hto & (target & Htarget & Hne) & _).
    apply move_to_tableau_cases; [done|]. intros g' Hmove.
    destruct from_pile as [|from].
    + apply move_from_waste_true in Hmove as (w & card & k & tg & _ & Hk & _ & _ & ->).
      simpl. apply py_pos_Some in Hk as [[_ ->] | [? _]]; [|lia].
      rewrite list_lookup_insert_ne; [done|]. intros <-. by simplify_eq.
    + apply move_from_tableau_true in Hmove
        as (src & tg & kt & k & c & _ & Hsrc & Hkt & _ & _ & Hc & _ & _ & ->).
      simpl. apply py_pos_Some in Hkt as [[_ ->] | [? _]]; [|lia].
      rewrite !list_lookup_insert_ne; [done | |].
      * intros <-. by simplify_eq.
      * intros <-. by simplify_eq.
  - apply move_to_foundation_cases; [done|]. intros g' Hmove.
    apply move_to_foundation_true in Hmove
      as (f & k & card & _ & _ & _ & [[_ (w & _ & ->)] | (i & pile & _ & _ & Hi & _ & ->)]);
      simpl; [done|].
    rewrite list_lookup_insert_ne; [done|]. intros <-. simplify_eq. by destruct pile.
  - done.
Qed.

(** X15.  An empty column stays empty: whatever clicks follow, and however
    often the button that draws is used, a column that is empty in a state
    of the board is empty until a new game is started.  (A click on an empty
    column returns at once, so a King can not be moved there.) *)
Theorem empty_column_stays_empty (s : GUI.SolitaireGUI) (es : list GUI.Event)
    (s' : GUI.SolitaireGUI) (j : nat) :
  GUI.reachable s →
  Forall (λ e, ∀ deck, e ≠ GUI.NewGameButton deck) es →
  GUI.run es s = Some s' →
  tableau (GUI.game s) !! j = Some [] →
  tableau (GUI.game s') !! j = Some [].
Proof.
  intros Hs%gui_reachable_inv. revert s Hs.
  induction es as [|e es IH]; intros s Hs Hes; simpl.
  - by intros [= <-].
  - apply Forall_cons in Hes as [He Hes].
    destruct (GUI.handle e s) as [s1|] eqn:Hstep; simpl; [|done].
    intros Hrun Hj. apply (IH s1); [| done | done |].
    + destruct (handle_spec e s Hs) as (s1' & ? & ?).
      { destruct e as [x y| |deck]; [done | done | by destruct (He deck)]. }
      by simplify_eq.
    + destruct e as [x y| |deck]; simpl in Hstep.
      * destruct (click_spec s x y Hs) as (s1' & ? & _ & [Hsame | (o & Hcall & Hrun')]);
          simplify_eq.
        -- by rewrite Hsame.
        -- rewrite Hrun'. by apply board_call_keeps_empty.
      * simplify_eq. simpl. by rewrite (proj2 (draw_from_stock_piles _)).
      * by destruct (He deck).
Qed.

Lemma empty_column_stays_empty_witness :
  tableau (GUI.game column1_empty) !! 1%nat = Some []
  ∧ ∀ s', GUI.run [GUI.Click 120 170; GUI.DrawButton; GUI.Click 120 170] column1_empty
          = Some s' →
          tableau (GUI.game s') !! 1%nat = Some [].
Proof.
  split; [reflexivity|]. intros s' Hrun.
  apply (empty_column_stays_empty column1_empty
           [GUI.Click 120 170; GUI.DrawButton; GUI.Click 120 170] s' 1
           column1_empty_reachable).
  - repeat constructor; discriminate.
  - exact Hrun.
  - reflexivity.
Defined.

(** X16.  While column 0 is the selection a click on a foundation does
    nothing at all: [if self.selected_source:] takes the column number 0 for
    no selection.  The state after the click is the state before it, the
    selection included. *)
Theorem column_0_is_not_moved_to_a_foundation (s : GUI.SolitaireGUI)
    (x y : Z) (i : nat) :
  GUI.reachable s →
  GUI.selected_source s = Some (FromTableau 0) →
  GUI.find_pile (GUI.pile_coords s) x y = Some (GUI.Foundation i) →
  GUI.on_canvas_click s x y = Some s.
Proof.
  intros Hs%gui_reachable_inv Hsrc Hfind.
  unfold GUI.on_canvas_click. rewrite Hfind, Hsrc. simpl.
  rewrite (draw_game_again s Hs). simpl. by apply draw_game_again.
Qed.

Lemma column_0_is_not_moved_to_a_foundation_witness :
  GUI.on_canvas_click column0_selected 410 30 = Some column0_selected.
Proof.
  apply (column_0_is_not_moved_to_a_foundation column0_selected 410 30 0
           column0_selected_reachable); reflexivity.
Defined.

(** ** [text.py]: the deal *)

Lemma text_draw_snoc (cs : list Text.Card) c :
  Text.draw (cs ++ [c]) = (Some c, cs).
Proof. unfold Text.draw. by rewrite last_snoc, py_pop_snoc. Qed.

(** [k] rounds of the deal take the last [k] cards of the deck, or all of
    them when the deck has fewer. *)
Lemma text_deal_pile_spec k (cs : list Text.Card) pile :
  Text.deal_pile k cs pile =
    (take (length cs - k) cs,
     Text.mkPile (Text.pile_id pile)
       (Text.cards pile ++ reverse (drop (length cs - k) cs))
       (Text.is_foundation pile)).
Proof.
  revert cs pile. induction k as [|k IH]; intros cs pile; simpl.
  - rewrite Nat.sub_0_r, firstn_all, drop_all, app_nil_r. by destruct pile.
  - destruct (decide (cs = [])) as [->|Hne].
    + simpl. by rewrite IH.
    + destruct (exists_last Hne) as (cs' & c & ->).
      rewrite text_draw_snoc, IH. simpl. rewrite length_app. simpl.
      replace (length cs' + 1 - S k)%nat with (length cs' - k)%nat by lia.
      rewrite take_app_le, drop_app_le by lia.
      rewrite reverse_app, reverse_singleton. simpl.
      by rewrite <- (assoc_L (++)).
Qed.

Lemma text_deal_piles_length i cs piles :
  length (Text.deal_piles i cs piles).2 = length piles.
Proof.
  revert i cs. induction piles as [|pile piles IH]; intros i cs; [done|].
  cbn [Text.deal_piles]. rewrite text_deal_pile_spec.
  specialize (IH (S i) (take (length cs - S i) cs)).
  destruct (Text.deal_piles (S i) (take (length cs - S i) cs) piles) as [cs2 rest].
  simpl in *. by rewrite IH.
Qed.

(** The deal loses no card and makes none. *)
Lemma text_deal_piles_cards i cs piles :
  (Text.deal_piles i cs piles).1 ++ Text.pile_cards (Text.deal_piles i cs piles).2
  ≡ₚ cs ++ Text.pile_cards piles.
Proof.
  revert i cs. induction piles as [|pile piles IH]; intros i cs; [done|].
  cbn [Text.deal_piles]. rewrite text_deal_pile_spec.
  specialize (IH (S i) (take (length cs - S i) cs)).
  assert (cs ≡ₚ take (length cs - S i) cs ++ drop (length cs - S i) cs) as Hcs
    by (by rewrite take_drop).
  destruct (Text.deal_piles (S i) (take (length cs - S i) cs) piles) as [cs2 rest].
  unfold Text.pile_cards in *. simpl in *.
  rewrite reverse_Permutation.
  set (t := take (length cs - S i) cs) in *.
  set (d := drop (length cs - S i) cs) in *. clearbody t d.
  rewrite Hcs.
  trans ((cs2 ++ mjoin (Text.cards <$> rest)) ++ Text.cards pile ++ d);
    [solve_Permutation|].
  rewrite IH. solve_Permutation.
Qed.

(** How many cards the piles hold after the deal, and how many the deck
    keeps, when the piles were empty. *)
Lemma text_deal_piles_lengths i cs piles :
  Forall (λ pile, Text.cards pile = []) piles →
  (length ∘ Text.cards) <$> (Text.deal_piles i cs piles).2
    = Text.deal_lengths i (length cs) (length piles)
  ∧ length (Text.deal_piles i cs piles).1
    = (length cs - sum_list (Text.deal_lengths i (length cs) (length piles)))%nat.
Proof.
  revert i cs. induction piles as [|pile piles IH]; intros i cs Hempty.
  - simpl. split; [done | lia].
  - apply Forall_cons in Hempty as [Hpile Hempty].
    cbn [Text.deal_piles]. rewrite text_deal_pile_spec.
    specialize (IH (S i) (take (length cs - S i) cs) Hempty).
    destruct (Text.deal_piles (S i) (take (length cs - S i) cs) piles) as [cs2 rest].
    cbn [fst snd] in *. destruct IH as [IH1 IH2].
    rewrite length_take in IH1, IH2.
    replace (Nat.min (length cs - S i) (length cs)) with (length cs - S i)%nat
      in IH1, IH2 by lia.
    rewrite fmap_cons.
    cbn [length Text.deal_lengths sum_list_with compose Text.cards].
    rewrite IH1, IH2, Hpile, app_nil_l, length_reverse, length_drop.
    split; [f_equal; lia | unfold id; lia].
Qed.

(** ** [text.py]: what holds of every state *)

Lemma text_pile_cards_empty ps :
  Forall (λ pile, Text.cards pile = []) ps → Text.pile_cards ps = [].
Proof.
  unfold Text.pile_cards. induction 1 as [|p ps Hp _ IH]; [done|].
  csimpl. by rewrite Hp, IH.
Qed.

Lemma text_pile_cards_insert piles i p p' :
  piles !! i = Some p →
  Text.pile_cards (<[i:=p']> piles) ++ Text.cards p
  ≡ₚ Text.pile_cards piles ++ Text.cards p'.
Proof.
  intros Hi. unfold Text.pile_cards. rewrite list_fmap_insert.
  apply mjoin_insert_perm. by rewrite list_lookup_fmap, Hi.
Qed.

(** A change of one pile object changes the cards of the piles by the cards
    of that pile. *)
Lemma text_set_pile_cards s p pile0 pile :
  Text.get_pile s p = Some pile0 →
  (Text.pile_cards (Text.foundation_piles (Text.set_pile s p pile))
   ++ Text.pile_cards (Text.tableau_piles (Text.set_pile s p pile)))
  ++ Text.cards pile0
  ≡ₚ (Text.pile_cards (Text.foundation_piles s)
      ++ Text.pile_cards (Text.tableau_piles s))
     ++ Text.cards pile.
Proof.
  destruct p as [i|i]; simpl; intros Hi.
  - pose proof (text_pile_cards_insert _ _ _ pile Hi) as Hperm.
    trans ((Text.pile_cards (<[i:=pile]> (Text.foundation_piles s)) ++ Text.cards pile0)
           ++ Text.pile_cards (Text.tableau_piles s)); [solve_Permutation|].
    rewrite Hperm. solve_Permutation.
  - pose proof (text_pile_cards_insert _ _ _ pile Hi) as Hperm.
    trans (Text.pile_cards (Text.foundation_piles s)
           ++ (Text.pile_cards (<[i:=pile]> (Text.tableau_piles s)) ++ Text.cards pile0));
      [solve_Permutation|].
    rewrite Hperm. solve_Permutation.
Qed.

Lemma text_set_pile_facts s p pile :
  Text.deck (Text.set_pile s p pile) = Text.deck s
  ∧ Text.waste_pile (Text.set_pile s p pile) = Text.waste_pile s
  ∧ length (Text.foundation_piles (Text.set_pile s p pile))
    = length (Text.foundation_piles s)
  ∧ length (Text.tableau_piles (Text.set_pile s p pile))
    = length (Text.tableau_piles s)
  ∧ Text.selected_pile (Text.set_pile s p pile) = Text.selected_pile s
  ∧ Text.selected_card (Text.set_pile s p pile) = Text.selected_card s
  ∧ Text.moves (Text.set_pile s p pile) = Text.moves s.
Proof. destruct p; simpl; by rewrite length_insert. Qed.

Lemma text_set_pile_is_Some s p pile q :
  is_Some (Text.get_pile s q) → is_Some (Text.get_pile (Text.set_pile s p pile) q).
Proof.
  destruct p as [i|i], q as [j|j]; simpl; try done;
    rewrite !lookup_lt_is_Some, length_insert; done.
Qed.

Lemma text_unshuffled_length : length Text.unshuffled_deck = 52%nat.
Proof. reflexivity. Qed.

Lemma text_full_length piles :
  forallb (λ pile, bool_decide (length (Text.cards pile) = 13%nat)) piles = true →
  length (Text.pile_cards piles) = (13 * length piles)%nat.
Proof.
  unfold Text.pile_cards. induction piles as [|p ps IH]; csimpl; [done|].
  rewrite andb_true_iff, bool_decide_eq_true. intros [Hp Hps].
  rewrite length_app, Hp, IH by done. lia.
Qed.

(** The test of [check_win] fails in every state that keeps the
    invariant. *)
Lemma text_inv_not_full s : Text.text_inv s → Text.foundations_full s = false.
Proof.
  intros [Hdeck Hpiles _].
  destruct (Text.foundations_full s) eqn:Hfull; [exfalso | done].
  apply text_full_length in Hfull.
  apply Permutation_length in Hdeck. rewrite text_unshuffled_length in Hdeck.
  unfold Text.all_cards in Hdeck. rewrite !length_app in Hdeck. lia.
Qed.

Lemma text_check_win_inv shuffled s : Text.text_inv s → Text.check_win shuffled s = s.
Proof. intros Hs. unfold Text.check_win. by rewrite text_inv_not_full. Qed.

(** What [move_card] does when it returns. *)
Lemma text_move_card_cases shuffled s from_pile to_pile s' :
  Text.move_card shuffled s from_pile to_pile = Some s' →
  s' = s
  ∨ s' = Text.select s None None
  ∨ ∃ source target card,
      Text.get_pile s from_pile = Some source
      ∧ Text.get_pile s to_pile = Some target
      ∧ is_Some (Text.selected_card s)
      ∧ Text.get_top_card source = Some card
      ∧ Text.can_accept_card target card = true
      ∧ from_pile ≠ to_pile
      ∧ let s2 := Text.set_pile (Text.set_pile s from_pile (Text.remove_card source))
                    to_pile (Text.add_card target card) in
        s' = Text.select
               (Text.check_win shuffled
                  (Text.mkGame (Text.deck s2) (Text.waste_pile s2)
                     (Text.foundation_piles s2) (Text.tableau_piles s2)
                     (Text.selected_card s2) (Text.selected_pile s2)
                     (Text.moves s2 + 1)
                     (Text.move_history s2 ++ [Text.Moved from_pile to_pile card])))
               None None.
Proof.
  unfold Text.move_card.
  destruct (Text.get_pile s from_pile) as [source|] eqn:Hsource; simpl; [|done].
  destruct (Text.get_pile s to_pile) as [target|] eqn:Htarget; simpl; [|done].
  destruct (Text.selected_card s) as [sel|] eqn:Hsel; [|intros [= <-]; by left].
  destruct (Text.get_top_card source) as [card|] eqn:Htop; [|intros [= <-]; by left].
  destruct (Text.can_accept_card target card) eqn:Haccept; simpl.
  - assert (from_pile ≠ to_pile) as Hne.
    { intros ->. rewrite Hsource in Htarget. simplify_eq.
      by rewrite (text_own_pile_refuses _ _ Htop) in Haccept. }
    rewrite text_get_set_pile_ne, Htarget by done. simpl.
    intros [= <-]. right; right. exists source, target, card.
    split_and!; try done; by eauto.
  - intros [= <-]. right; left. done.
Qed.

Lemma text_select_inv s card p :
  Text.text_inv s → (∀ q, p = Some q → is_Some (Text.get_pile s q)) →
  Text.text_inv (Text.select s card p).
Proof.
  intros [Hdeck Hpiles Hsel] Hp. split; [done | done |].
  simpl. intros q ->. destruct q; simpl; by apply (Hp _ eq_refl).
Qed.

(** The state [move_card] makes of an accepted move keeps the invariant. *)
Lemma text_moved_inv s from_pile to_pile source target card :
  Text.text_inv s →
  Text.get_pile s from_pile = Some source →
  Text.get_pile s to_pile = Some target →
  Text.get_top_card source = Some card →
  from_pile ≠ to_pile →
  let s2 := Text.set_pile (Text.set_pile s from_pile (Text.remove_card source))
              to_pile (Text.add_card target card) in
  Text.text_inv
    (Text.mkGame (Text.deck s2) (Text.waste_pile s2)
       (Text.foundation_piles s2) (Text.tableau_piles s2)
       (Text.selected_card s2) (Text.selected_pile s2)
       (Text.moves s2 + 1)
       (Text.move_history s2 ++ [Text.Moved from_pile to_pile card]))
  ∧ Text.deck s2 = Text.deck s ∧ Text.waste_pile s2 = Text.waste_pile s.
Proof.
  intros [Hdeck Hpiles Hsel] Hsource Htarget Htop Hne.
  set (s1 := Text.set_pile s from_pile (Text.remove_card source)).
  intros s2. fold s1 in s2.
  pose proof (text_set_pile_facts s from_pile (Text.remove_card source))
    as (Hd1 & Hw1 & Hf1 & Ht1 & Hp1 & _).
  pose proof (text_set_pile_facts s1 to_pile (Text.add_card target card))
    as (Hd2 & Hw2 & Hf2 & Ht2 & Hp2 & _).
  fold s1 in Hd1, Hw1, Hf1, Ht1, Hp1. fold s2 in Hd2, Hw2, Hf2, Ht2, Hp2.
  split; [|by rewrite Hd2, Hd1, Hw2, Hw1].
  split; simpl.
  - (* the cards *)
    pose proof (text_set_pile_cards s from_pile source (Text.remove_card source)
                  Hsource) as Hperm1.
    assert (Text.get_pile s1 to_pile = Some target) as Htarget1
      by (unfold s1; by rewrite text_get_set_pile_ne).
    pose proof (text_set_pile_cards s1 to_pile target (Text.add_card target card)
                  Htarget1) as Hperm2.
    fold s1 in Hperm1. fold s2 in Hperm2. simpl in Hperm1, Hperm2.
    unfold Text.get_top_card in Htop. apply last_py_pop in Htop.
    rewrite Htop in Hperm1 at 1.
    set (F1 := Text.pile_cards (Text.foundation_piles s1) ++
               Text.pile_cards (Text.tableau_piles s1)) in *.
    set (F2 := Text.pile_cards (Text.foundation_piles s2) ++
               Text.pile_cards (Text.tableau_piles s2)) in *.
    set (F := Text.pile_cards (Text.foundation_piles s) ++
              Text.pile_cards (Text.tableau_piles s)) in *.
    assert (F1 ++ [card] ≡ₚ F) as H1.
    { apply (Permutation_app_inv_r (py_pop (Text.cards source))).
      rewrite <- Hperm1. solve_Permutation. }
    assert (F2 ≡ₚ F1 ++ [card]) as H2.
    { apply (Permutation_app_inv_r (Text.cards target)).
      rewrite Hperm2. solve_Permutation. }
    unfold Text.all_cards in *.
    trans (Text.deck s ++ Text.waste_pile s ++ F2).
    { unfold F2. by rewrite ?Hd2, ?Hd1, ?Hw2, ?Hw1. }
    rewrite H2, H1. exact Hdeck.
  - rewrite ?Hf2, ?Hf1, ?Hd2, ?Hd1, ?Hw2, ?Hw1. done.
  - rewrite ?Hp2, ?Hp1. intros q Hq.
    assert (is_Some (Text.get_pile s2 q)) as Hq2
      by (by apply text_set_pile_is_Some, text_set_pile_is_Some, Hsel).
    by destruct q.
Qed.

(** A move keeps the cards, the piles and the draw pile. *)
Lemma text_move_card_inv shuffled s from_pile to_pile s' :
  Text.text_inv s →
  Text.move_card shuffled s from_pile to_pile = Some s' →
  Text.text_inv s'
  ∧ Text.deck s' = Text.deck s ∧ Text.waste_pile s' = Text.waste_pile s.
Proof.
  intros Hs Hmove.
  apply text_move_card_cases in Hmove
    as [-> | [-> | (source & target & card & Hsource & Htarget & _ & Htop & _ & Hne & Hs')]].
  - done.
  - split; [|done]. by apply text_select_inv.
  - destruct (text_moved_inv s from_pile to_pile source target card Hs
                Hsource Htarget Htop Hne) as (Hinv & Hd & Hw).
    simpl in Hs', Hinv, Hd, Hw.
    rewrite (text_check_win_inv _ _ Hinv) in Hs'. subst s'.
    split; [|done]. destruct Hinv as [? ? ?]. by split.
Qed.

Lemma text_initialize_game_inv s :
  Text.deck s ≡ₚ Text.unshuffled_deck → Text.waste_pile s = [] →
  Forall (λ pile, Text.cards pile = []) (Text.foundation_piles s) →
  Forall (λ pile, Text.cards pile = []) (Text.tableau_piles s) →
  (∀ p, Text.selected_pile s = Some p → is_Some (Text.get_pile s p)) →
  (Text.foundation_piles s = [] ∧ Text.tableau_piles s = [])
  ∨ (4 ≤ length (Text.foundation_piles s))%nat →
  Text.text_inv (Text.initialize_game s).
Proof.
  intros Hdeck Hwaste Hfs Hts Hsel Hcount. unfold Text.initialize_game.
  set (fs := Text.foundation_piles s ++ _).
  set (ts := Text.tableau_piles s ++ _).
  assert (Forall (λ pile, Text.cards pile = []) ts) as Hts'.
  { apply Forall_app. split; [done|]. by repeat constructor. }
  assert (Forall (λ pile, Text.cards pile = []) fs) as Hfs'.
  { apply Forall_app. split; [done|]. by repeat constructor. }
  pose proof (text_deal_piles_cards 0 (Text.deck s) ts) as Hcards.
  pose proof (text_deal_piles_length 0 (Text.deck s) ts) as Hlen.
  pose proof (text_deal_piles_lengths 0 (Text.deck s) ts Hts') as [_ Hrest].
  destruct (Text.deal_piles 0 (Text.deck s) ts) as [rest dealt]. simpl in *.
  split; simpl.
  - unfold Text.all_cards. simpl.
    rewrite Hwaste, (text_pile_cards_empty fs Hfs'). simpl.
    rewrite Hcards, (text_pile_cards_empty ts Hts'), app_nil_r. done.
  - destruct Hcount as [[Hf Ht] | Hge].
    + left. unfold fs, ts in *. rewrite Hf, Ht in *. simpl in *.
      split; [done|]. rewrite Hwaste. simpl.
      apply Permutation_length in Hdeck. rewrite text_unshuffled_length in Hdeck.
      rewrite Hdeck in Hrest. simpl in Hrest. lia.
    + right. unfold fs. rewrite length_app. simpl. lia.
  - intros p Hp. specialize (Hsel p Hp). destruct p as [i|i]; simpl in *.
    + unfold fs. apply lookup_lt_is_Some. apply lookup_lt_is_Some in Hsel.
      rewrite length_app. lia.
    + apply lookup_lt_is_Some. apply lookup_lt_is_Some in Hsel.
      rewrite Hlen. unfold ts. rewrite length_app. lia.
Qed.

Lemma text_init_inv shuffled :
  shuffled ≡ₚ Text.unshuffled_deck → Text.text_inv (Text.init shuffled).
Proof.
  intros Hdeck. apply text_initialize_game_inv; simpl; try done. by left.
Qed.

Lemma text_restart_inv shuffled s :
  shuffled ≡ₚ Text.unshuffled_deck → Text.text_inv s →
  Text.text_inv (Text.restart_game shuffled s).
Proof.
  intros Hdeck [_ Hpiles Hsel]. apply text_initialize_game_inv; simpl; try done.
  - apply Forall_fmap, Forall_true. done.
  - apply Forall_fmap, Forall_true. done.
  - intros p Hp. specialize (Hsel p Hp). destruct p as [i|i]; simpl in *;
      rewrite list_lookup_fmap; destruct Hsel as [pile ->]; by eauto.
  - right. rewrite length_fmap. lia.
Qed.

Lemma text_draw_from_deck_inv shuffle s :
  (∀ l, shuffle l ≡ₚ l) → Text.text_inv s →
  Text.text_inv (Text.draw_from_deck shuffle s).
Proof.
  intros Hshuffle [Hdeck Hpiles Hsel]. unfold Text.draw_from_deck, Text.draw.
  destruct (last (Text.deck s)) as [card|] eqn:Hlast.
  - apply last_py_pop in Hlast.
    split; simpl; [| |done].
    + unfold Text.all_cards in *. simpl. rewrite <- Hdeck. rewrite Hlast at 2.
      solve_Permutation.
    + destruct Hpiles as [[Hf Hn] | ?]; [left | by right]. split; [done|].
      rewrite Hlast, !length_app in Hn. rewrite length_app. simpl in *. lia.
  - apply last_None in Hlast.
    split; simpl; [| |done].
    + unfold Text.all_cards in *. simpl. rewrite Hshuffle, Hlast. simpl.
      by rewrite Hlast in Hdeck.
    + destruct Hpiles as [[Hf Hn] | ?]; [left | by right]. split; [done|].
      rewrite (Permutation_length (Hshuffle _)), Hlast. simpl.
      rewrite Hlast in Hn. simpl in Hn. lia.
Qed.

(** The redraw returns when there are four foundation piles or fewer, and
    raises on an empty pile past the fourth. *)
Lemma text_foundations_drawn_few piles i :
  (i + length piles ≤ 4)%nat → Text.foundations_drawn piles i = true.
Proof.
  revert i. induction piles as [|pile piles IH]; intros i Hlen;
    cbn [Text.foundations_drawn length] in *; [done|].
  rewrite (bool_decide_true (i < 4)%nat) by lia. rewrite andb_false_r.
  apply IH. lia.
Qed.

Lemma text_foundations_drawn_empty piles i k pile :
  piles !! k = Some pile → Text.cards pile = [] → (4 ≤ i + k)%nat →
  Text.foundations_drawn piles i = false.
Proof.
  revert i k. induction piles as [|p piles IH]; intros i k Hk Hempty Hik; [done|].
  cbn [Text.foundations_drawn]. destruct k as [|k]; simpl in Hk.
  - simplify_eq. rewrite (proj2 (text_pile_empty pile) Hempty).
    by rewrite (bool_decide_false (i < 4)%nat) by lia.
  - destruct (Text.is_empty p && negb (bool_decide (i < 4)%nat)); [done|].
    apply (IH (S i) k); [done | done | lia].
Qed.

Lemma text_draw_game_four s :
  length (Text.foundation_piles s) = 4%nat → Text.draw_game s = true.
Proof. intros Hf. apply text_foundations_drawn_few. lia. Qed.

Lemma text_redraw_state s : Text.state_of (Text.redraw s) = s.
Proof. unfold Text.redraw. by destruct (Text.draw_game s). Qed.

Lemma text_redraw_four s :
  length (Text.foundation_piles s) = 4%nat → Text.redraw s = Text.Returned s.
Proof. intros Hf. unfold Text.redraw. by rewrite text_draw_game_four. Qed.

Lemma text_restart_foundations shuffled s :
  Text.foundation_piles (Text.restart_game shuffled s)
  = ((λ pile, Text.mkPile (Text.pile_id pile) [] (Text.is_foundation pile))
       <$> Text.foundation_piles s)
    ++ ((λ i, Text.mkPile (Z.of_nat i) [] true) <$> seq 0 4).
Proof.
  unfold Text.restart_game, Text.initialize_game.
  cbn [Text.deck Text.foundation_piles Text.tableau_piles].
  by destruct (Text.deal_piles _ _ _).
Qed.

(** The redraw of a restart raises: the restart leaves an empty fifth
    foundation pile. *)
Lemma text_restart_redraw shuffled s :
  (1 ≤ length (Text.foundation_piles s))%nat →
  Text.redraw (Text.restart_game shuffled s)
  = Text.Raised (Text.restart_game shuffled s).
Proof.
  intros Hlen. unfold Text.redraw, Text.draw_game.
  rewrite text_restart_foundations.
  set (piles := _ ++ _).
  destruct (lookup_lt_is_Some_2 piles 4) as [pile Hpile].
  { unfold piles. rewrite length_app, !length_fmap, length_seq. lia. }
  rewrite (text_foundations_drawn_empty piles 0 4 pile Hpile); [done | | lia].
  apply list_elem_of_lookup_2 in Hpile. unfold piles in Hpile.
  apply elem_of_app in Hpile as [Hpile | Hpile];
    apply list_elem_of_fmap in Hpile as (? & -> & _); done.
Qed.

(** In a state that keeps the invariant no move wins, and [move_card] with
    its redraw is [move_card] followed by the redraw, if it gets there. *)
Lemma text_move_card_result_state shuffled s from_pile to_pile r :
  Text.text_inv s →
  Text.move_card_result shuffled s from_pile to_pile = Some r →
  Text.move_card shuffled s from_pile to_pile = Some (Text.state_of r)
  ∧ (r = Text.Returned (Text.state_of r) ∨ r = Text.redraw (Text.state_of r)).
Proof.
  intros Hs. unfold Text.move_card_result, Text.move_card.
  destruct (Text.get_pile s from_pile) as [source|] eqn:Hsource;
    cbn [mbind option_bind]; [|done].
  destruct (Text.get_pile s to_pile) as [target|] eqn:Htarget;
    cbn [mbind option_bind]; [|done].
  destruct (Text.selected_card s) as [sel|] eqn:Hsel;
    [|intros [= <-]; split; [done | by left]].
  destruct (Text.get_top_card source) as [card|] eqn:Htop;
    [|intros [= <-]; split; [done | by left]].
  destruct (Text.can_accept_card target card) eqn:Haccept.
  - assert (from_pile ≠ to_pile) as Hne.
    { intros ->. rewrite Hsource in Htarget. simplify_eq.
      by rewrite (text_own_pile_refuses _ _ Htop) in Haccept. }
    destruct (text_moved_inv s from_pile to_pile source target card Hs
                Hsource Htarget Htop Hne) as (Hinv & _).
    cbn zeta in Hinv. cbn zeta.
    rewrite (text_get_set_pile_ne s from_pile to_pile) by done.
    rewrite Htarget. cbn [mbind option_bind].
    unfold Text.check_win. rewrite (text_inv_not_full _ Hinv).
    intros [= <-]. rewrite text_redraw_state. split; [done | by right].
  - intros [= <-]. rewrite text_redraw_state. cbn [mbind option_bind].
    split; [done | by right].
Qed.

Lemma text_release_result_state shuffled s x y r :
  Text.text_inv s →
  Text.on_canvas_release_result shuffled s x y = Some r →
  Text.on_canvas_release shuffled s x y = Some (Text.state_of r)
  ∧ (r = Text.Returned (Text.state_of r) ∨ r = Text.redraw (Text.state_of r)).
Proof.
  intros Hs. unfold Text.on_canvas_release_result, Text.on_canvas_release.
  destruct (Text.selected_card s) as [sel|];
    [|intros [= <-]; split; [done | by left]].
  destruct (Text.selected_pile s) as [from_pile|];
    [|intros [= <-]; split; [done | by left]].
  destruct (Text.release_target (Text.foundation_piles s) _ _ _ _ _ _) as [i|].
  { by apply text_move_card_result_state. }
  destruct (Text.release_target (Text.tableau_piles s) _ _ _ _ _ _) as [i|].
  { by apply text_move_card_result_state. }
  intros [= <-]. split; [done | by left].
Qed.

(** An event keeps the invariant, whether its handler returns or raises;
    only a click on the deck and a restart change the deck or the waste, and
    only a restart changes the number of the foundation piles. *)
Lemma text_handle_inv e s r :
  Text.text_inv s → Text.shuffles e → Text.handle e s = Some r →
  Text.text_inv (Text.state_of r)
  ∧ ((∀ shuffle, e ≠ Text.DeckClick shuffle) →
     (∀ shuffled, e ≠ Text.RestartButton shuffled) →
     Text.deck (Text.state_of r) = Text.deck s
     ∧ Text.waste_pile (Text.state_of r) = Text.waste_pile s).
Proof.
  intros Hs He Hstep.
  destruct e as [card tag|p|shuffled x y|shuffle|shuffled| |]; simpl in *.
  - injection Hstep as <-.
    destruct (Text.on_card_click s card tag) as [s'|] eqn:Hclick; simpl.
    + unfold Text.on_card_click in Hclick. destruct tag as [|i|i j].
      * simplify_eq. split; [|done]. by apply text_select_inv.
      * destruct (Text.foundation_piles s !! i) as [pile|] eqn:Hi; simplify_eq/=.
        split; [|done]. apply text_select_inv; [done|]. intros q [= <-]. simpl. by eauto.
      * destruct (Text.tableau_piles s !! i) as [pile|] eqn:Hi; simplify_eq/=.
        split; [|done]. apply text_select_inv; [done|]. intros q [= <-]. simpl. by eauto.
    + split; [|done]. apply text_select_inv; [done|]. by destruct Hs.
  - unfold Text.select_pile in Hstep.
    destruct (Text.get_pile s p) as [pile|] eqn:Hp; simplify_eq/=.
    repeat case_match; simplify_eq/=; try done.
    split; [|done]. apply text_select_inv; [done|]. intros q [= <-]. by eauto.
  - apply text_release_result_state in Hstep as [Hstep _]; [|done].
    unfold Text.on_canvas_release in Hstep.
    destruct (Text.selected_card s) as [sel|]; [|by simplify_eq].
    destruct (Text.selected_pile s) as [from_pile|]; [|by simplify_eq].
    destruct (Text.release_target (Text.foundation_piles s) _ _ _ _ _ _) as [i|].
    { apply text_move_card_inv in Hstep as (? & ? & ?); done. }
    destruct (Text.release_target (Text.tableau_piles s) _ _ _ _ _ _) as [i|].
    { apply text_move_card_inv in Hstep as (? & ? & ?); done. }
    injection Hstep as <-. split; [|done]. by apply text_select_inv.
  - injection Hstep as <-. rewrite text_redraw_state.
    split; [by apply text_draw_from_deck_inv|].
    intros Hno _. by destruct (Hno shuffle).
  - injection Hstep as <-. rewrite text_redraw_state.
    split; [by apply text_restart_inv|].
    intros _ Hno. by destruct (Hno shuffled).
  - by simplify_eq.
  - by simplify_eq.
Qed.

Lemma text_reachable_inv s : Text.reachable s → Text.text_inv s.
Proof.
  induction 1 as [shuffled Hdeck | e s r _ IH He Hstep].
  - by apply text_init_inv.
  - by apply (text_handle_inv e s r IH He) in Hstep as [? _].
Qed.

(** ** [text.py]: what holds of the program *)

Lemma text_opening_reachable : Text.reachable text_opening.
Proof. by apply (Text.reachable_start Text.unshuffled_deck). Qed.

Lemma text_waste_selected_reachable : Text.reachable text_waste_selected.
Proof.
  apply (Text.reachable_handle
           (Text.CardClick (Text.mkCard Text.DIAMONDS Text.JACK) Text.WasteTag)
           (Text.draw_from_deck (λ l, l) text_opening)
           (Text.Returned text_waste_selected)); [|done|by vm_compute].
  apply (Text.reachable_handle (Text.DeckClick (λ l, l)) text_opening
           (Text.Returned (Text.draw_from_deck (λ l, l) text_opening)));
    [apply text_opening_reachable | by intros l | by vm_compute].
Qed.

(** X17.  The draw pile is closed.  In every state of the program, no click
    on a card or on a pile, no release and no button but the restart changes
    the deck or the waste, whether its handler returns or raises: only a
    click on the deck does.  (A click on the waste card selects a card and no
    pile, and a release without a pile returns at once; so a card that was
    drawn is never played.) *)
Theorem text_draw_pile_is_closed (s : Text.SolitaireGame) (e : Text.Event)
    (r : Text.Result) :
  Text.reachable s → Text.shuffles e → Text.handle e s = Some r →
  (∀ shuffle, e ≠ Text.DeckClick shuffle) →
  (∀ shuffled, e ≠ Text.RestartButton shuffled) →
  Text.deck (Text.state_of r) = Text.deck s
  ∧ Text.waste_pile (Text.state_of r) = Text.waste_pile s.
Proof.
  intros Hs%text_reachable_inv He Hstep Hdeck Hrestart.
  apply (text_handle_inv e s r Hs He) in Hstep as [_ Hsame]. by apply Hsame.
Qed.

Lemma text_draw_pile_is_closed_witness :
  Text.handle (Text.Release Text.unshuffled_deck 540 40) text_waste_selected
    = Some (Text.Returned text_waste_selected)
  ∧ Text.waste_pile text_waste_selected = [Text.mkCard Text.DIAMONDS Text.JACK].
Proof.
  split; [reflexivity|].
  destruct (text_draw_pile_is_closed text_waste_selected
              (Text.Release Text.unshuffled_deck 540 40)
              (Text.Returned text_waste_selected)
              text_waste_selected_reachable) as [_ Hwaste];
    [simpl; reflexivity | reflexivity | discriminate | discriminate |].
  exact Hwaste.
Defined.

(** X18.  The game is never won.  In every state of the program the test of
    [check_win] is false, so [check_win] never shows its message and never
    restarts the game: the 24 cards of the draw pile can not reach the
    foundations, and after a restart there are at least eight foundation
    piles for 52 cards. *)
Theorem text_game_is_never_won (s : Text.SolitaireGame) :
  Text.reachable s →
  Text.foundations_full s = false
  ∧ ∀ shuffled, Text.check_win shuffled s = s.
Proof.
  intros Hs%text_reachable_inv. split; [by apply text_inv_not_full|].
  intros shuffled. by apply text_check_win_inv.
Qed.

Lemma text_game_is_never_won_witness :
  Text.foundations_full text_waste_selected = false.
Proof.
  exact (proj1 (text_game_is_never_won text_waste_selected
                  text_waste_selected_reachable)).
Defined.

(** X19.  No card is lost and none is made: in every state of the program
    the deck, the waste and the piles together hold the 52 cards, each once;
    and as long as there are four foundation piles (no restart yet), deck
    and waste together hold 24 of them. *)
Theorem text_cards_are_kept (s : Text.SolitaireGame) :
  Text.reachable s →
  Text.all_cards s ≡ₚ Text.unshuffled_deck
  ∧ (length (Text.foundation_piles s) = 4%nat →
     (length (Text.deck s) + length (Text.waste_pile s) = 24)%nat).
Proof.
  intros [Hdeck Hpiles _]%text_reachable_inv. split; [done|].
  intros Hfour. destruct Hpiles as [[_ ?] | ?]; [done | lia].
Qed.

Lemma text_cards_are_kept_witness :
  Text.all_cards text_waste_selected ≡ₚ Text.unshuffled_deck.
Proof.
  exact (proj1 (text_cards_are_kept text_waste_selected
                  text_waste_selected_reachable)).
Defined.

(** X20.  A restart does not replace the piles, it adds to them: it empties
    the piles there are and appends four foundation piles and seven tableau
    piles.  From a game with seven tableau piles the deal then runs over
    fourteen piles and out of cards: the piles get 1, 2, ..., 9 and 7 cards,
    the last four none, and the deck is left empty. *)
Theorem text_restart_adds_piles (shuffled : list Text.Card) (s : Text.SolitaireGame) :
  shuffled ≡ₚ Text.unshuffled_deck →
  length (Text.tableau_piles s) = 7%nat →
  length (Text.foundation_piles (Text.restart_game shuffled s))
    = (length (Text.foundation_piles s) + 4)%nat
  ∧ Forall (λ pile, Text.cards pile = [])
      (Text.foundation_piles (Text.restart_game shuffled s))
  ∧ (length ∘ Text.cards) <$> Text.tableau_piles (Text.restart_game shuffled s)
    = [1; 2; 3; 4; 5; 6; 7; 8; 9; 7; 0; 0; 0; 0]%nat
  ∧ Text.deck (Text.restart_game shuffled s) = []
  ∧ Text.waste_pile (Text.restart_game shuffled s) = []
  ∧ Text.moves (Text.restart_game shuffled s) = 0.
Proof.
  intros Hdeck%Permutation_length Ht. rewrite text_unshuffled_length in Hdeck.
  unfold Text.restart_game, Text.initialize_game. simpl.
  set (ts := _ ++ _).
  assert (Forall (λ pile, Text.cards pile = []) ts) as Hts.
  { apply Forall_app. split; [|by repeat constructor].
    apply Forall_fmap, Forall_true. done. }
  assert (length ts = 14%nat) as Hlen.
  { unfold ts. rewrite length_app, length_fmap, Ht. done. }
  pose proof (text_deal_piles_lengths 0 shuffled ts Hts) as [Hlens Hrest].
  rewrite Hdeck, Hlen in Hlens, Hrest.
  destruct (Text.deal_piles 0 shuffled ts) as [rest dealt]. simpl in *.
  split_and!; try done.
  - rewrite length_app, length_fmap. done.
  - apply Forall_app. split; [|by repeat constructor].
    apply Forall_fmap, Forall_true. done.
  - by destruct rest.
Qed.

Lemma text_restart_adds_piles_witness :
  length (Text.foundation_piles (Text.restart_game Text.unshuffled_deck text_opening))
    = 8%nat
  ∧ Text.deck (Text.restart_game Text.unshuffled_deck text_opening) = [].
Proof.
  destruct (text_restart_adds_piles Text.unshuffled_deck text_opening)
    as (Hf & _ & _ & Hd & _); [reflexivity | reflexivity |].
  split; [exact Hf | exact Hd].
Defined.

(** ** [text.py]: a click and a release *)

Lemma text_release_target_hit piles i x0 y0 h x y k :
  (i ≤ k < i + length piles)%nat →
  x0 + Z.of_nat k * 100 < x < x0 + Z.of_nat k * 100 + Text.card_width →
  y0 < y < y0 + h →
  Text.release_target piles i x0 y0 h x y = Some k.
Proof.
  unfold Text.card_width. revert i.
  induction piles as [|pile piles IH]; intros i Hk Hx Hy;
    cbn [Text.release_target length] in *; [lia|].
  destruct (decide (i = k)) as [->|Hne].
  - by rewrite !bool_decide_true.
  - rewrite (bool_decide_false (x0 + Z.of_nat i * 100 < x < x0 + Z.of_nat i * 100 + 80))
      by lia.
    cbn [andb]. apply IH; [lia | done | done].
Qed.

Lemma text_release_target_miss piles i x0 y0 h x y :
  ¬ (y0 < y < y0 + h) → Text.release_target piles i x0 y0 h x y = None.
Proof.
  intros Hy. revert i.
  induction piles as [|pile piles IH]; intros i; cbn [Text.release_target]; [done|].
  rewrite (bool_decide_false (y0 < y < y0 + h)), andb_false_r by done. apply IH.
Qed.

(** An accepted move, in a state that keeps the invariant. *)
Lemma text_move_card_done shuffled s from_pile to_pile source target card :
  Text.text_inv s →
  Text.get_pile s from_pile = Some source →
  Text.get_pile s to_pile = Some target →
  is_Some (Text.selected_card s) →
  Text.get_top_card source = Some card →
  Text.can_accept_card target card = true →
  ∃ s', Text.move_card shuffled s from_pile to_pile = Some s'
    ∧ Text.cards <$> Text.get_pile s' from_pile = Some (py_pop (Text.cards source))
    ∧ Text.cards <$> Text.get_pile s' to_pile = Some (Text.cards target ++ [card])
    ∧ Text.moves s' = Text.moves s + 1
    ∧ Text.selected_card s' = None ∧ Text.selected_pile s' = None.
Proof.
  intros Hs Hsource Htarget [sel Hsel] Htop Haccept.
  assert (from_pile ≠ to_pile) as Hne.
  { intros ->. rewrite Hsource in Htarget. simplify_eq.
    by rewrite (text_own_pile_refuses _ _ Htop) in Haccept. }
  destruct (text_moved_inv s from_pile to_pile source target card Hs
              Hsource Htarget Htop Hne) as (Hinv & _).
  cbn zeta in Hinv.
  set (s1 := Text.set_pile s from_pile (Text.remove_card source)) in *.
  set (s2 := Text.set_pile s1 to_pile (Text.add_card target card)) in *.
  assert (Text.get_pile s1 to_pile = Some target) as Htarget1
    by (unfold s1; by rewrite text_get_set_pile_ne).
  eexists. split.
  { unfold Text.move_card. rewrite Hsource, Htarget. simpl.
    rewrite Hsel, Htop, Haccept. fold s1. rewrite Htarget1. simpl. fold s2.
    rewrite (text_check_win_inv _ _ Hinv). simpl. reflexivity. }
  split_and!; try done.
  - trans (Text.cards <$> Text.get_pile s2 from_pile); [by destruct from_pile|].
    unfold s2. rewrite text_get_set_pile_ne by done.
    unfold s1. by rewrite (text_get_set_pile_eq _ _ _ _ Hsource).
  - trans (Text.cards <$> Text.get_pile s2 to_pile); [by destruct to_pile|].
    unfold s2. by rewrite (text_get_set_pile_eq _ _ _ _ Htarget1).
  - simpl. f_equal.
    pose proof (text_set_pile_facts s from_pile (Text.remove_card source))
      as (_ & _ & _ & _ & _ & _ & Hm1).
    pose proof (text_set_pile_facts s1 to_pile (Text.add_card target card))
      as (_ & _ & _ & _ & _ & _ & Hm2).
    fold s1 in Hm1. fold s2 in Hm2. by rewrite Hm2, Hm1.
Qed.

(** X21.  A release moves the top card, whichever card was clicked.  In a
    state of the program, after a click on any card of a tableau pile (the
    tag names the pile, the card and its place are not used), a release over a
    foundation pile or a tableau pile that accepts the top card of the clicked
    pile moves that top card there, counts one move and clears the
    selection. *)
Theorem text_release_moves_the_top_card (shuffled : list Text.Card)
    (s : Text.SolitaireGame) (card : Text.Card) (i j : nat) (x y : Z)
    (source target : Text.CardPile) (rest : list Text.Card) (top : Text.Card)
    (to_pile : Text.PileRef) :
  Text.reachable s →
  Text.tableau_piles s !! i = Some source →
  Text.cards source = rest ++ [top] →
  Text.get_pile s to_pile = Some target →
  Text.can_accept_card target top = true →
  match to_pile with
  | Text.FoundationPile k =>
      530 + Z.of_nat k * 100 < x < 610 + Z.of_nat k * 100 ∧ 30 < y < 150
  | Text.TableauPile k =>
      30 + Z.of_nat k * 100 < x < 110 + Z.of_nat k * 100 ∧ 210 < y < 480
  end →
  ∃ s',
    Text.on_card_click s card (Text.TableauTag i j)
      ≫= (λ s1, Text.on_canvas_release shuffled s1 x y) = Some s'
    ∧ Text.cards <$> Text.get_pile s' (Text.TableauPile i) = Some rest
    ∧ Text.cards <$> Text.get_pile s' to_pile = Some (Text.cards target ++ [top])
    ∧ Text.moves s' = Text.moves s + 1
    ∧ Text.selected_card s' = None ∧ Text.selected_pile s' = None.
Proof.
  intros Hs%text_reachable_inv Hsource Hcards Htarget Haccept Hhit.
  unfold Text.on_card_click. rewrite Hsource. simpl.
  set (s1 := Text.select s (Some card) (Some (Text.TableauPile i))).
  assert (Text.text_inv s1) as Hs1.
  { apply text_select_inv; [done|]. intros q [= <-]. simpl. by eauto. }
  assert (Text.get_top_card source = Some top) as Htop.
  { unfold Text.get_top_card. by rewrite Hcards, last_snoc. }
  destruct (text_move_card_done shuffled s1 (Text.TableauPile i) to_pile
              source target top Hs1) as (s' & Hmove & Hfrom & Hto & Hmoves & Hsel);
    [by destruct to_pile | by destruct to_pile | by eauto | done | done |].
  exists s'. rewrite Hcards, py_pop_snoc in Hfrom. split; [|done].
  unfold Text.on_canvas_release. simpl.
  destruct to_pile as [k|k]; simpl in Htarget.
  - rewrite (text_release_target_hit _ 0 _ _ _ x y k); [done | | |].
    + apply lookup_lt_Some in Htarget. lia.
    + unfold Text.card_width. lia.
    + unfold Text.card_height. lia.
  - rewrite text_release_target_miss by (unfold Text.card_height; lia).
    rewrite (text_release_target_hit _ 0 _ _ _ x y k); [done | | |].
    + apply lookup_lt_Some in Htarget. lia.
    + unfold Text.card_width. lia.
    + unfold Text.card_height. lia.
Qed.

Lemma text_release_moves_the_top_card_witness :
  ∃ s',
    Text.on_card_click text_opening (Text.mkCard Text.SPADES Text.QUEEN)
        (Text.TableauTag 1 0)
      ≫= (λ s1, Text.on_canvas_release Text.unshuffled_deck s1 640 300) = Some s'
    ∧ Text.cards <$> Text.get_pile s' (Text.TableauPile 1)
      = Some [Text.mkCard Text.SPADES Text.QUEEN]
    ∧ last <$> (Text.cards <$> Text.get_pile s' (Text.TableauPile 6))
      = Some (Some (Text.mkCard Text.SPADES Text.JACK)).
Proof.
  destruct (text_release_moves_the_top_card Text.unshuffled_deck text_opening
              (Text.mkCard Text.SPADES Text.QUEEN) 1 0 640 300
              (Text.mkPile 1 [Text.mkCard Text.SPADES Text.QUEEN;
                              Text.mkCard Text.SPADES Text.JACK] false)
              (Text.mkPile 6 [Text.mkCard Text.CLUBS Text.FIVE;
                              Text.mkCard Text.CLUBS Text.FOUR;
                              Text.mkCard Text.CLUBS Text.THREE;
                              Text.mkCard Text.CLUBS Text.TWO;
                              Text.mkCard Text.CLUBS Text.ACE;
                              Text.mkCard Text.DIAMONDS Text.KING;
                              Text.mkCard Text.DIAMONDS Text.QUEEN] false)
              [Text.mkCard Text.SPADES Text.QUEEN] (Text.mkCard Text.SPADES Text.JACK)
              (Text.TableauPile 6) text_opening_reachable)
    as (s' & Hs' & Hfrom & Hto & _);
    [reflexivity | reflexivity | reflexivity | reflexivity | simpl; lia |].
  exists s'. split; [exact Hs'|]. split; [exact Hfrom|].
  rewrite Hto. reflexivity.
Defined.

(** ** Moving a run between columns *)

(** [move_card] with its redraw, in a state that keeps the invariant, with a
    card selected and a card on the source pile: the state it leaves. *)
Lemma text_move_card_result_spec shuffled s from_pile to_pile source target sel card :
  Text.text_inv s →
  Text.get_pile s from_pile = Some source →
  Text.get_pile s to_pile = Some target →
  Text.selected_card s = Some sel →
  Text.get_top_card source = Some card →
  ∃ s',
    Text.move_card_result shuffled s from_pile to_pile = Some (Text.redraw s')
    ∧ Text.selected_card s' = None ∧ Text.selected_pile s' = None
    ∧ Text.deck s' = Text.deck s ∧ Text.waste_pile s' = Text.waste_pile s
    ∧ if Text.can_accept_card target card then
        from_pile ≠ to_pile
        ∧ Text.cards <$> Text.get_pile s' from_pile = Some (py_pop (Text.cards source))
        ∧ Text.cards <$> Text.get_pile s' to_pile = Some (Text.cards target ++ [card])
        ∧ (∀ p, p ≠ from_pile → p ≠ to_pile → Text.get_pile s' p = Text.get_pile s p)
        ∧ Text.moves s' = Text.moves s + 1
      else s' = Text.select s None None.
Proof.
  intros Hs Hsource Htarget Hsel Htop.
  destruct (Text.can_accept_card target card) eqn:Haccept.
  - assert (from_pile ≠ to_pile) as Hne.
    { intros ->. rewrite Hsource in Htarget. simplify_eq.
      by rewrite (text_own_pile_refuses _ _ Htop) in Haccept. }
    destruct (text_moved_inv s from_pile to_pile source target card Hs
                Hsource Htarget Htop Hne) as (Hinv & Hdeck & Hwaste).
    cbn zeta in Hinv, Hdeck, Hwaste.
    set (s1 := Text.set_pile s from_pile (Text.remove_card source)) in *.
    set (s2 := Text.set_pile s1 to_pile (Text.add_card target card)) in *.
    assert (Text.get_pile s1 to_pile = Some target) as Htarget1
      by (unfold s1; by rewrite text_get_set_pile_ne).
    eexists. split.
    { unfold Text.move_card_result. rewrite Hsource, Htarget.
      cbn [mbind option_bind]. rewrite Hsel, Htop, Haccept. cbn zeta.
      fold s1. rewrite Htarget1. cbn [mbind option_bind]. fold s2.
      rewrite (text_inv_not_full _ Hinv). reflexivity. }
    split_and!; try done.
    + trans (Text.cards <$> Text.get_pile s2 from_pile); [by destruct from_pile|].
      unfold s2. rewrite text_get_set_pile_ne by done.
      unfold s1. by rewrite (text_get_set_pile_eq _ _ _ _ Hsource).
    + trans (Text.cards <$> Text.get_pile s2 to_pile); [by destruct to_pile|].
      unfold s2. by rewrite (text_get_set_pile_eq _ _ _ _ Htarget1).
    + intros p Hp1 Hp2.
      trans (Text.get_pile s2 p); [by destruct p|].
      unfold s2, s1. by rewrite !text_get_set_pile_ne.
    + simpl. f_equal.
      pose proof (text_set_pile_facts s from_pile (Text.remove_card source))
        as (_ & _ & _ & _ & _ & _ & Hm1).
      pose proof (text_set_pile_facts s1 to_pile (Text.add_card target card))
        as (_ & _ & _ & _ & _ & _ & Hm2).
      fold s1 in Hm1. fold s2 in Hm2. by rewrite Hm2, Hm1.
  - exists (Text.select s None None). split; [|done].
    unfold Text.move_card_result. rewrite Hsource, Htarget.
    cbn [mbind option_bind]. by rewrite Hsel, Htop, Haccept.
Qed.

(** In [text.py] the card that was clicked is not the card [move_card] tests
    and moves.  In a state of the program pile 6 ends in K♦ Q♦ J♠ and pile 0
    is K♠: Q♦, at index 6 of pile 6, may go onto pile 0, yet after a click on
    Q♦ a [move_card] from pile 6 to pile 0, and so a release over pile 0,
    moves nothing, for it tests J♠.  And as the window opens pile 1 is Q♠ J♠
    and pile 6 ends in Q♦: Q♠, at index 0 of pile 1, may not go onto pile 6,
    yet after a click on Q♠ a [move_card] from pile 1 to pile 6 moves a card,
    and it moves J♠ alone, not Q♠ J♠. *)
Lemma text_move_card_moves_no_run :
  let queen_d := Text.mkCard Text.DIAMONDS Text.QUEEN in
  let queen_s := Text.mkCard Text.SPADES Text.QUEEN in
  let jack_s := Text.mkCard Text.SPADES Text.JACK in
  Text.reachable text_jack_moved
  ∧ (∃ pile6 pile0,
       Text.get_pile text_jack_moved (Text.TableauPile 6) = Some pile6
       ∧ Text.get_pile text_jack_moved (Text.TableauPile 0) = Some pile0
       ∧ drop 6 (Text.cards pile6) = [queen_d; jack_s]
       ∧ Text.can_accept_card pile0 queen_d = true
       ∧ ∀ shuffled,
           Text.handle (Text.CardClick queen_d (Text.TableauTag 6 6)) text_jack_moved
           = Some (Text.Returned
                     (Text.select text_jack_moved (Some queen_d)
                        (Some (Text.TableauPile 6))))
           ∧ Text.move_card_result shuffled
               (Text.select text_jack_moved (Some queen_d) (Some (Text.TableauPile 6)))
               (Text.TableauPile 6) (Text.TableauPile 0)
             = Some (Text.Returned text_jack_moved)
           ∧ Text.handle (Text.Release shuffled 40 300)
               (Text.select text_jack_moved (Some queen_d) (Some (Text.TableauPile 6)))
             = Some (Text.Returned text_jack_moved))
  ∧ (∃ pile1 pile6,
       Text.get_pile text_opening (Text.TableauPile 1) = Some pile1
       ∧ Text.get_pile text_opening (Text.TableauPile 6) = Some pile6
       ∧ Text.cards pile1 = [queen_s; jack_s]
       ∧ Text.can_accept_card pile6 queen_s = false
       ∧ ∀ shuffled,
           Text.handle (Text.CardClick queen_s (Text.TableauTag 1 0)) text_opening
           = Some (Text.Returned
                     (Text.select text_opening (Some queen_s)
                        (Some (Text.TableauPile 1))))
           ∧ Text.move_card_result shuffled
               (Text.select text_opening (Some queen_s) (Some (Text.TableauPile 1)))
               (Text.TableauPile 1) (Text.TableauPile 6)
             = Some (Text.Returned text_jack_moved)
           ∧ Text.cards <$> Text.get_pile text_jack_moved (Text.TableauPile 1)
             = Some [queen_s]
           ∧ Text.moves text_jack_moved = Text.moves text_opening + 1).
Proof.
  intros queen_d queen_s jack_s. split_and!.
  - apply (Text.reachable_handle (Text.Release Text.unshuffled_deck 640 300)
             (Text.select text_opening (Some jack_s) (Some (Text.TableauPile 1)))
             (Text.Returned text_jack_moved));
      [|simpl; reflexivity|by vm_compute].
    apply (Text.reachable_handle (Text.CardClick jack_s (Text.TableauTag 1 1))
             text_opening
             (Text.Returned
                (Text.select text_opening (Some jack_s) (Some (Text.TableauPile 1)))));
      [apply text_opening_reachable | done | by vm_compute].
  - eexists _, _. split_and!; [reflexivity | reflexivity | reflexivity | reflexivity |].
    intros shuffled. split_and!; by vm_compute.
  - eexists _, _. split_and!; [reflexivity | reflexivity | reflexivity | reflexivity |].
    intros shuffled. split_and!; by vm_compute.
Qed.

(** C4, as amended.  In [solitaire_tkinter (1).py], in every state of a game,
    [move_to_tableau] from a column succeeds exactly when [from_pile] is a
    column, [card_idx] reads a face-up card of it and the target column passes
    [can_place_on_tableau] for that card.  When it succeeds, source and target
    are two columns; the target holds its old cards followed by the run
    [pile[card_idx:]] in its order, the source holds the cards before the run,
    its new top card (if any) face up and its other cards as they were;
    nothing else changes and the move counter goes up by one.  In [text.py],
    [move_card] takes no card index and moves no run: in every state of the
    program, with a card selected (whichever it is) and a card on the source
    pile, it tests the top card of the source pile against [can_accept_card]
    of the target; when the test passes it moves that one card to the target,
    counts one move and leaves the other piles alone, and when it fails it
    changes no pile and no counter; either way it clears the selection and
    ends in the redraw.  No card of [text.py] lies face down, and none is
    turned. *)
Theorem move_tableau_run_spec :
  (∀ (s : SolitaireGame) (from to_pile_idx card_idx : Z),
     reachable s →
     let r := move_to_tableau s (FromTableau from) to_pile_idx card_idx in
     (r.1 = Ret true ↔
        ∃ src target c,
          0 ≤ from < 7
          ∧ tableau s !! Z.to_nat from = Some src
          ∧ py_get (tableau s) to_pile_idx = Some target
          ∧ py_get src card_idx = Some c
          ∧ face_up c = true
          ∧ can_place_on_tableau c target = true)
     ∧ (r.1 = Ret true →
          ∃ src target kt,
            tableau s !! Z.to_nat from = Some src
            ∧ py_pos (length (tableau s)) to_pile_idx = Some kt
            ∧ tableau s !! kt = Some target
            ∧ kt ≠ Z.to_nat from
            ∧ src = py_del_from src card_idx ++ py_slice_from src card_idx
            ∧ tableau r.2 !! kt = Some (target ++ py_slice_from src card_idx)
            ∧ tableau r.2 !! Z.to_nat from = Some (reveal_top (py_del_from src card_idx))
            ∧ (∀ j, j ≠ kt → j ≠ Z.to_nat from → tableau r.2 !! j = tableau s !! j)
            ∧ length (tableau r.2) = length (tableau s)
            ∧ stock r.2 = stock s ∧ waste r.2 = waste s
            ∧ foundations r.2 = foundations s
            ∧ moves r.2 = moves s + 1)
     ∧ (∀ pile,
          last (reveal_top pile) = set_face true <$> last pile
          ∧ py_pop (reveal_top pile) = py_pop pile))
  ∧ (∀ shuffled (s : Text.SolitaireGame) from_pile to_pile source target sel card,
       Text.reachable s →
       Text.get_pile s from_pile = Some source →
       Text.get_pile s to_pile = Some target →
       Text.selected_card s = Some sel →
       Text.get_top_card source = Some card →
       ∃ s',
         Text.move_card_result shuffled s from_pile to_pile = Some (Text.redraw s')
         ∧ Text.selected_card s' = None ∧ Text.selected_pile s' = None
         ∧ Text.deck s' = Text.deck s ∧ Text.waste_pile s' = Text.waste_pile s
         ∧ if Text.can_accept_card target card then
             from_pile ≠ to_pile
             ∧ Text.cards <$> Text.get_pile s' from_pile
               = Some (py_pop (Text.cards source))
             ∧ Text.cards <$> Text.get_pile s' to_pile
               = Some (Text.cards target ++ [card])
             ∧ (∀ p, p ≠ from_pile → p ≠ to_pile →
                     Text.get_pile s' p = Text.get_pile s p)
             ∧ Text.moves s' = Text.moves s + 1
           else s' = Text.select s None None).
Proof.
  split.
  - intros s from to_pile_idx card_idx Hs r. split_and!.
    + apply move_from_tableau_outcome.
    + intros Hr. destruct r as [o s'] eqn:Hm. simpl in Hr. subst o. unfold r in Hm.
      apply reachable_game_inv in Hs as [_ _ _ Hc _ _].
      apply move_from_tableau_true_inv in Hm
        as (src & target & kt & k & c & Hrange & Hsrc & Hkt & Htk & Hk & Hck & Hup & Hp
            & Hne & ->); [|done].
      exists src, target, kt. simpl.
      unfold py_del_from, py_slice_from. rewrite (py_start_pos _ _ _ Hk).
      assert (kt < length (tableau s))%nat by (by eapply lookup_lt_Some).
      assert (Z.to_nat from < length (tableau s))%nat by (by eapply lookup_lt_Some).
      split_and!; try done.
      * by rewrite take_drop.
      * rewrite list_lookup_insert_ne by done. by rewrite list_lookup_insert_eq.
      * rewrite list_lookup_insert_eq; [done|]. by rewrite length_insert.
      * intros j Hj1 Hj2. by rewrite !list_lookup_insert_ne.
      * by rewrite !length_insert.
    + intros pile. split; [apply reveal_top_last|].
      destruct pile as [|c pile _] using rev_ind; [done|].
      by rewrite reveal_top_snoc, !py_pop_snoc.
  - intros shuffled s from_pile to_pile source target sel card Hs%text_reachable_inv.
    by apply text_move_card_result_spec.
Qed.

(** The window as it opens, after a click on Q♠, the card under J♠ in
    pile 1. *)
Lemma text_queen_clicked_reachable :
  Text.reachable
    (Text.select text_opening (Some (Text.mkCard Text.SPADES Text.QUEEN))
       (Some (Text.TableauPile 1))).
Proof.
  apply (Text.reachable_handle
           (Text.CardClick (Text.mkCard Text.SPADES Text.QUEEN) (Text.TableauTag 1 0))
           text_opening
           (Text.Returned
              (Text.select text_opening (Some (Text.mkCard Text.SPADES Text.QUEEN))
                 (Some (Text.TableauPile 1)))));
    [apply text_opening_reachable | done | by vm_compute].
Qed.

Lemma move_tableau_run_spec_witness :
  (reachable run_built
   ∧ (move_to_tableau run_built (FromTableau 2) 3 2).1 = Ret true
   ∧ tableau (move_to_tableau run_built (FromTableau 2) 3 2).2 !! 3%nat
     = Some [mkCard CLUB R4 false; mkCard CLUB R3 false; mkCard CLUB R2 false;
             mkCard CLUB R10 true;
             mkCard DIAMOND R9 true; mkCard SPADE R8 true; mkCard HEART R7 true]
   ∧ tableau (move_to_tableau run_built (FromTableau 2) 3 2).2 !! 2%nat
     = Some [mkCard CLUB RQ false; mkCard CLUB RJ true]
   ∧ moves (move_to_tableau run_built (FromTableau 2) 3 2).2 = moves run_built + 1)
  ∧ (∃ s',
       Text.move_card_result Text.unshuffled_deck
         (Text.select text_opening (Some (Text.mkCard Text.SPADES Text.QUEEN))
            (Some (Text.TableauPile 1)))
         (Text.TableauPile 1) (Text.TableauPile 6) = Some (Text.redraw s')
       ∧ Text.cards <$> Text.get_pile s' (Text.TableauPile 1)
         = Some [Text.mkCard Text.SPADES Text.QUEEN]
       ∧ Text.moves s' = 1).
Proof.
  split.
  - pose proof (proj1 move_tableau_run_spec run_built 2 3 2 run_built_reachable)
      as (_ & H & _).
    split; [exact run_built_reachable|].
    split; [reflexivity|].
    destruct (H eq_refl)
      as (src & target & kt & Hsrc & Hkt & Htarget & _ & _ & H1 & H2 & _ & _ & _ & _
          & _ & H3).
    injection Hsrc as <-. injection Hkt as <-. injection Htarget as <-.
    split; [exact H1|]. split; [exact H2 | exact H3].
  - destruct (proj2 move_tableau_run_spec Text.unshuffled_deck
                (Text.select text_opening (Some (Text.mkCard Text.SPADES Text.QUEEN))
                   (Some (Text.TableauPile 1)))
                (Text.TableauPile 1) (Text.TableauPile 6)
                (Text.mkPile 1 [Text.mkCard Text.SPADES Text.QUEEN;
                                Text.mkCard Text.SPADES Text.JACK] false)
                (Text.mkPile 6 [Text.mkCard Text.CLUBS Text.FIVE;
                                Text.mkCard Text.CLUBS Text.FOUR;
                                Text.mkCard Text.CLUBS Text.THREE;
                                Text.mkCard Text.CLUBS Text.TWO;
                                Text.mkCard Text.CLUBS Text.ACE;
                                Text.mkCard Text.DIAMONDS Text.KING;
                                Text.mkCard Text.DIAMONDS Text.QUEEN] false)
                (Text.mkCard Text.SPADES Text.QUEEN) (Text.mkCard Text.SPADES Text.JACK)
                text_queen_clicked_reachable eq_refl eq_refl eq_refl eq_refl)
      as (s' & Hmove & _ & _ & _ & _ & _ & Hfrom & _ & _ & Hmoves).
    exists s'. split; [exact Hmove|]. split; [exact Hfrom | exact Hmoves].
Defined.

(** ** [text.py]: the first deal *)

Lemma text_deal_lengths_sum i n m :
  sum_list (Text.deal_lengths i n m) = Nat.min n (cards_needed i m).
Proof.
  revert i n. induction m as [|m IH]; intros i n;
    cbn [Text.deal_lengths cards_needed sum_list_with]; [lia|].
  rewrite IH. unfold id. lia.
Qed.

(** The piles of a deal, pile after pile, are the deck read from its end. *)
Lemma text_deal_piles_order i cs piles :
  Forall (λ pile, Text.cards pile = []) piles →
  reverse cs
  = Text.pile_cards (Text.deal_piles i cs piles).2
    ++ reverse (Text.deal_piles i cs piles).1.
Proof.
  revert i cs. induction piles as [|pile piles IH]; intros i cs Hempty.
  - simpl. done.
  - apply Forall_cons in Hempty as [Hpile Hempty].
    cbn [Text.deal_piles]. rewrite text_deal_pile_spec.
    specialize (IH (S i) (take (length cs - S i) cs) Hempty).
    destruct (Text.deal_piles (S i) (take (length cs - S i) cs) piles) as [cs2 rest].
    unfold Text.pile_cards in *. cbn [fst snd] in *. csimpl.
    rewrite Hpile, app_nil_l, <- (assoc_L (++)), <- IH, <- reverse_app.
    by rewrite take_drop.
Qed.

(** X22.  The first deal never fails and follows the deck from its end.
    For any deck, [__init__] makes four empty foundation piles and seven
    tableau piles; read from its last card backwards the deck is pile 0,
    pile 1, ..., pile 6 (each from its bottom up) and then what is left of
    the deck from its top down; pile i gets i+1 cards as long as the deck
    lasts (with 28 cards or more: 1, 2, ..., 7, and the deck keeps the
    others), and a deck that runs out just leaves the later piles short,
    where the other program raises. *)
Theorem text_deal_spec (shuffled : list Text.Card) :
  Text.foundation_piles (Text.init shuffled)
    = (λ i, Text.mkPile (Z.of_nat i) [] true) <$> seq 0 4
  ∧ length (Text.tableau_piles (Text.init shuffled)) = 7%nat
  ∧ reverse shuffled
    = Text.pile_cards (Text.tableau_piles (Text.init shuffled))
      ++ reverse (Text.deck (Text.init shuffled))
  ∧ (length ∘ Text.cards) <$> Text.tableau_piles (Text.init shuffled)
    = Text.deal_lengths 0 (length shuffled) 7
  ∧ length (Text.deck (Text.init shuffled)) = (length shuffled - 28)%nat
  ∧ ((28 ≤ length shuffled)%nat →
     (length ∘ Text.cards) <$> Text.tableau_piles (Text.init shuffled)
     = [1; 2; 3; 4; 5; 6; 7]%nat)
  ∧ Text.waste_pile (Text.init shuffled) = []
  ∧ Text.moves (Text.init shuffled) = 0
  ∧ Text.selected_pile (Text.init shuffled) = None.
Proof.
  unfold Text.init, Text.initialize_game. cbn [Text.deck Text.tableau_piles app].
  set (ts := (λ i, Text.mkPile (Z.of_nat i) [] false) <$> seq 0 7).
  assert (Forall (λ pile, Text.cards pile = []) ts) as Hts by (by repeat constructor).
  pose proof (text_deal_piles_length 0 shuffled ts) as Hlen.
  pose proof (text_deal_piles_order 0 shuffled ts Hts) as Horder.
  pose proof (text_deal_piles_lengths 0 shuffled ts Hts) as [Hlens Hrest].
  rewrite text_deal_lengths_sum in Hrest.
  change (length ts) with 7%nat in *. change (cards_needed 0 7) with 28%nat in Hrest.
  destruct (Text.deal_piles 0 shuffled ts) as [rest dealt]. cbn [fst snd] in *.
  simpl. split_and!; try done.
  - lia.
  - intros Hlong. rewrite Hlens. cbn [Text.deal_lengths].
    repeat (rewrite Nat.min_l by lia). done.
Qed.

(** ** [text.py]: the hint *)

Lemma text_some_accepts piles card :
  Text.some_accepts piles card = true ↔
  ∃ pile, pile ∈ piles ∧ Text.can_accept_card pile card = true.
Proof.
  induction piles as [|pile piles IH]; simpl.
  - split; [done|]. intros (pile & Hin & _). by apply elem_of_nil in Hin.
  - destruct (Text.can_accept_card pile card) eqn:Hacc.
    + split; [|done]. intros _. exists pile. split; [by apply elem_of_cons; left | done].
    + rewrite IH. split.
      * intros (p & Hin & Hp). exists p. split; [by apply elem_of_cons; right | done].
      * intros (p & [-> | Hin]%elem_of_cons & Hp); [congruence|]. by exists p.
Qed.

(** What the last loop of [show_hint] gives, from pile [i] on: the first
    pile whose top card a foundation accepts. *)
Lemma text_tableau_hint_spec fs piles i :
  match Text.tableau_hint fs piles i with
  | Text.TableauToFoundation k card =>
      (i ≤ k)%nat
      ∧ (∃ t, piles !! (k - i)%nat = Some t ∧ Text.get_top_card t = Some card)
      ∧ Text.some_accepts fs card = true
      ∧ ∀ j t c, (j < k - i)%nat → piles !! j = Some t →
                 Text.get_top_card t = Some c → Text.some_accepts fs c = false
  | Text.NoHint =>
      ∀ t c, t ∈ piles → Text.get_top_card t = Some c →
             Text.some_accepts fs c = false
  | _ => False
  end.
Proof.
  revert i. induction piles as [|t piles IH]; intros i; simpl.
  - intros t c Hin. by apply elem_of_nil in Hin.
  - assert ((if Text.is_empty t then None else Text.get_top_card t)
            = Text.get_top_card t) as ->.
    { destruct (Text.is_empty t) eqn:Hempty; [|done].
      apply text_pile_empty in Hempty. unfold Text.get_top_card. by rewrite Hempty. }
    destruct (Text.get_top_card t) as [card|] eqn:Htop.
    + destruct (Text.some_accepts fs card) eqn:Hacc.
      * split_and!; [lia | | done |].
        -- exists t. by rewrite Nat.sub_diag.
        -- intros j t' c Hj. lia.
      * specialize (IH (S i)).
        destruct (Text.tableau_hint fs piles (S i)) as [| |k card'|]; try done.
        -- destruct IH as (Hk & (t' & Ht' & Htop') & Hacc' & Hfirst).
           split_and!; [lia | | done |].
           ++ exists t'. replace (k - i)%nat with (S (k - S i)) by lia. done.
           ++ intros j t'' c Hj Hlook Htop''. destruct j as [|j]; simpl in Hlook.
              ** by simplify_eq.
              ** apply (Hfirst j t'' c); [lia | done | done].
        -- intros t' c [-> | Hin]%elem_of_cons Htop'; [by simplify_eq|].
           by apply (IH t' c).
    + specialize (IH (S i)).
      destruct (Text.tableau_hint fs piles (S i)) as [| |k card'|]; try done.
      * destruct IH as (Hk & (t' & Ht' & Htop') & Hacc' & Hfirst).
        split_and!; [lia | | done |].
        -- exists t'. replace (k - i)%nat with (S (k - S i)) by lia. done.
        -- intros j t'' c Hj Hlook Htop''. destruct j as [|j]; simpl in Hlook.
           ++ by simplify_eq.
           ++ apply (Hfirst j t'' c); [lia | done | done].
      * intros t' c [-> | Hin]%elem_of_cons Htop'; [by simplify_eq|].
        by apply (IH t' c).
Qed.

(** X23.  What [show_hint] looks for.  It proposes the top card of the
    waste for a foundation when some foundation pile accepts it, else for
    the tableau when some tableau pile accepts it; else the top card of the
    first tableau pile whose top card some foundation pile accepts; and it
    reports no move exactly when there is none of these three kinds.  A move
    from one tableau pile to another is never looked for. *)
Theorem text_hint_spec (s : Text.SolitaireGame) :
  match Text.show_hint s with
  | Text.WasteToFoundation card =>
      last (Text.waste_pile s) = Some card
      ∧ ∃ f, f ∈ Text.foundation_piles s ∧ Text.can_accept_card f card = true
  | Text.WasteToTableau card =>
      last (Text.waste_pile s) = Some card
      ∧ (∀ f, f ∈ Text.foundation_piles s → Text.can_accept_card f card = false)
      ∧ ∃ t, t ∈ Text.tableau_piles s ∧ Text.can_accept_card t card = true
  | Text.TableauToFoundation i card =>
      (∀ c p, last (Text.waste_pile s) = Some c →
              p ∈ Text.foundation_piles s ++ Text.tableau_piles s →
              Text.can_accept_card p c = false)
      ∧ (∃ t, Text.tableau_piles s !! i = Some t ∧ Text.get_top_card t = Some card)
      ∧ (∃ f, f ∈ Text.foundation_piles s ∧ Text.can_accept_card f card = true)
      ∧ ∀ j t c f, (j < i)%nat → Text.tableau_piles s !! j = Some t →
                   Text.get_top_card t = Some c → f ∈ Text.foundation_piles s →
                   Text.can_accept_card f c = false
  | Text.NoHint =>
      (∀ c p, last (Text.waste_pile s) = Some c →
              p ∈ Text.foundation_piles s ++ Text.tableau_piles s →
              Text.can_accept_card p c = false)
      ∧ ∀ t c f, t ∈ Text.tableau_piles s → Text.get_top_card t = Some c →
                 f ∈ Text.foundation_piles s → Text.can_accept_card f c = false
  end.
Proof.
  assert (∀ piles c, Text.some_accepts piles c = false →
            ∀ p, p ∈ piles → Text.can_accept_card p c = false) as Hnone.
  { intros piles c Hfalse p Hp.
    destruct (Text.can_accept_card p c) eqn:Hacc; [|done].
    rewrite <- Hfalse. symmetry. apply text_some_accepts. by exists p. }
  unfold Text.show_hint.
  pose proof (text_tableau_hint_spec (Text.foundation_piles s) (Text.tableau_piles s) 0)
    as Htab.
  assert (match Text.tableau_hint (Text.foundation_piles s) (Text.tableau_piles s) 0 with
          | Text.TableauToFoundation i card =>
              (∃ t, Text.tableau_piles s !! i = Some t ∧ Text.get_top_card t = Some card)
              ∧ (∃ f, f ∈ Text.foundation_piles s ∧ Text.can_accept_card f card = true)
              ∧ ∀ j t c f, (j < i)%nat → Text.tableau_piles s !! j = Some t →
                  Text.get_top_card t = Some c → f ∈ Text.foundation_piles s →
                  Text.can_accept_card f c = false
          | Text.NoHint =>
              ∀ t c f, t ∈ Text.tableau_piles s → Text.get_top_card t = Some c →
                f ∈ Text.foundation_piles s → Text.can_accept_card f c = false
          | _ => False
          end) as Htab'.
  { destruct (Text.tableau_hint _ _ 0) as [| |i card|]; try done.
    - destruct Htab as (_ & Ht & Hacc%text_some_accepts & Hfirst).
      rewrite Nat.sub_0_r in Ht. split_and!; [done | done |].
      intros j t c f Hj Hlook Htop Hf. apply (Hnone (Text.foundation_piles s) c); [|done].
      apply (Hfirst j t c); [lia | done | done].
    - intros t c f Ht Htop Hf. apply (Hnone (Text.foundation_piles s) c); [|done].
      by apply (Htab t c). }
  clear Htab.
  destruct (last (Text.waste_pile s)) as [card|] eqn:Hlast.
  - destruct (Text.some_accepts (Text.foundation_piles s) card) eqn:Hf.
    { split; [done|]. by apply text_some_accepts. }
    destruct (Text.some_accepts (Text.tableau_piles s) card) eqn:Ht.
    { split_and!; [done | by apply Hnone | by apply text_some_accepts]. }
    assert (∀ c p, Some card = Some c →
              p ∈ Text.foundation_piles s ++ Text.tableau_piles s →
              Text.can_accept_card p c = false) as Hwaste.
    { intros c p [= <-] [Hp | Hp]%elem_of_app;
        [by apply (Hnone _ _ Hf) | by apply (Hnone _ _ Ht)]. }
    destruct (Text.tableau_hint _ _ 0) as [| |i card'|]; try done.
  - destruct (Text.tableau_hint _ _ 0) as [| |i card'|]; try done.
Qed.

(** ** [text.py]: where a handler raises *)

Lemma text_release_target_lt piles i x0 y0 h x y k :
  Text.release_target piles i x0 y0 h x y = Some k → (i ≤ k < i + length piles)%nat.
Proof.
  revert i. induction piles as [|pile piles IH]; intros i;
    cbn [Text.release_target length]; [done|].
  case_match.
  - intros [= <-]. lia.
  - intros Hk%IH. lia.
Qed.

Lemma text_move_card_result_is_Some shuffled s from_pile to_pile :
  is_Some (Text.get_pile s from_pile) → is_Some (Text.get_pile s to_pile) →
  is_Some (Text.move_card_result shuffled s from_pile to_pile).
Proof.
  intros [source Hsource] [target Htarget]. unfold Text.move_card_result.
  rewrite Hsource, Htarget. cbn [mbind option_bind].
  destruct (Text.selected_card s); [|by eauto].
  destruct (Text.get_top_card source) as [card|]; [|by eauto].
  destruct (Text.can_accept_card target card); [|by eauto].
  destruct (text_set_pile_is_Some s from_pile (Text.remove_card source) to_pile)
    as [target1 ->]; [by eauto|]. cbn [mbind option_bind].
  by destruct (Text.foundations_full _); eauto.
Qed.

(** A move leaves the foundation piles there are. *)
Lemma text_move_card_piles shuffled s from_pile to_pile s' :
  Text.text_inv s →
  Text.move_card shuffled s from_pile to_pile = Some s' →
  length (Text.foundation_piles s') = length (Text.foundation_piles s).
Proof.
  intros Hs Hmove.
  apply text_move_card_cases in Hmove
    as [-> | [-> | (source & target & card & Hsource & Htarget & _ & Htop & _ & Hne & Hs')]];
    [done | done |].
  destruct (text_moved_inv s from_pile to_pile source target card Hs
              Hsource Htarget Htop Hne) as (Hinv & _).
  cbn zeta in Hs', Hinv.
  rewrite (text_check_win_inv _ _ Hinv) in Hs'. subst s'. simpl.
  pose proof (text_set_pile_facts s from_pile (Text.remove_card source))
    as (_ & _ & Hf1 & _).
  pose proof (text_set_pile_facts
                (Text.set_pile s from_pile (Text.remove_card source)) to_pile
                (Text.add_card target card)) as (_ & _ & Hf2 & _).
  by rewrite Hf2, Hf1.
Qed.

(** X24.  Where a handler raises.  The only statement of the handlers that
    can raise on what the canvas sends is [list(Suit)[i]] in [draw_game], for
    an empty foundation pile past the fourth.  So in every state of the
    program the restart button raises [IndexError]: [restart_game] has
    rebuilt the state by then, with the old foundation piles emptied and four
    more appended, and its redraw stops at the fifth.  And as long as there
    are four foundation piles (no restart yet) no handler raises: a click on
    a card whose tag names a pile there is, a click on the place of a pile,
    a release anywhere, a click on the deck, the hint and the undo button all
    return. *)
Theorem text_restart_raises (s : Text.SolitaireGame) (e : Text.Event) :
  Text.reachable s →
  match e with
  | Text.CardClick _ (Text.FoundationTag i) =>
      (i < length (Text.foundation_piles s))%nat
  | Text.CardClick _ (Text.TableauTag i _) =>
      (i < length (Text.tableau_piles s))%nat
  | Text.PileClick p => is_Some (Text.get_pile s p)
  | _ => True
  end →
  ∃ r, Text.handle e s = Some r
    ∧ match e with
      | Text.RestartButton shuffled =>
          r = Text.Raised (Text.restart_game shuffled s)
      | _ =>
          length (Text.foundation_piles s) = 4%nat →
          r = Text.Returned (Text.state_of r)
      end.
Proof.
  intros Hs%text_reachable_inv He. pose proof Hs as [_ Hpiles Hsel].
  destruct e as [card tag|p|shuffled x y|shuffle|shuffled| |]; simpl.
  - eexists. split; [done|]. intros _.
    unfold Text.on_card_click. destruct tag as [|i|i j]; [done | |].
    + apply lookup_lt_is_Some in He as [pile ->]. done.
    + apply lookup_lt_is_Some in He as [pile ->]. done.
  - unfold Text.select_pile. destruct He as [pile ->]. cbn [mbind option_bind].
    repeat case_match; (eexists; split; [done | done]).
  - assert (is_Some (Text.on_canvas_release_result shuffled s x y)) as [r Hr].
    { unfold Text.on_canvas_release_result.
      destruct (Text.selected_card s) as [sel|]; [|by eauto].
      destruct (Text.selected_pile s) as [from_pile|] eqn:Hfrom; [|by eauto].
      specialize (Hsel from_pile eq_refl).
      destruct (Text.release_target (Text.foundation_piles s) _ _ _ _ _ _)
        as [i|] eqn:Hf.
      { apply text_release_target_lt in Hf.
        apply text_move_card_result_is_Some; [done|].
        simpl. apply lookup_lt_is_Some. lia. }
      destruct (Text.release_target (Text.tableau_piles s) _ _ _ _ _ _)
        as [i|] eqn:Ht.
      { apply text_release_target_lt in Ht.
        apply text_move_card_result_is_Some; [done|].
        simpl. apply lookup_lt_is_Some. lia. }
      by eauto. }
    exists r. split; [done|]. intros Hfour.
    apply (text_release_result_state shuffled s x y r Hs) in Hr
      as [Hstate [Hr | Hr]]; [done|].
    rewrite Hr at 1. clear Hr. apply text_redraw_four. rewrite <- Hfour.
    unfold Text.on_canvas_release in Hstate.
    destruct (Text.selected_card s) as [sel|]; [|by injection Hstate as <-].
    destruct (Text.selected_pile s) as [from_pile|]; [|by injection Hstate as <-].
    destruct (Text.release_target (Text.foundation_piles s) _ _ _ _ _ _) as [i|].
    { by eapply text_move_card_piles. }
    destruct (Text.release_target (Text.tableau_piles s) _ _ _ _ _ _) as [i|].
    { by eapply text_move_card_piles. }
    by injection Hstate as <-.
  - eexists. split; [done|]. intros Hfour. rewrite text_redraw_state.
    apply text_redraw_four. rewrite <- Hfour.
    unfold Text.draw_from_deck. by destruct (Text.draw (Text.deck s)) as [[c|] rest].
  - eexists. split; [done|]. apply text_restart_redraw. lia.
  - eexists. split; [done|]. done.
  - eexists. split; [done|]. done.
Qed.

Lemma text_restart_raises_witness :
  Text.handle (Text.RestartButton Text.unshuffled_deck) text_opening
    = Some (Text.Raised (Text.restart_game Text.unshuffled_deck text_opening))
  ∧ Text.handle (Text.DeckClick (λ l, l)) text_opening
    = Some (Text.Returned (Text.draw_from_deck (λ l, l) text_opening)).
Proof.
  destruct (text_restart_raises text_opening
              (Text.RestartButton Text.unshuffled_deck) text_opening_reachable I)
    as (r1 & H1 & ->).
  destruct (text_restart_raises text_opening (Text.DeckClick (λ l, l))
              text_opening_reachable I) as (r2 & H2 & Hr2).
  split; [exact H1|]. rewrite H2. f_equal.
  injection H2 as <-. reflexivity.
Defined.

(** ** The board: where a click lands *)

Lemma inside_true x y x1 y1 x2 y2 :
  GUI.inside x y (x1, y1, x2, y2) = true ↔ x1 ≤ x ≤ x2 ∧ y1 ≤ y ≤ y2.
Proof. unfold GUI.inside. by rewrite andb_true_iff, !bool_decide_eq_true. Qed.

Lemma foundation_coords_elem g i n x0 y0 l name r :
  GUI.foundation_coords g i n x0 y0 = Some l →
  (name, r) ∈ l ↔
  ∃ k, (i ≤ k < i + n)%nat ∧ name = GUI.Foundation k
       ∧ r = GUI.card_rect (x0 + 90 * Z.of_nat (k - i)) y0.
Proof.
  revert i x0 l. induction n as [|n IH]; intros i x0 l; cbn [GUI.foundation_coords].
  - intros [= <-]. split; [by intros ?%elem_of_nil | intros (k & ? & _); lia].
  - destruct (foundations g !! i); cbn [mbind option_bind]; [|done].
    destruct (GUI.foundation_coords g (S i) n _ y0) as [rest|] eqn:Hrest;
      cbn [mbind option_bind]; [|done].
    intros [= <-]. rewrite elem_of_cons, (IH _ _ _ Hrest). split.
    + intros [[= -> ->] | (k & Hk & -> & ->)].
      * exists i. split_and!; [lia | lia | done |]. rewrite Nat.sub_diag. f_equal. lia.
      * exists k. split_and!; [lia | lia | done |]. f_equal. unfold GUI.CARD_WIDTH. lia.
    + intros (k & Hk & -> & ->). destruct (decide (k = i)) as [->|Hne].
      * left. rewrite Nat.sub_diag. do 2 f_equal. lia.
      * right. exists k. split_and!; [lia | lia | done |]. f_equal.
        unfold GUI.CARD_WIDTH. lia.
Qed.

Lemma rect_eq (a b c d a' b' c' d' : Z) :
  a = a' → b = b' → c = c' → d = d' → (a, b, c, d) = (a', b', c', d').
Proof. by intros -> -> -> ->. Qed.

Lemma tableau_coords_elem g i n x0 y0 l name r :
  GUI.tableau_coords g i n x0 y0 = Some l →
  (name, r) ∈ l ↔
  ∃ k pile, (i ≤ k < i + n)%nat ∧ tableau g !! k = Some pile
       ∧ name = GUI.Tableau k
       ∧ r = (x0 + 90 * Z.of_nat (k - i), y0, x0 + 90 * Z.of_nat (k - i) + 80,
              y0 + 120 + 30 * Z.of_nat (length pile)).
Proof.
  revert i x0 l. induction n as [|n IH]; intros i x0 l; cbn [GUI.tableau_coords].
  - intros [= <-]. split; [by intros ?%elem_of_nil | intros (k & ? & ? & _); lia].
  - destruct (tableau g !! i) as [pile|] eqn:Hpile; cbn [mbind option_bind]; [|done].
    destruct (GUI.tableau_coords g (S i) n _ y0) as [rest|] eqn:Hrest;
      cbn [mbind option_bind]; [|done].
    assert (match pile with
            | [] => GUI.card_rect x0 y0
            | _ :: _ => (x0, y0, x0 + GUI.CARD_WIDTH,
                         y0 + Z.of_nat (length pile) * GUI.CARD_GAP + GUI.CARD_HEIGHT)
            end
            = (x0 + 90 * Z.of_nat (i - i), y0, x0 + 90 * Z.of_nat (i - i) + 80,
               y0 + 120 + 30 * Z.of_nat (length pile))) as Hrect.
    { rewrite Nat.sub_diag.
      unfold GUI.card_rect, GUI.CARD_WIDTH, GUI.CARD_GAP, GUI.CARD_HEIGHT.
      destruct pile; cbn [length]; apply rect_eq; lia. }
    intros [= <-]. rewrite elem_of_cons, (IH _ _ _ Hrest), Hrect. split.
    + intros [[= -> ->] | (k & p & Hk & Hp & -> & ->)].
      * exists i, pile. split_and!; [lia | lia | done | done | done].
      * exists k, p. split_and!; [lia | lia | done | done |].
        unfold GUI.CARD_WIDTH. apply rect_eq; lia.
    + intros (k & p & Hk & Hp & -> & ->). destruct (decide (k = i)) as [->|Hne].
      * left. by simplify_eq.
      * right. exists k, p. split_and!; [lia | lia | done | done |].
        unfold GUI.CARD_WIDTH. apply rect_eq; lia.
Qed.

(** A click at a point that lies in the regions of one pile only finds
    that pile. *)
Lemma find_pile_iff coords x y name :
  (∀ n1 r1 n2 r2, (n1, r1) ∈ coords → (n2, r2) ∈ coords →
     GUI.inside x y r1 = true → GUI.inside x y r2 = true → n1 = n2) →
  GUI.find_pile coords x y = Some name ↔
  ∃ r, (name, r) ∈ coords ∧ GUI.inside x y r = true.
Proof.
  intros Hone. split; [apply find_pile_elem|].
  intros (r & Hin & Hr).
  destruct (GUI.find_pile coords x y) as [name'|] eqn:Hfind.
  - apply find_pile_elem in Hfind as (r' & Hin' & Hr'). f_equal. by eapply Hone.
  - exfalso. clear Hone. induction coords as [|[n0 r0] coords IH]; simpl in *.
    + by apply elem_of_nil in Hin.
    + destruct (GUI.inside x y r0) eqn:H0; [done|].
      apply elem_of_cons in Hin as [[= <- <-] | Hin]; [congruence | by apply IH].
Qed.

(** The regions [draw_game] computes. *)
Lemma layout_elem g coords name r :
  GUI.layout g = Some coords →
  (name, r) ∈ coords ↔
  (name = GUI.Stock ∧ r = (20, 20, 100, 140))
  ∨ (name = GUI.Waste ∧ r = (120, 20, 200, 140))
  ∨ (∃ k, (k < 4)%nat ∧ name = GUI.Foundation k
          ∧ r = (400 + 90 * Z.of_nat k, 20, 480 + 90 * Z.of_nat k, 140))
  ∨ (∃ k pile, tableau g !! k = Some pile ∧ (k < 7)%nat ∧ name = GUI.Tableau k
          ∧ r = (20 + 90 * Z.of_nat k, 160, 100 + 90 * Z.of_nat k,
                 280 + 30 * Z.of_nat (length pile))).
Proof.
  unfold GUI.layout.
  destruct (GUI.foundation_coords g 0 4 400 20) as [fs|] eqn:Hfs; [|done].
  destruct (GUI.tableau_coords g 0 7 20 160) as [ts|] eqn:Hts; [|done].
  cbn [mbind option_bind]. intros [= <-].
  rewrite !elem_of_cons, elem_of_app.
  rewrite (foundation_coords_elem _ _ _ _ _ _ name r Hfs).
  rewrite (tableau_coords_elem _ _ _ _ _ _ name r Hts).
  unfold GUI.card_rect, GUI.CARD_WIDTH, GUI.CARD_HEIGHT. split.
  - intros [[= -> ->] | [[= -> ->] | [(k & Hk & -> & ->) | (k & p & Hk & Hp & -> & ->)]]].
    + by left.
    + right; left. done.
    + right; right; left. exists k. split_and!; [lia | done |].
      rewrite Nat.sub_0_r. apply rect_eq; lia.
    + right; right; right. exists k, p. split_and!; [done | lia | done |].
      rewrite Nat.sub_0_r. apply rect_eq; lia.
  - intros [[-> ->] | [[-> ->] | [(k & Hk & -> & ->) | (k & p & Hp & Hk & -> & ->)]]].
    + by left.
    + right. by left.
    + right. right. left. exists k. split_and!; [lia | lia | done |].
      rewrite Nat.sub_0_r. apply rect_eq; lia.
    + right. right. right. exists k, p. split_and!; [lia | lia | done | done |].
      rewrite Nat.sub_0_r. apply rect_eq; lia.
Qed.

Lemma layout_one_pile g coords x y n1 r1 n2 r2 :
  GUI.layout g = Some coords →
  (n1, r1) ∈ coords → (n2, r2) ∈ coords →
  GUI.inside x y r1 = true → GUI.inside x y r2 = true → n1 = n2.
Proof.
  intros Hlayout H1 H2.
  apply (layout_elem g coords n1 r1 Hlayout) in H1.
  apply (layout_elem g coords n2 r2 Hlayout) in H2.
  destruct H1 as [[-> ->] | [[-> ->] | [(k1 & ? & -> & ->) | (k1 & p1 & ? & ? & -> & ->)]]];
  destruct H2 as [[-> ->] | [[-> ->] | [(k2 & ? & -> & ->) | (k2 & p2 & ? & ? & -> & ->)]]];
    rewrite !inside_true; intros ? ?; try done; try lia;
    f_equal; lia.
Qed.

(** X25.  Where a click lands.  In every state of the board a click at
    (x, y) finds the stock for 20 <= x <= 100 and the waste for
    120 <= x <= 200 when 20 <= y <= 140; foundation i (0..3) for
    400 + 90 i <= x <= 480 + 90 i and the same y; column i for
    20 + 90 i <= x <= 100 + 90 i and 160 <= y <= 280 + 30 n, where n is the
    number of cards the column holds now; and no pile anywhere else.  The
    borders count, and no point lies in two regions. *)
Theorem click_finds_the_pile (s : GUI.SolitaireGUI) (x y : Z) :
  GUI.reachable s →
  (GUI.find_pile (GUI.pile_coords s) x y = Some GUI.Stock ↔
     20 ≤ x ≤ 100 ∧ 20 ≤ y ≤ 140)
  ∧ (GUI.find_pile (GUI.pile_coords s) x y = Some GUI.Waste ↔
     120 ≤ x ≤ 200 ∧ 20 ≤ y ≤ 140)
  ∧ (∀ i, GUI.find_pile (GUI.pile_coords s) x y = Some (GUI.Foundation i) ↔
       (i < 4)%nat
       ∧ 400 + 90 * Z.of_nat i ≤ x ≤ 480 + 90 * Z.of_nat i ∧ 20 ≤ y ≤ 140)
  ∧ (∀ i, GUI.find_pile (GUI.pile_coords s) x y = Some (GUI.Tableau i) ↔
       ∃ pile, tableau (GUI.game s) !! i = Some pile
         ∧ 20 + 90 * Z.of_nat i ≤ x ≤ 100 + 90 * Z.of_nat i
         ∧ 160 ≤ y ≤ 280 + 30 * Z.of_nat (length pile)).
Proof.
  intros Hs%gui_reachable_inv. destruct Hs as [Hg Hcoords _].
  apply reachable_game_inv in Hg as [_ Ht _ _ _ _].
  assert (∀ name,
            GUI.find_pile (GUI.pile_coords s) x y = Some name ↔
            ∃ r, (name, r) ∈ GUI.pile_coords s ∧ GUI.inside x y r = true) as Hfind.
  { intros name. apply find_pile_iff. intros n1 r1 n2 r2.
    by apply (layout_one_pile (GUI.game s)). }
  split_and!; [| |intros i|intros i]; rewrite Hfind.
  - split.
    + intros (r & Hin & Hr). apply (layout_elem _ _ _ _ Hcoords) in Hin
        as [[_ ->] | [[? _] | [(? & _ & ? & _) | (? & ? & _ & _ & ? & _)]]]; try done.
      by apply inside_true in Hr.
    + intros Hxy. eexists. split; [apply (layout_elem _ _ _ _ Hcoords); by left|].
      by apply inside_true.
  - split.
    + intros (r & Hin & Hr). apply (layout_elem _ _ _ _ Hcoords) in Hin
        as [[? _] | [[_ ->] | [(? & _ & ? & _) | (? & ? & _ & _ & ? & _)]]]; try done.
      by apply inside_true in Hr.
    + intros Hxy. eexists.
      split; [apply (layout_elem _ _ _ _ Hcoords); right; by left|].
      by apply inside_true.
  - split.
    + intros (r & Hin & Hr). apply (layout_elem _ _ _ _ Hcoords) in Hin
        as [[? _] | [[? _] | [(k & ? & [= <-] & ->) | (? & ? & _ & _ & ? & _)]]];
        try done.
      apply inside_true in Hr. by split.
    + intros (Hi & Hxy). eexists.
      split; [apply (layout_elem _ _ _ _ Hcoords); right; right; left; by exists i|].
      by apply inside_true.
  - split.
    + intros (r & Hin & Hr). apply (layout_elem _ _ _ _ Hcoords) in Hin
        as [[? _] | [[? _] | [(? & _ & ? & _) | (k & pile & Hpile & _ & [= <-] & ->)]]];
        try done.
      apply inside_true in Hr. by exists pile.
    + intros (pile & Hpile & Hxy). eexists.
      split; [apply (layout_elem _ _ _ _ Hcoords); right; right; right;
              exists i, pile; split_and!; [done | | done | done]|].
      * apply lookup_lt_Some in Hpile. lia.
      * by apply inside_true.
Qed.

Lemma click_finds_the_pile_witness :
  GUI.find_pile (GUI.pile_coords column1_empty) 110 280 = Some (GUI.Tableau 1)
  ∧ ¬ (GUI.find_pile (GUI.pile_coords column1_empty) 110 281 = Some (GUI.Tableau 1)).
Proof.
  destruct (click_finds_the_pile column1_empty 110 280 column1_empty_reachable)
    as (_ & _ & _ & H1).
  destruct (click_finds_the_pile column1_empty 110 281 column1_empty_reachable)
    as (_ & _ & _ & H2).
  split.
  - apply H1. exists []. split; [reflexivity|]. simpl. lia.
  - intros H. apply H2 in H as (pile & Hpile & _ & Hy).
    injection Hpile as <-. simpl in Hy. lia.
Defined.
